(** * NoiseGuard native core: SPSC ring buffer and RNNoise frame processor

    A shallow embedding of [native/src/ringbuffer.h] and
    [native/src/rnnoise_wrapper.{h,cpp}], and the properties of the
    specification established on it.

    Modelling conventions.
    - [size_t], [uint64_t] and [uint32_t] values are integers in [Z] and
      every arithmetic operation of the source carries its wrap-around.
    - [float] values are IEEE 754 binary32 numbers ([spec_float] of the
      standard library at precision 24, maximal exponent 128): every
      operation of the gate rounds to nearest-even, comparisons with NaN
      are false, and each operation is rounded on its own (no fused
      multiply-add).  A decimal literal such as [0.001f] is the quotient
      of two integers rounded once.
    - The ring buffer only moves samples and never computes with them;
      its statements are written over samples in [Q].
    - [std::atomic] fields are plain fields: the model is the sequential
      behaviour of each call.
    - The RNNoise engine is an interface ([Externals]); nothing is assumed
      about what it returns. *)

From stdpp Require Import base list list_numbers.
From Stdlib Require Import ZArith QArith SpecFloat Lia.

Open Scope Z_scope.

(** ** Machine integers *)

Definition size_modulus : Z := 2 ^ 64.

(** Reduction of a result to [size_t] / [uint64_t]. *)
Definition wrap (x : Z) : Z := x mod size_modulus.

(** Reduction of a result to [uint32_t]. *)
Definition wrap32 (x : Z) : Z := x mod 2 ^ 32.

(** [static_cast<int32_t>] of a [uint32_t]. *)
Definition to_int32 (x : Z) : Z := if x <? 2 ^ 31 then x else x - 2 ^ 32.

(** A value that fits [size_t]. *)
Definition is_size_t (x : Z) : Prop := 0 <= x < size_modulus.

(** ** ringbuffer.h *)

(** The loop [for (size_t i = 1; i < sizeof(size_t) * 8; i *= 2) n |= n >> i]
    of [nextPowerOf2]; [fuel] bounds the number of iterations. *)
Fixpoint smear (fuel : nat) (i n : Z) : Z :=
  match fuel with
  | O => n
  | S fuel' =>
      if i <? 64 then smear fuel' (wrap (i * 2)) (Z.lor n (Z.shiftr n i))
      else n
  end.

Definition nextPowerOf2 (n : Z) : Z :=
  if n =? 0 then 1
  else
    let n := wrap (n - 1) in
    let n := smear 64 1 n in
    wrap (n + 1).

(** The object: two constants, the storage and the two indices. *)
Record RingBuffer : Type := mkRingBuffer {
  capacity_ : Z;
  mask_ : Z;
  buffer_ : list Q;
  read_idx_ : Z;
  write_idx_ : Z
}.

(** Constructor.  [new float[capacity_]] leaves the cells indeterminate;
    they are filled with [0] here and no statement below depends on it. *)
Definition RingBuffer_new (capacity : Z) : RingBuffer :=
  let c := nextPowerOf2 capacity in
  {| capacity_ := c;
     mask_ := wrap (c - 1);
     buffer_ := replicate (Z.to_nat c) 0%Q;
     read_idx_ := 0;
     write_idx_ := 0 |}.

(** [(w >= r) ? (w - r) : (capacity_ - (r - w))], as written in
    [available_read], [write] and [read]. *)
Definition used_between (cap w r : Z) : Z :=
  if r <=? w then wrap (w - r) else wrap (cap - wrap (r - w)).

Definition available_read (rb : RingBuffer) : Z :=
  used_between (capacity_ rb) (write_idx_ rb) (read_idx_ rb).

Definition available_write (rb : RingBuffer) : Z :=
  wrap (wrap (capacity_ rb - available_read rb) - 1).

Definition capacity (rb : RingBuffer) : Z := capacity_ rb.

(** [for (i = 0; i < count; i++) buffer_[(w + i) & mask_] = src[i]]. *)
Definition write_loop (mask w : Z) (src : list Q) (count : Z)
    (buf : list Q) : list Q :=
  fold_left
    (fun b i => <[Z.to_nat (Z.land (wrap (w + i)) mask) := nth (Z.to_nat i) src 0%Q]> b)
    (seqZ 0 count) buf.

(** [write(src, count)]: the new object and the returned count. *)
Definition write (rb : RingBuffer) (src : list Q) (count : Z)
    : RingBuffer * Z :=
  let w := write_idx_ rb in
  let r := read_idx_ rb in
  let used := used_between (capacity_ rb) w r in
  let free := wrap (wrap (capacity_ rb - used) - 1) in
  let count := if free <? count then free else count in
  if count =? 0 then (rb, 0)
  else
    ({| capacity_ := capacity_ rb;
        mask_ := mask_ rb;
        buffer_ := write_loop (mask_ rb) w src count (buffer_ rb);
        read_idx_ := r;
        write_idx_ := wrap (w + count) |},
     count).

(** [for (i = 0; i < count; i++) dst[i] = buffer_[(r + i) & mask_]]:
    the values stored into [dst[0 .. count)], in order. *)
Definition read_loop (mask r : Z) (count : Z) (buf : list Q) : list Q :=
  (fun i => nth (Z.to_nat (Z.land (wrap (r + i)) mask)) buf 0%Q) <$> seqZ 0 count.

(** [read(dst, count)]: the new object, what was stored into [dst] and
    the returned count. *)
Definition read (rb : RingBuffer) (count : Z) : RingBuffer * list Q * Z :=
  let r := read_idx_ rb in
  let w := write_idx_ rb in
  let used := used_between (capacity_ rb) w r in
  let count := if used <? count then used else count in
  if count =? 0 then (rb, [], 0)
  else
    ({| capacity_ := capacity_ rb;
        mask_ := mask_ rb;
        buffer_ := buffer_ rb;
        read_idx_ := wrap (r + count);
        write_idx_ := w |},
     read_loop (mask_ rb) r count (buffer_ rb),
     count).

(** A call of the producer or of the consumer. *)
Inductive call : Type :=
  | Write (src : list Q) (count : Z)
  | Read (count : Z).

(** One call as seen from outside: object before, call, returned count,
    object after. *)
Record event : Type := mkEvent {
  ev_pre : RingBuffer;
  ev_call : call;
  ev_ret : Z;
  ev_post : RingBuffer
}.

Definition step (rb : RingBuffer) (c : call) : RingBuffer * Z :=
  match c with
  | Write src count => write rb src count
  | Read count => let '(rb', _, n) := read rb count in (rb', n)
  end.

(** The history of a sequence of calls, oldest first. *)
Fixpoint run (rb : RingBuffer) (cs : list call) : list event :=
  match cs with
  | [] => []
  | c :: cs' =>
      let '(rb', n) := step rb c in
      mkEvent rb c n rb' :: run rb' cs'
  end.

(** Samples written in a history: the sum of the counts [write] returned. *)
Definition samples_written (h : list event) : Z :=
  fold_right
    (fun e acc => match ev_call e with Write _ _ => ev_ret e + acc | Read _ => acc end)
    0 h.

Definition call_fits (c : call) : Prop :=
  match c with
  | Write _ count => is_size_t count
  | Read count => is_size_t count
  end.

Definition is_write (c : call) : bool :=
  match c with Write _ _ => true | Read _ => false end.

(** The index invariant of the specification. *)
Definition indices_ok (rb : RingBuffer) : Prop :=
  read_idx_ rb <= write_idx_ rb <= read_idx_ rb + capacity_ rb - 1.

(** ** Statements about the ring buffer *)

(** What the constructor establishes and every call keeps: a power-of-two
    capacity that fits [size_t] with its mask, storage of that size, and
    indices that fit [size_t]. *)
Definition well_formed (rb : RingBuffer) : Prop :=
  exists k, 0 <= k < 64 /\
    capacity_ rb = 2 ^ k /\
    mask_ rb = Z.ones k /\
    length (buffer_ rb) = Z.to_nat (2 ^ k) /\
    is_size_t (read_idx_ rb) /\ is_size_t (write_idx_ rb).

(** What the specification asks of every call of a history. *)
Definition event_ok (e : event) : Prop :=
  indices_ok (ev_post e) /\
  available_read (ev_post e) <= capacity (ev_post e) - 1 /\
  (is_write (ev_call e) = true ->
   ev_ret e <= capacity (ev_pre e) - available_read (ev_pre e) - 1).

(** An object that was empty at index [r0] and has since received [xs]. *)
Definition filled (rb : RingBuffer) (r0 : Z) (xs : list Q) : Prop :=
  well_formed rb /\
  read_idx_ rb = r0 /\
  write_idx_ rb = wrap (r0 + Z.of_nat (length xs)) /\
  Z.of_nat (length xs) <= capacity_ rb - 1 /\
  forall j, (j < length xs)%nat ->
    buffer_ rb !! Z.to_nat ((r0 + Z.of_nat j) mod capacity_ rb) = xs !! j.

(** The producer writes the chunks one after the other, each with its
    full length as count; the returned counts are collected. *)
Fixpoint write_all (rb : RingBuffer) (chunks : list (list Q))
    : RingBuffer * list Z :=
  match chunks with
  | [] => (rb, [])
  | ys :: rest =>
      let '(rb', n) := write rb ys (Z.of_nat (length ys)) in
      let '(rb'', ns) := write_all rb' rest in
      (rb'', n :: ns)
  end.

(** What a caller observes of one call: the returned count, the samples
    stored into [dst] (none for [write]), and [available_read()] and
    [available_write()] after the call. *)
Definition observe (rb : RingBuffer) (c : call)
    : RingBuffer * (Z * list Q * Z * Z) :=
  match c with
  | Write src count =>
      let '(rb', n) := write rb src count in
      (rb', (n, [], available_read rb', available_write rb'))
  | Read count =>
      let '(rb', out, n) := read rb count in
      (rb', (n, out, available_read rb', available_write rb'))
  end.

Fixpoint observations (rb : RingBuffer) (cs : list call)
    : list (Z * list Q * Z * Z) :=
  match cs with
  | [] => []
  | c :: cs' => let '(rb', o) := observe rb c in o :: observations rb' cs'
  end.

(** The reference the buffer is compared with: a first-in first-out list
    of at most [cap - 1] samples.  [write] appends as many of the first
    [count] samples as fit, [read] removes up to [count] samples from the
    front. *)
Definition queue_call (cap : Z) (q : list Q) (c : call)
    : list Q * (Z * list Q * Z * Z) :=
  match c with
  | Write src count =>
      let n := Z.min count (cap - 1 - Z.of_nat (length q)) in
      let q' := q ++ take (Z.to_nat n) src in
      (q', (n, [], Z.of_nat (length q'), cap - 1 - Z.of_nat (length q')))
  | Read count =>
      let n := Z.min count (Z.of_nat (length q)) in
      let q' := drop (Z.to_nat n) q in
      (q', (n, take (Z.to_nat n) q, Z.of_nat (length q'),
            cap - 1 - Z.of_nat (length q')))
  end.

Fixpoint queue_observations (cap : Z) (q : list Q) (cs : list call)
    : list (Z * list Q * Z * Z) :=
  match cs with
  | [] => []
  | c :: cs' =>
      let '(q', o) := queue_call cap q c in o :: queue_observations cap q' cs'
  end.

(** A call as the interface expects it: [src] holds at least [count]
    samples, and the counts fit [size_t]. *)
Definition call_sound (c : call) : Prop :=
  match c with
  | Write src count => 0 <= count <= Z.of_nat (length src) /\ count < size_modulus
  | Read count => is_size_t count
  end.

(** The object holds the samples [q], oldest first, and its indices have
    not wrapped. *)
Definition holds (rb : RingBuffer) (q : list Q) : Prop :=
  filled rb (read_idx_ rb) q /\
  read_idx_ rb + Z.of_nat (length q) < size_modulus.

(** One sample written and read back, [k] times over: the calls that
    advance both indices of an empty buffer by [k]. *)
Definition laps (k : nat) : list call :=
  concat (replicate k [Write [0%Q] 1; Read 1]).

(** The samples the buffer accepted in a history of calls, oldest first:
    for each [write], the first [n] samples of [src], [n] being the count
    it returned. *)
Fixpoint accepted (cs : list call) (obs : list (Z * list Q * Z * Z))
    : list Q :=
  match cs, obs with
  | Write src _ :: cs', (n, _, _, _) :: obs' =>
      take (Z.to_nat n) src ++ accepted cs' obs'
  | Read _ :: cs', _ :: obs' => accepted cs' obs'
  | _, _ => []
  end.

(** The samples the [read] calls of a history delivered, oldest first. *)
Definition delivered (obs : list (Z * list Q * Z * Z)) : list Q :=
  concat (map (fun o => snd (fst (fst o))) obs).

(** [x] has bit [j] exactly when [m] has a bit in [j .. j + s]. *)
Definition smeared (s : Z) (x m : Z) : Prop :=
  forall j, 0 <= j ->
    Z.testbit x j = true <-> exists i, 0 <= i <= s /\ Z.testbit m (j + i) = true.

(** ** float: IEEE 754 binary32

    A [float] of the source is a [spec_float] of the standard library's
    specification of IEEE 754 arithmetic, at precision 24 and maximal
    exponent 128; every operation rounds to nearest, ties to even. *)

Definition float : Type := spec_float.
Definition prec : Z := 24.
Definition emax : Z := 128.

Definition fadd : float -> float -> float := SFadd prec emax.
Definition fsub : float -> float -> float := SFsub prec emax.
Definition fmul : float -> float -> float := SFmul prec emax.
Definition fdiv : float -> float -> float := SFdiv prec emax.
Definition fsqrt : float -> float := SFsqrt prec emax.

(** [a < b] and [a <= b]; both are false when an operand is NaN. *)
Definition flt : float -> float -> bool := SFltb.
Definition fle : float -> float -> bool := SFleb.

(** [static_cast<float>] of an integer. *)
Definition of_Z (z : Z) : float := binary_normalize prec emax z 0 false.

(** The literal [num/den] written in decimal: the nearest [float]. *)
Definition decimal (num den : Z) : float := fdiv (of_Z num) (of_Z den).

Definition zero : float := S754_zero false.
Definition one : float := of_Z 1.
Definition NaN : float := S754_nan.

Declare Scope float_scope.
Delimit Scope float_scope with flt.
Bind Scope float_scope with float.
Infix "+" := fadd : float_scope.
Infix "-" := fsub : float_scope.
Infix "*" := fmul : float_scope.
Infix "/" := fdiv : float_scope.
Infix "<?" := flt : float_scope.
Infix "<=?" := fle : float_scope.
Notation "a >=? b" := (fle b a) : float_scope.
Notation "0" := zero : float_scope.
Notation "1" := one : float_scope.

Definition is_nan (x : float) : bool :=
  match x with S754_nan => true | _ => false end.

(** Neither NaN nor an infinity. *)
Definition is_finite (x : float) : bool :=
  match x with S754_zero _ | S754_finite _ _ _ => true | _ => false end.

(** [x] is a value of the format: its mantissa and exponent are the
    canonical ones. *)
Definition is_float (x : float) : Prop := valid_binary prec emax x = true.

(** The place of a value in the order of the comparisons. *)
Definition key (x : float) : Z * Z * Z :=
  match x with
  | S754_zero _ | S754_nan => (0, 0, 0)
  | S754_infinity false => (2, 0, 0)
  | S754_infinity true => (-2, 0, 0)
  | S754_finite false m e => (1, e, Zpos m)
  | S754_finite true m e => (-1, - e, Zneg m)
  end.

Definition lex_lt (a b : Z * Z * Z) : Prop :=
  a.1.1 < b.1.1 \/
  (a.1.1 = b.1.1 /\ (a.1.2 < b.1.2 \/ (a.1.2 = b.1.2 /\ a.2 < b.2))).

(** [st] is what remains of [M] after [k] bits were shifted out; a raised
    flag tells that a bit shifted out was set, unless the flags were
    raised from the start ([inexact]). *)
Definition shifted (inexact : Prop) (M k : Z) (st : shr_record) : Prop :=
  shr_m st = M / 2 ^ k /\
  (shr_r st || shr_s st = true -> ~ (2 ^ k | M) \/ inexact).

(** The sign of a value that is not NaN. *)
Definition signed (sx : bool) (x : float) : Prop :=
  match x with
  | S754_zero s | S754_infinity s | S754_finite s _ _ => s = sx
  | S754_nan => False
  end.

(** The value [binary_round_aux] returns for the rounded mantissa [m2] at
    exponent [e1]. *)
Definition rounded (sx : bool) (m2 e1 : Z) : float :=
  if m2 =? 0 then S754_zero sx
  else if m2 <? 2 ^ 24 then
    if e1 <=? 104 then S754_finite sx (Z.to_pos m2) e1 else S754_infinity sx
  else
    if e1 + 1 <=? 104 then S754_finite sx (2 ^ 23)%positive (e1 + 1)
    else S754_infinity sx.

(** The comparisons as propositions. *)
Notation "a < b" := (flt a b = true) : float_scope.
Notation "a <= b" := (fle a b = true) : float_scope.
Notation "a <= b <= c" := (fle a b = true /\ fle b c = true) : float_scope.

(** ** rnnoise_wrapper.h / rnnoise_wrapper.cpp *)

Open Scope float_scope.

(** What the wrapper calls and does not define: the RNNoise engine.
    [rnnoise_process_frame(st, out, in)] updates the engine state, writes
    the enhanced frame and returns the voice-activity probability. *)
Class Externals : Type := {
  DenoiseState : Type;
  rnnoise_process_frame :
    DenoiseState -> list float -> DenoiseState * list float * float
}.

Definition kRNNoiseFrameSize : nat := 480.

(** The constants [0.08f], [0.001f], [0.001f], [0.1f] and
    [1.0f / 32767.0f]. *)
Definition kGainSmoothCoeff : float := decimal 8 100.
Definition kMinGateGain : float := decimal 1 1000.
Definition kComfortNoiseLevel : float := decimal 1 1000.
Definition kVadHysteresis : float := decimal 1 10.
Definition kInvScale : float := 1 / of_Z 32767.

(** [std::max(a, b)] is [(a < b) ? b : a]. *)
Definition std_max (a b : float) : float := if a <? b then b else a.

(** [std::clamp(v, lo, hi)] is [(v < lo) ? lo : (hi < v) ? hi : v]. *)
Definition std_clamp (v lo hi : float) : float :=
  if v <? lo then lo else if hi <? v then hi else v.

Record AudioMetrics : Type := mkAudioMetrics {
  inputRms : float;
  outputRms : float;
  vadProbability : float;
  currentGain : float;
  framesProcessed : Z
}.

Record RNNoiseWrapper `{Externals} : Type := mkRNNoiseWrapper {
  state_ : option DenoiseState;
  suppressionLevel_ : float;
  vadThreshold_ : float;
  comfortNoiseEnabled_ : bool;
  smoothGain_ : float;
  noiseState_ : Z;
  metrics_ : AudioMetrics
}.

(** The object after its default member initialisers. *)
Definition RNNoiseWrapper_new `{Externals} : RNNoiseWrapper :=
  {| state_ := None;
     suppressionLevel_ := 1;
     vadThreshold_ := decimal 5 10;
     comfortNoiseEnabled_ := true;
     smoothGain_ := 1;
     noiseState_ := 0x12345678;
     metrics_ := mkAudioMetrics 0 0 0 1 0%Z |}.

Definition isInitialized `{Externals} (s : RNNoiseWrapper) : bool :=
  match state_ s with Some _ => true | None => false end.

Definition destroy `{Externals} (s : RNNoiseWrapper) : RNNoiseWrapper :=
  match state_ s with
  | Some _ =>
      {| state_ := None;
         suppressionLevel_ := suppressionLevel_ s;
         vadThreshold_ := vadThreshold_ s;
         comfortNoiseEnabled_ := comfortNoiseEnabled_ s;
         smoothGain_ := smoothGain_ s;
         noiseState_ := noiseState_ s;
         metrics_ := metrics_ s |}
  | None => s
  end.

(** [init()]; [created] is what [rnnoise_create(nullptr)] returned, [None]
    for a null handle. *)
Definition init `{Externals} (created : option DenoiseState)
    (s : RNNoiseWrapper) : RNNoiseWrapper * bool :=
  let s := if isInitialized s then destroy s else s in
  ({| state_ := created;
      suppressionLevel_ := suppressionLevel_ s;
      vadThreshold_ := vadThreshold_ s;
      comfortNoiseEnabled_ := comfortNoiseEnabled_ s;
      smoothGain_ := 1;
      noiseState_ := 0x12345678;
      metrics_ := mkAudioMetrics 0 0 0 1 0%Z |},
   match created with Some _ => true | None => false end).

Definition setSuppressionLevel `{Externals} (level : float)
    (s : RNNoiseWrapper) : RNNoiseWrapper :=
  {| state_ := state_ s;
     suppressionLevel_ := std_clamp level 0 1;
     vadThreshold_ := vadThreshold_ s;
     comfortNoiseEnabled_ := comfortNoiseEnabled_ s;
     smoothGain_ := smoothGain_ s;
     noiseState_ := noiseState_ s;
     metrics_ := metrics_ s |}.

Definition getSuppressionLevel `{Externals} (s : RNNoiseWrapper) : float :=
  suppressionLevel_ s.

Definition setVadThreshold `{Externals} (threshold : float)
    (s : RNNoiseWrapper) : RNNoiseWrapper :=
  {| state_ := state_ s;
     suppressionLevel_ := suppressionLevel_ s;
     vadThreshold_ := std_clamp threshold 0 1;
     comfortNoiseEnabled_ := comfortNoiseEnabled_ s;
     smoothGain_ := smoothGain_ s;
     noiseState_ := noiseState_ s;
     metrics_ := metrics_ s |}.

Definition getVadThreshold `{Externals} (s : RNNoiseWrapper) : float :=
  vadThreshold_ s.

Definition setComfortNoise `{Externals} (enabled : bool)
    (s : RNNoiseWrapper) : RNNoiseWrapper :=
  {| state_ := state_ s;
     suppressionLevel_ := suppressionLevel_ s;
     vadThreshold_ := vadThreshold_ s;
     comfortNoiseEnabled_ := enabled;
     smoothGain_ := smoothGain_ s;
     noiseState_ := noiseState_ s;
     metrics_ := metrics_ s |}.

(** [for (i = 0; i < len; i++) sum += buf[i] * buf[i]]. *)
Fixpoint sum_squares (len : nat) (buf : list float) (sum : float)
    {struct buf} : float :=
  match len, buf with
  | S len', x :: rest => sum_squares len' rest (sum + x * x)
  | _, _ => sum
  end.

(** [computeRms(buf, len)]; [std::sqrt] on [float] is the correctly
    rounded square root. *)
Definition computeRms (buf : list float) (len : nat) : float :=
  fsqrt (sum_squares len buf 0 / of_Z (Z.of_nat len)).

(** [for (i = 0; i < n; i++) frame[i] = f(frame[i])]. *)
Fixpoint for_each (n : nat) (f : float -> float) (frame : list float)
    {struct frame} : list float :=
  match n, frame with
  | S n', x :: rest => f x :: for_each n' f rest
  | _, _ => frame
  end.

(** The engine's output [out[0 .. n)] stored over [frame[0 .. n)]. *)
Fixpoint store (n : nat) (out frame : list float) {struct frame}
    : list float :=
  match n, frame with
  | S n', _ :: rest => hd 0 out :: store n' (tl out) rest
  | _, _ => frame
  end.

(** [for (i = 0; i < n; i++) frame[i] = frame[i] * level + original[i] * dry]. *)
Fixpoint blend (n : nat) (level dry : float) (frame original : list float)
    {struct frame} : list float :=
  match n, frame, original with
  | S n', x :: rest, o :: orest =>
      (x * level + o * dry) :: blend n' level dry rest orest
  | _, _, _ => frame
  end.

(** The three updates of [noiseState_] in [comfortNoiseSample]. *)
Definition xorshift32 (x : Z) : Z :=
  let x := Z.lxor x (wrap32 (Z.shiftl x 13)) in
  let x := Z.lxor x (Z.shiftr x 17) in
  Z.lxor x (wrap32 (Z.shiftl x 5)).

(** [comfortNoiseSample()]: the sample and the new [noiseState_]. *)
Definition comfortNoiseSample (noiseState : Z) : float * Z :=
  let noiseState := xorshift32 noiseState in
  let sample := of_Z (to_int32 noiseState) / of_Z 2147483648 in
  (sample * kComfortNoiseLevel, noiseState).

(** [for (i = 0; i < n; i++) frame[i] += comfortNoiseSample() * comfortScale]. *)
Fixpoint comfort_loop (n : nat) (comfortScale : float) (noiseState : Z)
    (frame : list float) {struct frame} : list float * Z :=
  match n, frame with
  | S n', x :: rest =>
      let '(c, noiseState) := comfortNoiseSample noiseState in
      let '(rest', noiseState) := comfort_loop n' comfortScale noiseState rest in
      ((x + c * comfortScale) :: rest', noiseState)
  | _, _ => (frame, noiseState)
  end.

(** Step 5 of [processFrame]: the target gate gain. *)
Definition targetGain (vad vadThresh : float) : float :=
  if vad >=? vadThresh then 1
  else if vad <? vadThresh - kVadHysteresis then
    let ratio := vad / std_max (vadThresh - kVadHysteresis) (decimal 1 100) in
    let targetGain := kMinGateGain + ratio * (1 - kMinGateGain) in
    std_max targetGain kMinGateGain
  else
    let ratio := (vad - (vadThresh - kVadHysteresis)) / kVadHysteresis in
    kMinGateGain + ratio * (1 - kMinGateGain).

(** Step 6: [smoothGain_ += k * (targetGain - smoothGain_)], then the clamp. *)
Definition smooth (smoothGain target : float) : float :=
  std_clamp (smoothGain + kGainSmoothCoeff * (target - smoothGain)) kMinGateGain 1.

(** Steps 2 to 6 of the full path, up to the multiplication by the gate
    gain: engine state, frame, VAD probability and smoothed gain. *)
Definition gate `{Externals} (s : RNNoiseWrapper) (st : DenoiseState)
    (frame : list float) : DenoiseState * list float * float * float :=
  let level := suppressionLevel_ s in
  let original := frame in
  let frame := for_each kRNNoiseFrameSize (fun x => x * of_Z 32767) frame in
  let '(st, out, vad) := rnnoise_process_frame st frame in
  let frame := store kRNNoiseFrameSize out frame in
  let frame := for_each kRNNoiseFrameSize (fun x => x * kInvScale) frame in
  let frame :=
    if level <? 1
    then blend kRNNoiseFrameSize level (1 - level) frame original
    else frame in
  let smoothGain := smooth (smoothGain_ s) (targetGain vad (vadThreshold_ s)) in
  let frame := for_each kRNNoiseFrameSize (fun x => x * smoothGain) frame in
  (st, frame, vad, smoothGain).

(** Step 7: comfort noise. *)
Definition comfort (enabled : bool) (smoothGain : float) (noiseState : Z)
    (frame : list float) : list float * Z :=
  if enabled && (smoothGain <? decimal 1 10) then
    let comfortScale := (decimal 1 10 - smoothGain) / decimal 1 10 in
    comfort_loop kRNNoiseFrameSize comfortScale noiseState frame
  else (frame, noiseState).

(** [processFrame(frame)]: the new object, the frame after the call and
    the returned value. *)
Definition processFrame `{Externals} (s : RNNoiseWrapper)
    (frame : list float) : RNNoiseWrapper * list float * float :=
  match state_ s with
  | None => (s, frame, 0)
  | Some st =>
      let level := suppressionLevel_ s in
      if level <=? 0 then
        let rms := computeRms frame kRNNoiseFrameSize in
        ({| state_ := state_ s;
            suppressionLevel_ := suppressionLevel_ s;
            vadThreshold_ := vadThreshold_ s;
            comfortNoiseEnabled_ := comfortNoiseEnabled_ s;
            smoothGain_ := smoothGain_ s;
            noiseState_ := noiseState_ s;
            metrics_ :=
              mkAudioMetrics rms rms 0 1
                (wrap (framesProcessed (metrics_ s) + 1)%Z) |},
         frame, 0)
      else
        let inputRms := computeRms frame kRNNoiseFrameSize in
        let '(st, frame, vad, smoothGain) := gate s st frame in
        let '(frame, noiseState) :=
          comfort (comfortNoiseEnabled_ s) smoothGain (noiseState_ s) frame in
        let outputRms := computeRms frame kRNNoiseFrameSize in
        ({| state_ := Some st;
            suppressionLevel_ := suppressionLevel_ s;
            vadThreshold_ := vadThreshold_ s;
            comfortNoiseEnabled_ := comfortNoiseEnabled_ s;
            smoothGain_ := smoothGain;
            noiseState_ := noiseState;
            metrics_ :=
              mkAudioMetrics inputRms outputRms vad smoothGain
                (wrap (framesProcessed (metrics_ s) + 1)%Z) |},
         frame, vad)
  end.

(** ** Statements about the frame processor *)

Section Interface.
Context `{Externals}.

(** The voice-activity probability the engine returns for [frame]: the
    wrapper hands it the frame scaled by 32767. *)
Definition engine_vad (st : DenoiseState) (frame : list float) : float :=
  snd (rnnoise_process_frame st
         (for_each kRNNoiseFrameSize (fun x => x * of_Z 32767) frame)).

(** The calls of the public interface. *)
Inductive method : Type :=
  | Init (created : option DenoiseState)
  | Destroy
  | ProcessFrame (frame : list float)
  | SetSuppressionLevel (level : float)
  | SetVadThreshold (threshold : float)
  | SetComfortNoise (enabled : bool).

Definition invoke (s : RNNoiseWrapper) (m : method) : RNNoiseWrapper :=
  match m with
  | Init created => fst (init created s)
  | Destroy => destroy s
  | ProcessFrame frame => fst (fst (processFrame s frame))
  | SetSuppressionLevel level => setSuppressionLevel level s
  | SetVadThreshold threshold => setVadThreshold threshold s
  | SetComfortNoise enabled => setComfortNoise enabled s
  end.

(** The objects after each call of a sequence, oldest first. *)
Fixpoint states (s : RNNoiseWrapper) (ms : list method) : list RNNoiseWrapper :=
  match ms with
  | [] => []
  | m :: ms' => invoke s m :: states (invoke s m) ms'
  end.

(** The object after [frames] have been processed one after the other. *)
Definition process_all (s : RNNoiseWrapper) (frames : list (list float))
    : RNNoiseWrapper :=
  fold_left (fun s frame => fst (fst (processFrame s frame))) frames s.

(** A call whose argument is a number: the threshold and the level given
    to the setters are not NaN. *)
Definition numeric (m : method) : Prop :=
  match m with
  | SetSuppressionLevel x | SetVadThreshold x => is_nan x = false
  | _ => True
  end.

(** A call that gives the threshold a number of the format. *)
Definition numeric_threshold (m : method) : Prop :=
  match m with
  | SetVadThreshold x => is_float x /\ is_nan x = false
  | _ => True
  end.

(** What the calls keep of the threshold and the gain when the numbers
    they are given are not NaN. *)
Definition in_range (s : RNNoiseWrapper) : Prop :=
  is_float (vadThreshold_ s) /\
  0 <= vadThreshold_ s <= 1 /\
  decimal 1 1000 <= smoothGain_ s <= 1.

(** The engine never reports NaN as the probability. *)
Definition vad_is_number : Prop :=
  forall st frame, is_nan (snd (rnnoise_process_frame st frame)) = false.



(** The engine reports a probability of at least [T], whatever the
    frame. *)
Definition voiced (T : float) : Prop :=
  forall st frame, T <= engine_vad st frame.

(** The situation of the opening gate: engine initialised, a level above
    0, a gain of the format in range. *)
Definition gate_opening (s : RNNoiseWrapper) : Prop :=
  isInitialized s = true /\
  0 < suppressionLevel_ s /\
  is_float (smoothGain_ s) /\
  decimal 1 1000 <= smoothGain_ s <= 1.

End Interface.

(** The root mean square of a frame: the square root of the mean of the
    squared samples, each operation rounded to [float]. *)
Definition rms (frame : list float) : float :=
  fsqrt (fold_left (fun sum x => sum + x * x) frame 0
         / of_Z (Z.of_nat (length frame))).

(** [v] is the 32-bit pattern [x] read as an [int32_t]. *)
Definition as_int32 (x v : Z) : Prop :=
  (- 2 ^ 31 <= v < 2 ^ 31)%Z /\ ((v - x) mod 2 ^ 32 = 0)%Z.

(** ** Objects for the examples

    The engine used in the examples returns the frame it is given and a
    fixed probability. *)

Definition fixed_vad (vad : float) : Externals :=
  {| DenoiseState := unit;
     rnnoise_process_frame := fun st frame => (st, frame, vad) |}.

(** An initialised object with its default settings. *)
Definition started (vad : float) : @RNNoiseWrapper (fixed_vad vad) :=
  fst (@init (fixed_vad vad) (Some tt) RNNoiseWrapper_new).

Definition silence : list float := replicate 480 0.

Definition half_scale : list float := replicate 480 (decimal 1 2).

(** An object deep in attenuation: 27 frames of silence after [init],
    with an engine that hears no voice. *)
Definition attenuated : @RNNoiseWrapper (fixed_vad 0) :=
  process_all (started 0) (replicate 27 silence).

(** * Properties of the ring buffer *)

Section NextPowerOf2.
Local Open Scope Z_scope.

Example nextPowerOf2_samples :
  map nextPowerOf2 [0; 1; 2; 3; 4; 5; 100; 127; 128; 129; 2 ^ 63]
  = [1; 1; 2; 4; 4; 8; 128; 128; 128; 256; 2 ^ 63].
Proof. vm_compute. reflexivity. Qed.

Lemma wrap_small (x : Z) : 0 <= x < size_modulus -> wrap x = x.
Proof. intros Hx. unfold wrap. apply Z.mod_small. exact Hx. Qed.

Lemma wrap_range (x : Z) : 0 <= wrap x < size_modulus.
Proof. unfold wrap. apply Z.mod_pos_bound. reflexivity. Qed.

Lemma wrap_add_l (x y : Z) : wrap (wrap x + y) = wrap (x + y).
Proof. unfold wrap. apply Zplus_mod_idemp_l. Qed.

Lemma smear_step (fuel : nat) (i n : Z) :
  i < 64 ->
  smear (S fuel) i n = smear fuel (wrap (i * 2)) (Z.lor n (Z.shiftr n i)).
Proof.
  intros Hi. simpl. destruct (Z.ltb_spec i 64) as [_ | Hge]; [reflexivity | lia].
Qed.

Lemma smear_stop (fuel : nat) (i n : Z) : 64 <= i -> smear (S fuel) i n = n.
Proof.
  intros Hi. simpl. destruct (Z.ltb_spec i 64) as [Hlt | _]; [lia | reflexivity].
Qed.

Lemma smeared_start (m : Z) : smeared 0 m m.
Proof.
  intros j Hj. split.
  - intros Hb. exists 0. rewrite Z.add_0_r. split; [lia | exact Hb].
  - intros (i & Hi & Hb). replace i with 0 in Hb by lia.
    rewrite Z.add_0_r in Hb. exact Hb.
Qed.

Lemma smeared_double (s x m : Z) :
  0 <= s -> smeared s x m ->
  smeared (2 * s + 1) (Z.lor x (Z.shiftr x (s + 1))) m.
Proof.
  intros Hs Hx j Hj.
  rewrite Z.lor_spec, Z.shiftr_spec by lia.
  rewrite orb_true_iff, (Hx j Hj), (Hx (j + (s + 1))) by lia. split.
  - intros [(i & Hi & Hb) | (i & Hi & Hb)].
    + exists i. split; [lia | exact Hb].
    + exists (s + 1 + i). split; [lia |].
      replace (j + (s + 1 + i)) with (j + (s + 1) + i) by lia. exact Hb.
  - intros (i & Hi & Hb). destruct (Z_le_gt_dec i s) as [Hle | Hgt].
    + left. exists i. split; [lia | exact Hb].
    + right. exists (i - (s + 1)). split; [lia |].
      replace (j + (s + 1) + (i - (s + 1))) with (j + i) by lia. exact Hb.
Qed.

Lemma smear_smeared (m : Z) : smeared 63 (smear 64 1 m) m.
Proof.
  pose proof (smeared_start m) as H0.
  apply (smeared_double 0) in H0; [| lia].
  apply (smeared_double 1) in H0; [| lia].
  apply (smeared_double 3) in H0; [| lia].
  apply (smeared_double 7) in H0; [| lia].
  apply (smeared_double 15) in H0; [| lia].
  apply (smeared_double 31) in H0; [| lia].
  rewrite (smear_step 63 1) by lia. change (wrap (1 * 2)) with 2.
  rewrite (smear_step 62 2) by lia. change (wrap (2 * 2)) with 4.
  rewrite (smear_step 61 4) by lia. change (wrap (4 * 2)) with 8.
  rewrite (smear_step 60 8) by lia. change (wrap (8 * 2)) with 16.
  rewrite (smear_step 59 16) by lia. change (wrap (16 * 2)) with 32.
  rewrite (smear_step 58 32) by lia. change (wrap (32 * 2)) with 64.
  rewrite (smear_stop 57 64) by lia.
  exact H0.
Qed.

(** With every bit below the leading one set, the value is [2 ^ (log2 m + 1) - 1]. *)
Lemma smear_ones (m : Z) :
  0 < m < size_modulus -> smear 64 1 m = Z.ones (Z.log2 m + 1).
Proof.
  intros [Hpos Hlt].
  pose proof (smear_smeared m) as Hs.
  assert (Hlog : 0 <= Z.log2 m < 64).
  { split; [apply Z.log2_nonneg |]. apply Z.log2_lt_pow2; [lia | exact Hlt]. }
  apply Z.bits_inj'. intros j Hj.
  destruct (Z_le_gt_dec j (Z.log2 m)) as [Hle | Hgt].
  - rewrite Z.ones_spec_low by lia.
    apply (Hs j Hj). exists (Z.log2 m - j). split; [lia |].
    replace (j + (Z.log2 m - j)) with (Z.log2 m) by lia.
    apply Z.bit_log2. exact Hpos.
  - rewrite Z.ones_spec_high by lia.
    destruct (Z.testbit (smear 64 1 m) j) eqn:Hb; [| reflexivity].
    apply (Hs j Hj) in Hb. destruct Hb as (i & Hi & Hb).
    rewrite Z.bits_above_log2 in Hb by lia. discriminate Hb.
Qed.

(** [nextPowerOf2] returns the least power of two that is at least [n],
    for every request up to [2 ^ 63]. *)
Lemma nextPowerOf2_correct (n : Z) :
  0 <= n <= 2 ^ 63 ->
  exists k, 0 <= k < 64 /\ nextPowerOf2 n = 2 ^ k /\ n <= 2 ^ k /\
            (1 < n -> 2 ^ k < 2 * n).
Proof.
  intros Hn. unfold nextPowerOf2.
  destruct (Z.eqb_spec n 0) as [-> | Hn0].
  { exists 0. repeat split; lia. }
  destruct (Z.eq_dec n 1) as [-> | Hn1].
  { exists 0. repeat split; try lia. }
  assert (Hm : 0 < n - 1 < 2 ^ 63) by lia.
  assert (H63 : 2 ^ 63 < size_modulus) by reflexivity.
  rewrite (wrap_small (n - 1)) by lia.
  rewrite smear_ones by lia.
  assert (Hlog : 0 <= Z.log2 (n - 1) < 63).
  { split; [apply Z.log2_nonneg |]. apply Z.log2_lt_pow2; lia. }
  destruct (Z.log2_spec (n - 1)) as [Hlo Hhi]; [lia |].
  rewrite Z.ones_equiv.
  replace (Z.pred (2 ^ (Z.log2 (n - 1) + 1)) + 1) with (2 ^ (Z.log2 (n - 1) + 1)) by lia.
  assert (Hpow : 2 ^ (Z.log2 (n - 1) + 1) <= 2 ^ 63).
  { apply Z.pow_le_mono_r; lia. }
  exists (Z.log2 (n - 1) + 1).
  rewrite wrap_small by lia.
  replace (Z.succ (Z.log2 (n - 1))) with (Z.log2 (n - 1) + 1) in Hhi by lia.
  rewrite Z.pow_add_r in * by lia.
  repeat split; lia.
Qed.

End NextPowerOf2.

Section RingBufferProofs.
Local Open Scope Z_scope.

Lemma pow2_bounds (k : Z) : 0 <= k < 64 -> 1 <= 2 ^ k <= 2 ^ 63.
Proof.
  intros Hk. split.
  - change 1 with (2 ^ 0). apply Z.pow_le_mono_r; lia.
  - apply Z.pow_le_mono_r; lia.
Qed.

Lemma RingBuffer_new_well_formed (n : Z) :
  0 <= n <= 2 ^ 63 -> well_formed (RingBuffer_new n).
Proof.
  intros Hn. destruct (nextPowerOf2_correct n Hn) as (k & Hk & Hc & _).
  exists k. unfold RingBuffer_new. simpl. rewrite Hc.
  pose proof (pow2_bounds k Hk) as Hb.
  assert (H63 : 2 ^ 63 < size_modulus) by reflexivity.
  repeat split; try lia; try reflexivity.
  - rewrite wrap_small by lia. rewrite Z.ones_equiv. lia.
  - apply length_replicate.
Qed.

Lemma RingBuffer_new_capacity (n : Z) :
  0 <= n <= 2 ^ 63 ->
  n <= capacity (RingBuffer_new n) /\
  exists k, 0 <= k < 64 /\ capacity (RingBuffer_new n) = 2 ^ k.
Proof.
  intros Hn. destruct (nextPowerOf2_correct n Hn) as (k & Hk & Hc & Hle & _).
  unfold capacity, RingBuffer_new. simpl. rewrite Hc. split; [exact Hle |].
  exists k. split; [exact Hk | reflexivity].
Qed.

Lemma used_between_ordered (cap w r : Z) :
  0 <= r <= w -> w < size_modulus -> used_between cap w r = w - r.
Proof.
  intros Hr Hw. unfold used_between.
  destruct (Z.leb_spec r w) as [_ | Hlt]; [| lia].
  apply wrap_small. lia.
Qed.

Lemma write_loop_length (mask w : Z) (src : list Q) (count : Z) (buf : list Q) :
  length (write_loop mask w src count buf) = length buf.
Proof.
  unfold write_loop. generalize (seqZ 0 count). intros l. revert buf.
  induction l as [| i l IH]; intros buf; simpl; [reflexivity |].
  rewrite IH. apply length_insert.
Qed.

(** Every call keeps the object well formed, so every object reached from
    the constructor is. *)
Lemma step_well_formed (rb : RingBuffer) (c : call) :
  well_formed rb -> well_formed (fst (step rb c)).
Proof.
  intros Hwf. pose proof Hwf as (k & Hk & Hc & Hm & Hl & Hr & Hw).
  destruct c as [src count | count]; simpl.
  - unfold write. destruct (_ =? 0); simpl; [exact Hwf |].
    exists k. simpl. rewrite write_loop_length.
    split; [exact Hk |]. split; [exact Hc |]. split; [exact Hm |].
    split; [exact Hl |]. split; [exact Hr | apply wrap_range].
  - unfold read. destruct (_ =? 0); simpl; [exact Hwf |].
    exists k. simpl.
    split; [exact Hk |]. split; [exact Hc |]. split; [exact Hm |].
    split; [exact Hl |]. split; [apply wrap_range | exact Hw].
Qed.

Lemma reached_well_formed (n : Z) (cs : list call) :
  0 <= n <= 2 ^ 63 ->
  well_formed (fold_left (fun rb c => fst (step rb c)) cs (RingBuffer_new n)).
Proof.
  intros Hn. generalize (RingBuffer_new_well_formed n Hn).
  generalize (RingBuffer_new n). induction cs as [| c cs IH]; intros rb Hwf.
  - exact Hwf.
  - simpl. apply IH. apply step_well_formed. exact Hwf.
Qed.

(** The effect of [write] on an object whose indices are in order. *)
Lemma write_ordered (rb : RingBuffer) (src : list Q) (count : Z) :
  well_formed rb -> indices_ok rb -> is_size_t count ->
  let free := capacity_ rb - (write_idx_ rb - read_idx_ rb) - 1 in
  let n := Z.min count free in
  write rb src count =
    (if n =? 0 then rb
     else {| capacity_ := capacity_ rb;
             mask_ := mask_ rb;
             buffer_ := write_loop (mask_ rb) (write_idx_ rb) src n (buffer_ rb);
             read_idx_ := read_idx_ rb;
             write_idx_ := wrap (write_idx_ rb + n) |},
     n)
  /\ 0 <= n <= free /\ available_write rb = free.
Proof.
  intros (k & Hk & Hc & Hm & Hl & Hr & Hw) Hok Hcount free n.
  unfold indices_ok in Hok. unfold is_size_t in *.
  pose proof (pow2_bounds k Hk) as Hb.
  assert (H63 : 2 ^ 63 < size_modulus) by reflexivity.
  assert (Hused : used_between (capacity_ rb) (write_idx_ rb) (read_idx_ rb)
                  = write_idx_ rb - read_idx_ rb).
  { apply used_between_ordered; lia. }
  assert (Hfree : wrap (wrap (capacity_ rb - (write_idx_ rb - read_idx_ rb)) - 1) = free).
  { rewrite (wrap_small (capacity_ rb - _)) by lia. apply wrap_small. subst free. lia. }
  unfold write, available_write, available_read. rewrite Hused, Hfree.
  assert (Hn : (if free <? count then free else count) = n).
  { subst n. destruct (Z.ltb_spec free count); lia. }
  rewrite Hn. split; [| subst n free; lia].
  destruct (Z.eqb_spec n 0) as [Hz | Hnz]; [rewrite Hz |]; reflexivity.
Qed.

(** The effect of [read] on an object whose indices are in order. *)
Lemma read_ordered (rb : RingBuffer) (count : Z) :
  well_formed rb -> indices_ok rb -> is_size_t count ->
  let used := write_idx_ rb - read_idx_ rb in
  let n := Z.min count used in
  read rb count =
    (if n =? 0 then rb
     else {| capacity_ := capacity_ rb;
             mask_ := mask_ rb;
             buffer_ := buffer_ rb;
             read_idx_ := read_idx_ rb + n;
             write_idx_ := write_idx_ rb |},
     if n =? 0 then [] else read_loop (mask_ rb) (read_idx_ rb) n (buffer_ rb),
     n)
  /\ 0 <= n <= used /\ available_read rb = used.
Proof.
  intros (k & Hk & Hc & Hm & Hl & Hr & Hw) Hok Hcount used n.
  unfold indices_ok in Hok. unfold is_size_t in *.
  assert (Hused : used_between (capacity_ rb) (write_idx_ rb) (read_idx_ rb) = used).
  { apply used_between_ordered; lia. }
  unfold read, available_read. rewrite Hused.
  assert (Hn : (if used <? count then used else count) = n).
  { subst n. destruct (Z.ltb_spec used count); lia. }
  rewrite Hn. split; [| subst n used; lia].
  destruct (Z.eqb_spec n 0) as [Hz | Hnz]; [rewrite Hz; reflexivity |].
  rewrite wrap_small by (subst n used; lia). reflexivity.
Qed.

(** One call keeps the object well formed; it keeps the indices in order
    as long as the write index does not pass [2 ^ 64]. *)
Lemma step_preserves (rb : RingBuffer) (c : call) :
  well_formed rb -> indices_ok rb -> call_fits c ->
  let rb' := fst (step rb c) in
  let n := snd (step rb c) in
  well_formed rb' /\
  capacity_ rb' = capacity_ rb /\
  0 <= n /\
  (if is_write c
   then n <= capacity_ rb - available_read rb - 1 /\
        read_idx_ rb' = read_idx_ rb /\
        write_idx_ rb' = wrap (write_idx_ rb + n)
   else write_idx_ rb' = write_idx_ rb) /\
  ((if is_write c then write_idx_ rb + n < size_modulus else True) ->
   indices_ok rb' /\ available_read rb' <= capacity_ rb' - 1 /\
   (if is_write c then write_idx_ rb' = write_idx_ rb + n else True)).
Proof.
  intros Hwf Hok Hfit.
  pose proof Hwf as (k & Hk & Hc & Hm & Hl & Hr & Hw).
  pose proof (pow2_bounds k Hk) as Hb.
  unfold indices_ok in Hok. unfold is_size_t in *.
  assert (Hused : available_read rb = write_idx_ rb - read_idx_ rb).
  { apply used_between_ordered; lia. }
  destruct c as [src count | count]; simpl in Hfit; simpl is_write; cbv iota.
  - destruct (write_ordered rb src count Hwf Hok Hfit) as (Heq & Hn & _).
    simpl step. rewrite Heq. simpl fst. simpl snd.
    set (n := Z.min count (capacity_ rb - (write_idx_ rb - read_idx_ rb) - 1)) in *.
    destruct (Z.eqb_spec n 0) as [Hz | Hnz].
    + rewrite Hz, Z.add_0_r, (wrap_small (write_idx_ rb)) by lia.
      split; [exact Hwf |]. split; [reflexivity |]. split; [lia |].
      split; [lia |]. intros _. unfold indices_ok. lia.
    + simpl.
      split.
      { exists k. simpl. rewrite write_loop_length.
        repeat split; try assumption; try lia; apply wrap_range. }
      split; [reflexivity |]. split; [lia |]. split; [lia |].
      intros Hnw. unfold indices_ok, available_read. simpl.
      rewrite wrap_small by lia. rewrite used_between_ordered by lia. lia.
  - destruct (read_ordered rb count Hwf Hok Hfit) as (Heq & Hn & _).
    simpl step. rewrite Heq. simpl fst. simpl snd.
    set (n := Z.min count (write_idx_ rb - read_idx_ rb)) in *.
    destruct (Z.eqb_spec n 0) as [Hz | Hnz].
    + split; [exact Hwf |]. split; [reflexivity |]. split; [lia |].
      split; [reflexivity |]. intros _. unfold indices_ok. lia.
    + simpl.
      split.
      { exists k. simpl. repeat split; try assumption; lia. }
      split; [reflexivity |]. split; [lia |]. split; [reflexivity |].
      intros _. unfold indices_ok, available_read. simpl.
      rewrite used_between_ordered by lia. lia.
Qed.

Lemma write_ret_nonneg (rb : RingBuffer) (src : list Q) (count : Z) :
  is_size_t count -> 0 <= snd (write rb src count).
Proof.
  intros [Hc _]. unfold write.
  set (free := wrap (wrap (capacity_ rb - _) - 1)).
  pose proof (wrap_range (wrap (capacity_ rb -
    used_between (capacity_ rb) (write_idx_ rb) (read_idx_ rb)) - 1)) as Hfree.
  fold free in Hfree.
  destruct (Z.ltb_spec free count).
  - destruct (Z.eqb_spec free 0); simpl; lia.
  - destruct (Z.eqb_spec count 0); simpl; lia.
Qed.

Lemma samples_written_nonneg (cs : list call) (rb : RingBuffer) :
  Forall call_fits cs -> 0 <= samples_written (run rb cs).
Proof.
  intros Hfit. revert rb. induction Hfit as [| c cs Hc _ IH]; intros rb.
  - simpl. lia.
  - simpl. destruct (step rb c) as [rb' n] eqn:Hstep. simpl.
    specialize (IH rb'). destruct c as [src count | count]; [| exact IH].
    simpl in Hstep, Hc. pose proof (write_ret_nonneg rb src count Hc) as Hn.
    rewrite Hstep in Hn. simpl in Hn. lia.
Qed.

Lemma run_event_ok (cs : list call) (rb : RingBuffer) :
  well_formed rb -> indices_ok rb -> Forall call_fits cs ->
  write_idx_ rb + samples_written (run rb cs) < size_modulus ->
  Forall event_ok (run rb cs).
Proof.
  intros Hwf Hok Hfit. revert rb Hwf Hok.
  induction Hfit as [| c cs Hc Hcs IH]; intros rb Hwf Hok Hsum.
  - constructor.
  - pose proof (step_preserves rb c Hwf Hok Hc) as Hstep.
    simpl in Hsum |- *. destruct (step rb c) as [rb' n] eqn:Heq.
    simpl in Hstep, Hsum.
    destruct Hstep as (Hwf' & Hcap & Hn & Hidx & Hkeep).
    pose proof (samples_written_nonneg cs rb' Hcs) as Hrest.
    destruct c as [src count | count]; simpl in Hidx, Hkeep, Hsum.
    + destruct Hidx as (Hfree & Hr & Hw).
      destruct Hkeep as (Hok' & Hav & Hw'); [lia |].
      constructor.
      * unfold event_ok, capacity. simpl. repeat split; try apply Hok'; try lia.
      * apply IH; [exact Hwf' | exact Hok' | lia].
    + destruct Hkeep as (Hok' & Hav & _); [exact I |].
      constructor.
      * unfold event_ok, capacity. simpl. repeat split; try apply Hok'; try lia.
      * apply IH; [exact Hwf' | exact Hok' | lia].
Qed.

(** C4, amended.  Starting from a new buffer, after every call of any
    sequence of [write] and [read] calls the indices satisfy
    [read <= write <= read + capacity - 1], [available_read()] is at most
    [capacity - 1], and every [write] returned at most the free space
    [capacity - used - 1] it computed.  Stated for requested capacities up
    to [2 ^ 63], counts that fit [size_t], and histories in which fewer
    than [2 ^ 64] samples have been written (the write index has not
    wrapped). *)
Theorem ring_indices_invariant (n : Z) (cs : list call) :
  0 <= n <= 2 ^ 63 ->
  Forall call_fits cs ->
  samples_written (run (RingBuffer_new n) cs) < size_modulus ->
  Forall
    (fun e =>
       read_idx_ (ev_post e) <= write_idx_ (ev_post e)
         <= read_idx_ (ev_post e) + capacity (ev_post e) - 1 /\
       available_read (ev_post e) <= capacity (ev_post e) - 1 /\
       (is_write (ev_call e) = true ->
        ev_ret e <= capacity (ev_pre e) - available_read (ev_pre e) - 1))
    (run (RingBuffer_new n) cs).
Proof.
  intros Hn Hfit Hsum.
  apply (run_event_ok cs (RingBuffer_new n)).
  - apply RingBuffer_new_well_formed. exact Hn.
  - destruct (RingBuffer_new_capacity n Hn) as (_ & k & Hk & Hc).
    pose proof (pow2_bounds k Hk) as Hb. unfold capacity in Hc.
    unfold indices_ok. rewrite Hc. simpl. lia.
  - exact Hfit.
  - simpl. exact Hsum.
Qed.

(** ** Contents: what is written is what is read *)

Lemma wrap_once (x : Z) :
  size_modulus <= x < 2 * size_modulus -> wrap x = x - size_modulus.
Proof.
  intros Hx. unfold wrap. symmetry.
  apply (Z.mod_unique x size_modulus 1); [left |]; lia.
Qed.

Lemma wrap_below (x : Z) :
  - size_modulus <= x < 0 -> wrap x = x + size_modulus.
Proof.
  intros Hx. unfold wrap. symmetry.
  apply (Z.mod_unique x size_modulus (-1)); [left |]; lia.
Qed.

(** The slot [(x & mask_)] of a wrapped index is [x mod capacity_]. *)
Lemma masked_slot (k x : Z) :
  0 <= k < 64 -> Z.land (wrap x) (Z.ones k) = x mod 2 ^ k.
Proof.
  intros Hk. rewrite Z.land_ones by lia. unfold wrap, size_modulus.
  apply Z.mod_mod_divide.
  exists (2 ^ (64 - k)). rewrite <- Z.pow_add_r by lia. f_equal. lia.
Qed.

Lemma slots_differ (k a b : Z) :
  0 <= k -> 0 < b - a < 2 ^ k ->
  Z.to_nat (a mod 2 ^ k) <> Z.to_nat (b mod 2 ^ k).
Proof.
  intros Hk Hd Heq.
  assert (Hp : 0 < 2 ^ k) by (apply Z.pow_pos_nonneg; lia).
  pose proof (Z.mod_pos_bound a (2 ^ k) Hp) as Ha.
  pose proof (Z.mod_pos_bound b (2 ^ k) Hp) as Hb.
  assert (Hz : a mod 2 ^ k = b mod 2 ^ k) by lia.
  assert (H0 : (b - a) mod 2 ^ k = 0).
  { rewrite Zminus_mod, Hz, Z.sub_diag. apply Z.mod_0_l. lia. }
  rewrite Z.mod_small in H0 by lia. lia.
Qed.

Lemma slot_in_range (k x : Z) (buf : list Q) :
  0 <= k -> length buf = Z.to_nat (2 ^ k) ->
  (Z.to_nat (x mod 2 ^ k) < length buf)%nat.
Proof.
  intros Hk Hl.
  assert (Hp : 0 < 2 ^ k) by (apply Z.pow_pos_nonneg; lia).
  pose proof (Z.mod_pos_bound x (2 ^ k) Hp). lia.
Qed.

(** After the copy loop of [write], slot [w + i] holds [src[i]] for every
    [i < count], and the other slots are as before. *)
Lemma write_loop_cells (k w : Z) (src buf : list Q) (n : nat) :
  0 <= k < 64 -> length buf = Z.to_nat (2 ^ k) -> Z.of_nat n <= 2 ^ k ->
  let buf' := write_loop (Z.ones k) w src (Z.of_nat n) buf in
  (forall i, (i < n)%nat ->
     buf' !! Z.to_nat ((w + Z.of_nat i) mod 2 ^ k) = Some (nth i src 0%Q)) /\
  (forall p, (forall i, (i < n)%nat -> Z.to_nat ((w + Z.of_nat i) mod 2 ^ k) <> p) ->
     buf' !! p = buf !! p).
Proof.
  intros Hk Hl. induction n as [| n IH]; intros Hn buf'.
  - split; [intros i Hi; lia | intros p _; reflexivity].
  - destruct IH as [IHhit IHmiss]; [lia |].
    subst buf'. unfold write_loop in *.
    rewrite seqZ_S, fold_left_app. simpl.
    rewrite Z.add_0_l, Nat2Z.id, masked_slot by lia.
    set (prev := fold_left _ (seqZ 0 (Z.of_nat n)) buf) in *.
    assert (Hlen : length prev = Z.to_nat (2 ^ k)).
    { subst prev. rewrite <- Hl. apply (write_loop_length (Z.ones k) w src). }
    split.
    + intros i Hi. destruct (Nat.eq_dec i n) as [-> | Hne].
      * apply list_lookup_insert_eq. apply slot_in_range; [lia | exact Hlen].
      * rewrite list_lookup_insert_ne.
        -- apply IHhit. lia.
        -- apply not_eq_sym, slots_differ; lia.
    + intros p Hp. rewrite list_lookup_insert_ne.
      * apply IHmiss. intros i Hi. apply Hp. lia.
      * apply Hp. lia.
Qed.

Lemma empty_filled (rb : RingBuffer) :
  well_formed rb -> read_idx_ rb = write_idx_ rb -> filled rb (read_idx_ rb) [].
Proof.
  intros Hwf He. pose proof Hwf as (k & Hk & Hc & Hm & Hl & Hr & Hw).
  pose proof (pow2_bounds k Hk).
  split; [exact Hwf |]. split; [reflexivity |]. simpl.
  rewrite Z.add_0_r, wrap_small by exact Hr.
  split; [symmetry; exact He |]. split; [lia |]. intros j Hj. lia.
Qed.

(** What [write] and [read] compute as [used] and [free] on a filled
    object, whether or not the write index has wrapped. *)
Lemma filled_used (rb : RingBuffer) (r0 : Z) (xs : list Q) :
  filled rb r0 xs ->
  let c := Z.of_nat (length xs) in
  let used := used_between (capacity_ rb) (write_idx_ rb) (read_idx_ rb) in
  c <= used < size_modulus /\
  forall l, 0 <= l -> c + l <= capacity_ rb - 1 ->
    l <= wrap (wrap (capacity_ rb - used) - 1).
Proof.
  intros ((k & Hk & Hc & Hm & Hl & Hr & Hw) & Hr0 & Hw0 & Hlen & _) c used.
  pose proof (pow2_bounds k Hk) as Hb.
  assert (H63 : 2 ^ 63 < size_modulus) by reflexivity.
  assert (H64 : size_modulus = 2 * 2 ^ 63) by reflexivity.
  unfold is_size_t in *. subst used. fold c in Hw0, Hlen. rewrite Hw0, Hr0.
  unfold used_between.
  destruct (Z_lt_ge_dec (r0 + c) size_modulus) as [Hlt | Hge].
  - rewrite (wrap_small (r0 + c)) by lia.
    destruct (Z.leb_spec r0 (r0 + c)) as [_ | Hbad]; [| lia].
    replace (r0 + c - r0) with c by lia.
    rewrite (wrap_small c) by lia.
    split; [lia |]. intros l Hl0 Hfit.
    rewrite (wrap_small (capacity_ rb - c)) by lia.
    rewrite wrap_small by lia. lia.
  - rewrite (wrap_once (r0 + c)) by lia.
    destruct (Z.leb_spec r0 (r0 + c - size_modulus)) as [Hbad | _]; [lia |].
    replace (r0 - (r0 + c - size_modulus)) with (size_modulus - c) by lia.
    rewrite (wrap_small (size_modulus - c)) by lia.
    rewrite (wrap_below (capacity_ rb - (size_modulus - c))) by lia.
    split; [lia |]. intros l Hl0 Hfit.
    replace (capacity_ rb - (capacity_ rb - (size_modulus - c) + size_modulus))
      with (- c) by lia.
    rewrite (wrap_below (- c)) by lia.
    rewrite wrap_small by lia. lia.
Qed.

Lemma write_filled (rb : RingBuffer) (r0 : Z) (xs ys : list Q) :
  filled rb r0 xs ->
  Z.of_nat (length xs) + Z.of_nat (length ys) <= capacity_ rb - 1 ->
  snd (write rb ys (Z.of_nat (length ys))) = Z.of_nat (length ys) /\
  filled (fst (write rb ys (Z.of_nat (length ys)))) r0 (xs ++ ys).
Proof.
  intros Hf Hfit.
  destruct (filled_used rb r0 xs Hf) as [_ Hfree].
  specialize (Hfree (Z.of_nat (length ys)) ltac:(lia) Hfit).
  destruct Hf as (Hwf & Hr0 & Hw0 & Hlen & Hcells).
  pose proof Hwf as (k & Hk & Hc & Hm & Hl & Hr & Hw).
  unfold write.
  set (free := wrap (wrap (capacity_ rb - _) - 1)) in *.
  destruct (Z.ltb_spec free (Z.of_nat (length ys))) as [Hbad | _]; [lia |].
  destruct (Z.eqb_spec (Z.of_nat (length ys)) 0) as [Hz | Hnz].
  - simpl. split; [lia |].
    assert (Hys : ys = []) by (destruct ys; [reflexivity | simpl in Hz; lia]).
    subst ys. rewrite app_nil_r.
    split; [exact Hwf |]. split; [exact Hr0 |]. split; [exact Hw0 |].
    split; [exact Hlen | exact Hcells].
  - simpl. split; [reflexivity |].
    pose proof (pow2_bounds k Hk) as Hb.
    destruct (write_loop_cells k (write_idx_ rb) ys (buffer_ rb) (length ys))
      as [Hhit Hmiss]; [exact Hk | exact Hl | lia |].
    rewrite <- Hm in Hhit, Hmiss.
    assert (Hslot : forall i,
      (write_idx_ rb + Z.of_nat i) mod 2 ^ k
      = (r0 + Z.of_nat (length xs + i)) mod 2 ^ k).
    { intros i. rewrite Hw0.
      rewrite <- (masked_slot k (wrap (r0 + Z.of_nat (length xs)) + Z.of_nat i)) by exact Hk.
      rewrite wrap_add_l, masked_slot by exact Hk. f_equal. lia. }
    split.
    { exists k. simpl. rewrite write_loop_length.
      pose proof (wrap_range (write_idx_ rb + Z.of_nat (length ys))).
      unfold is_size_t in *. repeat split; try assumption; lia. }
    simpl. rewrite length_app, Hc.
    split; [exact Hr0 |].
    split; [rewrite Hw0, wrap_add_l; f_equal; lia |].
    split; [lia |].
    intros j Hj. destruct (Nat.lt_ge_cases j (length xs)) as [Hold | Hnew].
    + rewrite lookup_app_l by exact Hold. rewrite <- Hcells, Hc by exact Hold.
      apply Hmiss. intros i Hi. rewrite Hslot.
      apply not_eq_sym, slots_differ; lia.
    + rewrite lookup_app_r by exact Hnew.
      replace j with (length xs + (j - length xs))%nat at 1 by lia.
      rewrite <- Hslot, Hhit by lia.
      rewrite nth_lookup. destruct (ys !! (j - length xs)%nat) eqn:Hy; [reflexivity |].
      apply lookup_ge_None in Hy. lia.
Qed.

Lemma read_filled (rb : RingBuffer) (r0 : Z) (xs : list Q) :
  filled rb r0 xs ->
  snd (fst (read rb (Z.of_nat (length xs)))) = xs /\
  snd (read rb (Z.of_nat (length xs))) = Z.of_nat (length xs).
Proof.
  intros Hf.
  destruct (filled_used rb r0 xs Hf) as [Hused _].
  destruct Hf as (Hwf & Hr0 & Hw0 & Hlen & Hcells).
  pose proof Hwf as (k & Hk & Hc & Hm & Hl & Hr & Hw).
  unfold read.
  set (used := used_between _ _ _) in *.
  destruct (Z.ltb_spec used (Z.of_nat (length xs))) as [Hbad | _]; [lia |].
  destruct (Z.eqb_spec (Z.of_nat (length xs)) 0) as [Hz | Hnz].
  - simpl. split; [| lia]. destruct xs; [reflexivity | simpl in Hz; lia].
  - simpl. split; [| reflexivity].
    unfold read_loop. apply list_eq. intros i.
    rewrite list_lookup_fmap.
    destruct (Nat.lt_ge_cases i (length xs)) as [Hi | Hi].
    + rewrite lookup_seqZ_lt by lia. simpl.
      rewrite Z.add_0_l, Hm, masked_slot, Hr0, <- Hc by exact Hk.
      rewrite nth_lookup, Hcells by exact Hi.
      destruct (xs !! i) eqn:Hx; [reflexivity |].
      apply lookup_ge_None in Hx. lia.
    + rewrite lookup_seqZ_ge by lia. simpl. symmetry.
      apply lookup_ge_None. exact Hi.
Qed.

Lemma write_all_filled (chunks : list (list Q)) (rb : RingBuffer) (r0 : Z)
    (xs : list Q) :
  filled rb r0 xs ->
  Z.of_nat (length xs) + Z.of_nat (length (concat chunks)) <= capacity_ rb - 1 ->
  snd (write_all rb chunks) = map (fun ys => Z.of_nat (length ys)) chunks /\
  filled (fst (write_all rb chunks)) r0 (xs ++ concat chunks).
Proof.
  revert rb xs. induction chunks as [| ys rest IH]; intros rb xs Hf Hfit.
  - simpl. rewrite app_nil_r. split; [reflexivity | exact Hf].
  - simpl in Hfit |- *. rewrite length_app in Hfit.
    destruct (write_filled rb r0 xs ys Hf) as [Hn Hf']; [lia |].
    destruct (write rb ys (Z.of_nat (length ys))) as [rb' n] eqn:Hw.
    simpl in Hn, Hf'.
    assert (Hcap : capacity_ rb' = capacity_ rb).
    { pose proof Hw as Hw'. unfold write in Hw'.
      destruct (_ =? 0) in Hw'; inversion Hw'; reflexivity. }
    destruct (IH rb' (xs ++ ys) Hf') as [Hns Hf''].
    { rewrite length_app, Hcap. lia. }
    destruct (write_all rb' rest) as [rb'' ns]. simpl in Hns, Hf'' |- *.
    rewrite Hn, Hns, app_assoc. split; [reflexivity | exact Hf''].
Qed.

(** C5. On every ring buffer that is empty, writing [N <= capacity - 1]
    samples in one or more [write] calls and then reading [N] samples
    returns the same samples in the same order; every [write] returns the
    length of its chunk and [read] returns [N]. *)
Theorem write_then_read_roundtrip (rb : RingBuffer) (chunks : list (list Q)) :
  well_formed rb ->
  read_idx_ rb = write_idx_ rb ->
  Z.of_nat (length (concat chunks)) <= capacity rb - 1 ->
  let N := Z.of_nat (length (concat chunks)) in
  let written := write_all rb chunks in
  snd written = map (fun ys => Z.of_nat (length ys)) chunks /\
  snd (fst (read (fst written) N)) = concat chunks /\
  snd (read (fst written) N) = N.
Proof.
  intros Hwf He Hfit N written.
  destruct (write_all_filled chunks rb (read_idx_ rb) [] (empty_filled rb Hwf He))
    as [Hns Hf].
  { simpl. exact Hfit. }
  simpl in Hf. split; [exact Hns |].
  apply (read_filled _ _ _ Hf).
Qed.

(** ** The scenario of the specification: capacity 100, 130 samples *)

(** The copy loop reads [src[0 .. count)] only. *)
Lemma write_loop_src (mask w : Z) (src src' : list Q) (count : Z) (buf : list Q) :
  (forall i, 0 <= i < count -> nth (Z.to_nat i) src 0%Q = nth (Z.to_nat i) src' 0%Q) ->
  write_loop mask w src count buf = write_loop mask w src' count buf.
Proof.
  intros Hsame. unfold write_loop.
  assert (Hall : Forall (fun i => 0 <= i < count) (seqZ 0 count)).
  { apply Forall_seqZ. intros i Hi. lia. }
  revert buf. induction Hall as [| i l Hi _ IH]; intros buf; simpl.
  - reflexivity.
  - rewrite (Hsame i Hi). apply IH.
Qed.

Lemma write_loop_take (mask w : Z) (src : list Q) (n : nat) (buf : list Q) :
  write_loop mask w (take n src) (Z.of_nat n) buf
  = write_loop mask w src (Z.of_nat n) buf.
Proof.
  apply write_loop_src. intros i Hi.
  rewrite !nth_lookup, lookup_take_lt by lia. reflexivity.
Qed.

Lemma read_empty (rb : RingBuffer) (count : Z) :
  is_size_t (read_idx_ rb) -> read_idx_ rb = write_idx_ rb -> 0 <= count ->
  read rb count = (rb, [], 0).
Proof.
  intros Hr He Hcount. unfold read, used_between, is_size_t in *. rewrite <- He.
  destruct (Z.leb_spec (read_idx_ rb) (read_idx_ rb)) as [_ | Hbad]; [| lia].
  rewrite Z.sub_diag. change (wrap 0) with 0.
  destruct (Z.ltb_spec 0 count); [reflexivity |].
  destruct (Z.eqb_spec count 0); [reflexivity | lia].
Qed.

Lemma write_capacity (rb : RingBuffer) (src : list Q) (count : Z) :
  capacity_ (fst (write rb src count)) = capacity_ rb.
Proof. unfold write. destruct (_ =? 0); reflexivity. Qed.

(** A [write] that is cut down to the free space [n] is the [write] of the
    first [n] samples. *)
Lemma write_clamped (rb : RingBuffer) (src : list Q) (count : Z) (n : nat) :
  well_formed rb -> indices_ok rb -> is_size_t count ->
  Z.of_nat n = Z.min count (capacity_ rb - (write_idx_ rb - read_idx_ rb) - 1) ->
  write rb src count = write rb (take n src) (Z.of_nat n).
Proof.
  intros Hwf Hok Hcount Hn.
  destruct (write_ordered rb src count Hwf Hok Hcount) as (Heq & _).
  destruct (write_ordered rb (take n src) (Z.of_nat n) Hwf Hok) as (Heq' & _).
  { unfold is_size_t in *. lia. }
  rewrite Heq, Heq', <- Hn.
  replace (Z.min (Z.of_nat n) (capacity_ rb - (write_idx_ rb - read_idx_ rb) - 1))
    with (Z.of_nat n) by lia.
  rewrite write_loop_take. reflexivity.
Qed.

(** C9. A buffer requested with capacity 100 has capacity 128 (and a
    request of 0 gives capacity 1).  Writing 130 samples into it in one
    call returns 127 and stores the first 127 samples; reading 127 samples
    then returns those 127 samples in order, and any further read returns
    0. *)
Theorem capacity_100_scenario (src : list Q) :
  length src = 130%nat ->
  let rb0 := RingBuffer_new 100 in
  let rb1 := fst (write rb0 src 130) in
  let rb2 := fst (fst (read rb1 127)) in
  capacity rb0 = 128 /\
  capacity (RingBuffer_new 0) = 1 /\
  snd (write rb0 src 130) = 127 /\
  take 127 (buffer_ rb1) = take 127 src /\
  snd (fst (read rb1 127)) = take 127 src /\
  snd (read rb1 127) = 127 /\
  forall count, 0 <= count -> read rb2 count = (rb2, [], 0).
Proof.
  intros Hlen rb0 rb1 rb2.
  assert (Hwf : well_formed rb0).
  { apply RingBuffer_new_well_formed. lia. }
  assert (Hcap : capacity_ rb0 = 128) by (vm_compute; reflexivity).
  assert (Hr0 : read_idx_ rb0 = 0) by reflexivity.
  assert (Hw0 : write_idx_ rb0 = 0) by reflexivity.
  assert (Hok : indices_ok rb0).
  { unfold indices_ok. rewrite Hcap, Hr0, Hw0. lia. }
  assert (Hlen' : length (take 127 src) = 127%nat).
  { rewrite length_take. lia. }
  assert (Hcut : write rb0 src 130 = write rb0 (take 127 src) (Z.of_nat 127)).
  { apply write_clamped; [exact Hwf | exact Hok | | ].
    - unfold is_size_t. split; [lia | reflexivity].
    - rewrite Hcap, Hr0, Hw0. reflexivity. }
  destruct (write_filled rb0 0 [] (take 127 src)) as [Hn Hf].
  { pose proof (empty_filled rb0 Hwf) as He. rewrite Hr0, Hw0 in He.
    apply He. reflexivity. }
  { rewrite Hlen', Hcap. simpl length. lia. }
  rewrite Hlen', <- Hcut in Hn, Hf. fold rb1 in Hf. rewrite app_nil_l in Hf.
  clearbody rb0.
  destruct (read_filled rb1 0 (take 127 src) Hf) as [Hdata Hcount].
  rewrite Hlen' in Hdata, Hcount. change (Z.of_nat 127) with 127 in *.
  assert (Hcap1 : capacity_ rb1 = 128).
  { subst rb1. rewrite write_capacity. exact Hcap. }
  pose proof Hf as (Hwf1 & Hr1 & Hw1 & _ & Hcells).
  rewrite Hlen' in Hw1, Hcells. change (wrap (0 + Z.of_nat 127)) with 127 in Hw1.
  split; [exact Hcap |]. split; [vm_compute; reflexivity |]. split; [exact Hn |].
  split.
  { apply list_eq. intros i.
    destruct (Nat.lt_ge_cases i 127) as [Hi | Hi].
    - rewrite !lookup_take_lt by exact Hi.
      rewrite <- (lookup_take_lt src 127 i) by exact Hi.
      rewrite <- Hcells by exact Hi. rewrite Hcap1.
      rewrite Z.add_0_l, Z.mod_small by lia. rewrite Nat2Z.id. reflexivity.
    - rewrite !lookup_take_ge by exact Hi. reflexivity. }
  split; [exact Hdata |]. split; [exact Hcount |].
  assert (Hok1 : indices_ok rb1).
  { unfold indices_ok. rewrite Hcap1, Hr1, Hw1. lia. }
  destruct (read_ordered rb1 127 Hwf1 Hok1) as (Heq & _).
  { unfold is_size_t. split; [lia | reflexivity]. }
  rewrite Hr1, Hw1 in Heq. change (Z.min 127 (127 - 0)) with 127 in Heq.
  change (127 =? 0) with false in Heq. cbv iota in Heq.
  intros count Hcount0. apply read_empty.
  - subst rb2. rewrite Heq. unfold is_size_t. simpl. split; [lia | reflexivity].
  - subst rb2. rewrite Heq. reflexivity.
  - exact Hcount0.
Qed.

(** ** The buffer as a first-in first-out queue *)

Lemma holds_facts (rb : RingBuffer) (q : list Q) :
  holds rb q ->
  well_formed rb /\ indices_ok rb /\
  write_idx_ rb = read_idx_ rb + Z.of_nat (length q) /\
  available_read rb = Z.of_nat (length q) /\
  available_write rb = capacity_ rb - 1 - Z.of_nat (length q).
Proof.
  intros [(Hwf & _ & Hw & Hlen & _) Hnw].
  pose proof Hwf as (k & Hk & Hc & Hm & Hl & Hr & _).
  unfold is_size_t in Hr.
  rewrite wrap_small in Hw by lia.
  assert (Hok : indices_ok rb) by (unfold indices_ok; lia).
  assert (Hav : available_read rb = Z.of_nat (length q)).
  { unfold available_read. rewrite used_between_ordered by lia. lia. }
  split; [exact Hwf |]. split; [exact Hok |]. split; [exact Hw |].
  split; [exact Hav |].
  destruct (write_ordered rb [] 0 Hwf Hok) as (_ & _ & Hfree).
  { unfold is_size_t. split; [lia | reflexivity]. }
  rewrite Hfree. lia.
Qed.

Lemma new_holds (n : Z) : 0 <= n <= 2 ^ 63 -> holds (RingBuffer_new n) [].
Proof.
  intros Hn. split.
  - apply (empty_filled (RingBuffer_new n)); [| reflexivity].
    apply RingBuffer_new_well_formed. exact Hn.
  - simpl. reflexivity.
Qed.

(** [write] on an object that holds [q]. *)
Lemma write_holds (rb : RingBuffer) (q src : list Q) (count : Z) :
  holds rb q ->
  0 <= count <= Z.of_nat (length src) -> count < size_modulus ->
  let n := Z.min count (capacity_ rb - 1 - Z.of_nat (length q)) in
  write_idx_ rb + n < size_modulus ->
  snd (write rb src count) = n /\
  holds (fst (write rb src count)) (q ++ take (Z.to_nat n) src) /\
  capacity_ (fst (write rb src count)) = capacity_ rb.
Proof.
  intros Hh Hcount Hfit n Hnw.
  destruct (holds_facts rb q Hh) as (Hwf & Hok & Hw & _ & _).
  destruct Hh as [Hf Hbound].
  pose proof Hf as (_ & _ & _ & Hlen & _).
  assert (Hn0 : 0 <= n) by (subst n; lia).
  assert (Hcut : write rb src count
                 = write rb (take (Z.to_nat n) src) (Z.of_nat (Z.to_nat n))).
  { apply write_clamped; [exact Hwf | exact Hok | | ].
    - unfold is_size_t. lia.
    - rewrite Z2Nat.id by exact Hn0. subst n. rewrite Hw. f_equal. lia. }
  assert (Htake : length (take (Z.to_nat n) src) = Z.to_nat n).
  { rewrite length_take. subst n. lia. }
  destruct (write_filled rb (read_idx_ rb) q (take (Z.to_nat n) src) Hf)
    as [Hret Hf'].
  { rewrite Htake, Z2Nat.id by exact Hn0. subst n. lia. }
  rewrite Htake in Hret, Hf'. rewrite <- Hcut in Hret, Hf'.
  rewrite Z2Nat.id in Hret by exact Hn0.
  split; [exact Hret |]. split; [| apply write_capacity].
  pose proof Hf' as (_ & Hr' & _).
  split; [rewrite Hr'; exact Hf' |].
  rewrite Hr', length_app, Htake. lia.
Qed.

(** [read] on an object that holds [q]. *)
Lemma read_holds (rb : RingBuffer) (q : list Q) (count : Z) :
  holds rb q -> is_size_t count ->
  let n := Z.min count (Z.of_nat (length q)) in
  snd (read rb count) = n /\
  snd (fst (read rb count)) = take (Z.to_nat n) q /\
  holds (fst (fst (read rb count))) (drop (Z.to_nat n) q) /\
  capacity_ (fst (fst (read rb count))) = capacity_ rb.
Proof.
  intros Hh Hcount n.
  destruct (holds_facts rb q Hh) as (Hwf & Hok & Hw & _ & _).
  destruct Hh as [Hf Hbound].
  pose proof Hf as (_ & _ & Hwq & Hlen & Hcells).
  pose proof Hwf as (k & Hk & Hc & Hm & Hl & Hr & Hwr).
  unfold is_size_t in Hr, Hwr.
  destruct (read_ordered rb count Hwf Hok Hcount) as (Heq & _).
  replace (write_idx_ rb - read_idx_ rb) with (Z.of_nat (length q)) in Heq by lia.
  fold n in Heq. rewrite Heq.
  assert (Hn0 : 0 <= n <= Z.of_nat (length q)) by (subst n; unfold is_size_t in Hcount; lia).
  destruct (Z.eqb_spec n 0) as [Hz | Hnz].
  - rewrite Hz. simpl. split; [reflexivity |]. split; [reflexivity |].
    split; [split; [exact Hf | exact Hbound] | reflexivity].
  - cbn [fst snd]. split; [reflexivity |].
    split.
    { unfold read_loop. apply list_eq. intros i. rewrite list_lookup_fmap.
      destruct (Nat.lt_ge_cases i (Z.to_nat n)) as [Hi | Hi].
      - rewrite lookup_seqZ_lt by lia. simpl.
        rewrite Z.add_0_l, Hm, masked_slot, <- Hc by exact Hk.
        rewrite nth_lookup, Hcells by lia.
        rewrite lookup_take_lt by exact Hi.
        destruct (q !! i) eqn:Hq; [reflexivity |].
        apply lookup_ge_None in Hq. lia.
      - rewrite lookup_seqZ_ge by lia. rewrite lookup_take_ge by exact Hi.
        reflexivity. }
    split; [| reflexivity].
    assert (Hdrop : Z.of_nat (length (drop (Z.to_nat n) q))
                    = Z.of_nat (length q) - n).
    { rewrite length_drop. lia. }
    split; [| cbn [read_idx_]; lia].
    split.
    { exists k. cbn [capacity_ mask_ buffer_ read_idx_ write_idx_].
      unfold is_size_t. repeat split; try assumption; lia. }
    cbn [capacity_ mask_ buffer_ read_idx_ write_idx_].
    split; [reflexivity |].
    split; [rewrite Hwq, Hdrop; f_equal; lia |].
    split; [lia |].
    intros j Hj. rewrite length_drop in Hj. rewrite lookup_drop.
    rewrite <- (Hcells (Z.to_nat n + j)%nat) by lia.
    replace (read_idx_ rb + Z.of_nat (Z.to_nat n + j))
      with (read_idx_ rb + n + Z.of_nat j) by lia.
    reflexivity.
Qed.

Lemma observe_step (rb : RingBuffer) (c : call) :
  fst (observe rb c) = fst (step rb c) /\
  fst (fst (fst (snd (observe rb c)))) = snd (step rb c).
Proof.
  destruct c as [src count | count]; simpl.
  - destruct (write rb src count) as [rb' n]. split; reflexivity.
  - destruct (read rb count) as [[rb' out] n]. split; reflexivity.
Qed.

(** One call on an object that holds [q] is the call on the queue [q]. *)
Lemma observe_queue (rb : RingBuffer) (q : list Q) (c : call) :
  holds rb q -> call_sound c ->
  (is_write c = true -> write_idx_ rb + snd (step rb c) < size_modulus) ->
  snd (observe rb c) = snd (queue_call (capacity_ rb) q c) /\
  holds (fst (observe rb c)) (fst (queue_call (capacity_ rb) q c)) /\
  capacity_ (fst (observe rb c)) = capacity_ rb.
Proof.
  intros Hh Hsound Hnw.
  destruct (holds_facts rb q Hh) as (Hwf & Hok & Hw & _ & _).
  destruct c as [src count | count]; simpl in Hsound, Hnw |- *.
  - destruct Hsound as [Hcount Hfit].
    set (n := Z.min count (capacity_ rb - 1 - Z.of_nat (length q))).
    assert (Hret : snd (write rb src count) = n).
    { destruct (write_ordered rb src count Hwf Hok) as (Heq & _).
      - unfold is_size_t. lia.
      - rewrite Heq. simpl. subst n. rewrite Hw. f_equal. lia. }
    rewrite Hret in Hnw. specialize (Hnw eq_refl).
    destruct (write_holds rb q src count Hh Hcount Hfit Hnw) as (_ & Hh' & Hcap).
    fold n in Hh'.
    destruct (write rb src count) as [rb' m]. simpl in Hret, Hh', Hcap |- *.
    destruct (holds_facts rb' _ Hh') as (_ & _ & _ & Har & Haw).
    rewrite Har, Haw, Hcap, Hret.
    split; [reflexivity | split; [exact Hh' | reflexivity]].
  - destruct (read_holds rb q count Hh Hsound) as (Hret & Hdata & Hh' & Hcap).
    destruct (read rb count) as [[rb' out] m]. simpl in Hret, Hdata, Hh', Hcap |- *.
    destruct (holds_facts rb' _ Hh') as (_ & _ & _ & Har & Haw).
    rewrite Har, Haw, Hcap, Hret, Hdata.
    split; [reflexivity | split; [exact Hh' | reflexivity]].
Qed.

Lemma call_sound_fits (c : call) : call_sound c -> call_fits c.
Proof.
  destruct c as [src count | count]; simpl; unfold is_size_t; [lia | tauto].
Qed.

Lemma samples_written_cons (rb rb' : RingBuffer) (c : call) (n : Z)
    (h : list event) :
  samples_written (mkEvent rb c n rb' :: h)
  = (if is_write c then n else 0) + samples_written h.
Proof. destruct c; reflexivity. Qed.

Lemma observations_queue (cs : list call) (rb : RingBuffer) (q : list Q) :
  holds rb q -> Forall call_sound cs ->
  write_idx_ rb + samples_written (run rb cs) < size_modulus ->
  observations rb cs = queue_observations (capacity_ rb) q cs.
Proof.
  intros Hh Hsound. revert rb q Hh.
  induction Hsound as [| c cs Hc Hcs IH]; intros rb q Hh Hsum; [reflexivity |].
  destruct (observe_step rb c) as [Hfst Hsnd].
  destruct (holds_facts rb q Hh) as (Hwf & Hok & Hwq & _ & _).
  pose proof (call_sound_fits c Hc) as Hfits.
  destruct (step_preserves rb c Hwf Hok Hfits) as (_ & _ & Hn & Hidx & _).
  pose proof (samples_written_nonneg cs (fst (step rb c))
                (Forall_impl _ _ _ Hcs call_sound_fits)) as Hrest.
  pose proof (observe_queue rb q c Hh Hc) as Hobs.
  cbn [run] in Hsum.
  destruct (step rb c) as [rb1 n1] eqn:Hstep.
  rewrite samples_written_cons in Hsum. cbn [fst snd] in *.
  pose proof Hwf as (k & _ & _ & _ & _ & _ & Hwr). unfold is_size_t in Hwr.
  assert (Hnw : is_write c = true -> write_idx_ rb + n1 < size_modulus).
  { intros Hw. rewrite Hw in Hsum. lia. }
  destruct (Hobs Hnw) as (Ho & Hh' & Hcap).
  cbn [observations queue_observations].
  destruct (observe rb c) as [rb' o].
  destruct (queue_call (capacity_ rb) q c) as [q' o'].
  cbn [fst snd] in *. subst o' rb'. f_equal.
  rewrite <- Hcap. apply IH; [exact Hh' |].
  destruct c as [src count | count]; cbn [is_write] in *.
  - destruct Hidx as (_ & _ & Hw'). specialize (Hnw eq_refl).
    rewrite Hw', wrap_small; lia.
  - rewrite Hidx. lia.
Qed.

(** X1. Up to [2 ^ 63], [nextPowerOf2] returns the least power of two that
    is at least the request (1 for a request of 0), and that is the
    capacity of the buffer constructed. *)
Theorem constructor_capacity (n : Z) :
  0 <= n <= 2 ^ 63 ->
  capacity (RingBuffer_new n) = nextPowerOf2 n /\
  exists k, 0 <= k < 64 /\ nextPowerOf2 n = 2 ^ k /\ n <= 2 ^ k /\
            (1 < n -> 2 ^ k < 2 * n).
Proof.
  intros Hn. split; [reflexivity | apply nextPowerOf2_correct; exact Hn].
Qed.

(** X2. Above [2 ^ 63] the increment of [nextPowerOf2] overflows: the
    result is 0, and the buffer constructed has capacity 0 and an
    all-ones mask. *)
Theorem nextPowerOf2_overflow (n : Z) :
  2 ^ 63 < n < size_modulus ->
  nextPowerOf2 n = 0 /\
  capacity (RingBuffer_new n) = 0 /\
  mask_ (RingBuffer_new n) = size_modulus - 1.
Proof.
  intros Hn.
  assert (H63 : 2 ^ 63 < size_modulus) by reflexivity.
  assert (Hz : nextPowerOf2 n = 0).
  { unfold nextPowerOf2. destruct (Z.eqb_spec n 0) as [Hn0 | _]; [lia |].
    rewrite (wrap_small (n - 1)) by lia.
    rewrite smear_ones by lia.
    assert (Hlog : Z.log2 (n - 1) = 63).
    { apply Z.log2_unique; [lia |]. change (2 ^ Z.succ 63) with size_modulus. lia. }
    rewrite Hlog. reflexivity. }
  split; [exact Hz |].
  unfold capacity, RingBuffer_new. simpl. rewrite Hz. split; reflexivity.
Qed.

(** X3. For every sequence of calls on a new buffer (capacity request up
    to [2 ^ 63], [src] holding at least [count] samples, fewer than
    [2 ^ 64] samples written), what the caller observes, call by call, is
    what a first-in first-out queue of at most [capacity - 1] samples
    gives: the counts returned, the samples read, and [available_read()]
    and [available_write()] after each call. *)
Theorem ring_is_fifo_queue (n : Z) (cs : list call) :
  0 <= n <= 2 ^ 63 ->
  Forall call_sound cs ->
  samples_written (run (RingBuffer_new n) cs) < size_modulus ->
  observations (RingBuffer_new n) cs
  = queue_observations (capacity (RingBuffer_new n)) [] cs.
Proof.
  intros Hn Hsound Hsum.
  apply observations_queue; [apply new_holds; exact Hn | exact Hsound |].
  simpl. exact Hsum.
Qed.

(** X4. A [read] of any count from an empty buffer and a [write] of any
    count to a full one return 0 and leave the object as it is: underrun
    and overflow drop nothing that is stored. *)
Theorem empty_and_full_are_noops (rb : RingBuffer) (src : list Q) (count : Z) :
  well_formed rb -> indices_ok rb -> is_size_t count ->
  (available_read rb = 0 -> read rb count = (rb, [], 0)) /\
  (available_read rb = capacity rb - 1 -> write rb src count = (rb, 0)).
Proof.
  intros Hwf Hok Hcount.
  pose proof Hwf as (k & Hk & Hc & Hm & Hl & Hr & Hw).
  unfold indices_ok in Hok. unfold is_size_t in *.
  assert (Hused : available_read rb = write_idx_ rb - read_idx_ rb).
  { apply used_between_ordered; lia. }
  split.
  - intros Hempty. apply read_empty; unfold is_size_t; lia.
  - intros Hfull. unfold capacity in Hfull.
    destruct (write_ordered rb src count Hwf) as (Heq & _).
    { unfold indices_ok. lia. }
    { unfold is_size_t. lia. }
    rewrite Heq.
    replace (Z.min count (capacity_ rb - (write_idx_ rb - read_idx_ rb) - 1))
      with 0 by lia.
    reflexivity.
Qed.

(** X5. Once the write index has wrapped around [2 ^ 64] and the read
    index has not ([write_idx_ < read_idx_], with [c] samples pending),
    [available_read()] reports [capacity + c] instead of [c] and
    [available_write()] reports [2 ^ 64 - c - 1]. *)
Theorem wrapped_index_misreports (rb : RingBuffer) :
  well_formed rb ->
  write_idx_ rb < read_idx_ rb ->
  let c := write_idx_ rb + size_modulus - read_idx_ rb in
  c <= capacity rb - 1 ->
  available_read rb = capacity rb + c /\
  available_write rb = size_modulus - c - 1.
Proof.
  intros (k & Hk & Hc & Hm & Hl & Hr & Hw) Hlt c Hc1.
  pose proof (pow2_bounds k Hk) as Hb.
  assert (H64 : size_modulus = 2 * 2 ^ 63) by reflexivity.
  unfold is_size_t, capacity in *.
  assert (Hused : available_read rb = capacity_ rb + c).
  { unfold available_read, used_between.
    destruct (Z.leb_spec (read_idx_ rb) (write_idx_ rb)) as [Hbad | _]; [lia |].
    rewrite (wrap_small (read_idx_ rb - write_idx_ rb)) by lia.
    rewrite wrap_below by (subst c; lia). subst c. lia. }
  split; [exact Hused |].
  unfold available_write. rewrite Hused.
  replace (capacity_ rb - (capacity_ rb + c)) with (- c) by lia.
  rewrite (wrap_below (- c)) by (subst c; lia).
  rewrite wrap_small by (subst c; lia). lia.
Qed.

Lemma queue_conservation (cap : Z) (cs : list call) (q : list Q) :
  Forall call_sound cs -> Z.of_nat (length q) <= cap - 1 ->
  exists pending,
    q ++ accepted cs (queue_observations cap q cs)
    = delivered (queue_observations cap q cs) ++ pending /\
    Z.of_nat (length pending) <= cap - 1.
Proof.
  intros Hsound. revert q.
  induction Hsound as [| c cs Hc _ IH]; intros q Hq.
  - exists q. simpl. rewrite app_nil_r. split; [reflexivity | exact Hq].
  - destruct c as [src count | count]; simpl in Hc.
    + cbn [queue_observations queue_call accepted].
      set (n := Z.min count (cap - 1 - Z.of_nat (length q))).
      destruct (IH (q ++ take (Z.to_nat n) src)) as (pending & Heq & Hlen).
      { rewrite length_app, length_take. subst n. lia. }
      exists pending. split; [| exact Hlen].
      unfold delivered in *. cbn [map concat fst snd]. rewrite app_nil_l.
      rewrite <- Heq, app_assoc. reflexivity.
    + cbn [queue_observations queue_call accepted].
      set (n := Z.min count (Z.of_nat (length q))).
      destruct (IH (drop (Z.to_nat n) q)) as (pending & Heq & Hlen).
      { rewrite length_drop. lia. }
      exists pending. split; [| exact Hlen].
      unfold delivered in *. cbn [map concat fst snd].
      rewrite <- app_assoc, <- Heq, app_assoc, take_drop. reflexivity.
Qed.

(** X12. Over any sequence of calls on a new buffer (capacity request up
    to [2 ^ 63], [src] holding at least [count] samples, fewer than
    [2 ^ 64] samples written), the samples delivered by the [read] calls,
    in order, followed by at most [capacity - 1] samples still pending, are
    exactly the samples the [write] calls accepted, in order: nothing is
    lost, duplicated or reordered once accepted. *)
Theorem accepted_samples_are_delivered_in_order (n : Z) (cs : list call) :
  0 <= n <= 2 ^ 63 ->
  Forall call_sound cs ->
  samples_written (run (RingBuffer_new n) cs) < size_modulus ->
  let obs := observations (RingBuffer_new n) cs in
  exists pending,
    accepted cs obs = delivered obs ++ pending /\
    Z.of_nat (length pending) <= capacity (RingBuffer_new n) - 1.
Proof.
  intros Hn Hsound Hsum obs. subst obs.
  rewrite (observations_queue cs (RingBuffer_new n) [] (new_holds n Hn) Hsound)
    by (simpl; exact Hsum).
  destruct (RingBuffer_new_capacity n Hn) as (_ & k & Hk & Hc).
  pose proof (pow2_bounds k Hk) as Hb. unfold capacity in *.
  destruct (queue_conservation (capacity_ (RingBuffer_new n)) cs [] Hsound)
    as (pending & Heq & Hlen).
  { rewrite Hc. cbn [length]. lia. }
  exists pending. split; [exact Heq | exact Hlen].
Qed.

End RingBufferProofs.

(** * Properties of binary32 arithmetic *)

Section Binary32.
Local Open Scope Z_scope.

Lemma compare_cont_spec (m n : positive) :
  CompareSpec (m = n) (Zpos m < Zpos n) (Zpos n < Zpos m)
    (Pos.compare_cont Eq m n).
Proof.
  change (Pos.compare_cont Eq m n) with (Pos.compare m n).
  destruct (Pos.compare_spec m n); constructor; lia.
Qed.

Lemma flt_key (a b : float) :
  is_nan a = false -> is_nan b = false ->
  (flt a b = true <-> lex_lt (key a) (key b)).
Proof.
  intros Ha Hb. unfold flt, SFltb, lex_lt.
  destruct a as [[] | [] | | [] m e]; try discriminate;
    destruct b as [[] | [] | | [] n f]; try discriminate;
    cbn [SFcompare key fst snd];
    try (split; [discriminate | lia]);
    try (split; [lia | intros _; reflexivity]).
  all: destruct (Z.compare_spec e f); destruct (compare_cont_spec m n);
    cbn [CompOpp]; split; try discriminate; try lia; try reflexivity;
    intros _; reflexivity.
Qed.

Lemma fle_key (a b : float) :
  is_nan a = false -> is_nan b = false ->
  (fle a b = true <-> ~ lex_lt (key b) (key a)).
Proof.
  intros Ha Hb. unfold fle, SFleb, lex_lt.
  destruct a as [[] | [] | | [] m e]; try discriminate;
    destruct b as [[] | [] | | [] n f]; try discriminate;
    cbn [SFcompare key fst snd];
    try (split; [discriminate | lia]);
    try (split; [lia | intros _; reflexivity]).
  all: destruct (Z.compare_spec e f); destruct (compare_cont_spec m n);
    cbn [CompOpp]; split; try discriminate; try lia; try reflexivity;
    intros _; reflexivity.
Qed.

Lemma flt_nan_l (a b : float) : is_nan a = true -> flt a b = false.
Proof. destruct a; try discriminate. reflexivity. Qed.
Lemma flt_nan_r (a b : float) : is_nan b = true -> flt a b = false.
Proof. destruct b; try discriminate. destruct a; reflexivity. Qed.
Lemma fle_nan_l (a b : float) : is_nan a = true -> fle a b = false.
Proof. destruct a; try discriminate. reflexivity. Qed.
Lemma fle_nan_r (a b : float) : is_nan b = true -> fle a b = false.
Proof. destruct b; try discriminate. destruct a; reflexivity. Qed.

(** ** Digits *)

Lemma digits2_pos_bounds (p : positive) :
  2 ^ (Zpos (digits2_pos p) - 1) <= Zpos p < 2 ^ Zpos (digits2_pos p).
Proof.
  induction p as [p IH | p IH |]; cbn [digits2_pos].
  - rewrite Pos2Z.inj_succ.
    replace (Z.succ (Zpos (digits2_pos p)) - 1) with (Z.succ (Zpos (digits2_pos p) - 1)) by lia.
    rewrite !Z.pow_succ_r by lia. lia.
  - rewrite Pos2Z.inj_succ.
    replace (Z.succ (Zpos (digits2_pos p)) - 1) with (Z.succ (Zpos (digits2_pos p) - 1)) by lia.
    rewrite !Z.pow_succ_r by lia. lia.
  - simpl. lia.
Qed.

Lemma digits2_pos_unique (p : positive) (n : Z) :
  2 ^ (n - 1) <= Zpos p < 2 ^ n -> Zpos (digits2_pos p) = n.
Proof.
  intros [Hlo Hhi]. pose proof (digits2_pos_bounds p) as [Dlo Dhi].
  set (d := Zpos (digits2_pos p)) in *.
  assert (Hd : 0 < d) by (subst d; lia).
  destruct (Z.lt_trichotomy d n) as [Hlt | [Heq | Hgt]]; [| exact Heq |].
  - assert (2 ^ d <= 2 ^ (n - 1)) by (apply Z.pow_le_mono_r; lia). lia.
  - assert (Hn : 0 <= n).
    { destruct (Z.le_gt_cases 0 n) as [H0 | H0]; [exact H0 |].
      rewrite (Z.pow_neg_r 2 n) in Hhi by lia. lia. }
    assert (2 ^ n <= 2 ^ (d - 1)) by (apply Z.pow_le_mono_r; lia). lia.
Qed.

(** ** Shifting right *)

Lemma shr_1_spec (st : shr_record) :
  0 <= shr_m st ->
  shr_m (shr_1 st) = shr_m st / 2 /\
  (shr_r (shr_1 st) || shr_s (shr_1 st) = true ->
   Z.odd (shr_m st) = true \/ shr_r st || shr_s st = true).
Proof.
  destruct st as [m r s]. cbn [shr_m shr_r shr_s]. intros Hm.
  destruct m as [| p | p]; [| | lia].
  - cbn. split; [reflexivity |]. intros H. right. exact H.
  - rewrite <- Z.div2_div.
    destruct p as [p | p |]; cbn [shr_1 shr_m shr_r shr_s Z.div2 Z.odd];
      (split; [reflexivity |]); intros H.
    + left. reflexivity.
    + right. exact H.
    + left. reflexivity.
Qed.

Lemma shifted_step (X : Prop) (M k : Z) (st : shr_record) :
  0 <= M -> 0 <= k -> shifted X M k st -> shifted X M (k + 1) (shr_1 st).
Proof.
  intros HM Hk [Hm Hflag].
  assert (Hpos : 0 < 2 ^ k) by (apply Z.pow_pos_nonneg; lia).
  assert (Hnn : 0 <= shr_m st) by (rewrite Hm; apply Z.div_pos; lia).
  destruct (shr_1_spec st Hnn) as [Hm' Hflag'].
  split.
  - rewrite Hm', Hm, Z.pow_add_r, Z.pow_1_r by lia.
    rewrite Z.div_div by lia. reflexivity.
  - intros Hf. destruct (Hflag' Hf) as [Hodd | Hold].
    + left. intros [q Hq]. rewrite Hm in Hodd.
      rewrite Z.pow_add_r, Z.pow_1_r in Hq by lia.
      replace M with (q * 2 * 2 ^ k) in Hodd by lia.
      rewrite Z.div_mul in Hodd by lia.
      rewrite Z.odd_mul in Hodd. cbn in Hodd.
      rewrite andb_false_r in Hodd. discriminate.
    + destruct (Hflag Hold) as [Hnd | HX]; [left | right; exact HX].
      intros [q Hq]. apply Hnd. exists (q * 2).
      rewrite Z.pow_add_r, Z.pow_1_r in Hq by lia. lia.
Qed.

Lemma shifted_iter (X : Prop) (n : positive) (M k : Z) (st : shr_record) :
  0 <= M -> 0 <= k -> shifted X M k st ->
  shifted X M (k + Zpos n) (iter_pos shr_1 n st).
Proof.
  intros HM. revert k st.
  induction n as [n IH | n IH |]; intros k st Hk Hst; cbn [iter_pos].
  - replace (k + Zpos n~1) with (k + 1 + Zpos n + Zpos n) by lia.
    apply IH; [lia |]. apply IH; [lia |]. apply shifted_step; assumption.
  - replace (k + Zpos n~0) with (k + Zpos n + Zpos n) by lia.
    apply IH; [lia |]. apply IH; assumption.
  - apply shifted_step; assumption.
Qed.

(** ** Rounding *)

Lemma fexp_eq (k : Z) : fexp prec emax k = Z.max (k - 24) (-149).
Proof. reflexivity. Qed.

Lemma Zdigits2_nonneg (m : Z) : 0 <= Zdigits2 m.
Proof. destruct m; simpl; lia. Qed.

Lemma Zdigits2_bounds (m : Z) :
  0 < m -> 2 ^ (Zdigits2 m - 1) <= m < 2 ^ Zdigits2 m.
Proof.
  destruct m as [| p | p]; try lia. intros _. apply digits2_pos_bounds.
Qed.

Lemma shr_record_of_loc_m (m : Z) (l : location) :
  shr_m (shr_record_of_loc m l) = m.
Proof. destruct l as [| []]; reflexivity. Qed.

Lemma shr_fexp_spec (m e : Z) (l : location) :
  0 <= m ->
  let k := fexp prec emax (Zdigits2 m + e) - e in
  (k <= 0 -> shr_fexp prec emax m e l = (shr_record_of_loc m l, e)) /\
  (0 < k -> exists st,
     shr_fexp prec emax m e l = (st, e + k) /\
     shr_m st = m / 2 ^ k /\
     (l = loc_Exact -> shr_r st || shr_s st = true -> ~ (2 ^ k | m))).
Proof.
  intros Hm k. unfold shr_fexp. fold k. unfold shr. split.
  - intros Hk. destruct k; try lia; reflexivity.
  - intros Hk. destruct k as [| p | p] eqn:Ek; try lia.
    exists (iter_pos shr_1 p (shr_record_of_loc m l)).
    split; [reflexivity |].
    assert (Hstart : shifted (l <> loc_Exact) m 0 (shr_record_of_loc m l)).
    { split.
      - rewrite shr_record_of_loc_m, Z.pow_0_r, Z.div_1_r. reflexivity.
      - intros Hf. right. intros ->. discriminate. }
    destruct (shifted_iter _ p m 0 _ Hm (Z.le_refl 0) Hstart) as [Hsm Hflag].
    rewrite Z.add_0_l in Hsm, Hflag. split; [exact Hsm |].
    intros Hl Hf. destruct (Hflag Hf) as [Hnd | Hne]; [exact Hnd |].
    contradiction.
Qed.

Lemma round_nearest_even_choice (st : shr_record) :
  let m' := round_nearest_even (shr_m st) (loc_of_shr_record st) in
  m' = shr_m st \/ (m' = shr_m st + 1 /\ shr_r st || shr_s st = true).
Proof.
  destruct st as [m [] []]; cbn; try (left; reflexivity).
  - right. split; reflexivity.
  - destruct (Z.even m); [left | right; split]; reflexivity.
Qed.

Lemma binary_round_aux_signed (sx : bool) (mx ex : Z) (lx : location) :
  0 <= mx -> signed sx (binary_round_aux prec emax sx mx ex lx).
Proof.
  intros Hm. unfold binary_round_aux.
  assert (H1 : exists st1 e1, shr_fexp prec emax mx ex lx = (st1, e1) /\ 0 <= shr_m st1).
  { destruct (shr_fexp_spec mx ex lx Hm) as [Hle Hgt].
    destruct (Z.le_gt_cases (fexp prec emax (Zdigits2 mx + ex) - ex) 0) as [Hk | Hk].
    - eexists _, _. split; [apply Hle; exact Hk |].
      rewrite shr_record_of_loc_m. exact Hm.
    - destruct (Hgt Hk) as (st & Heq & Hsm & _).
      eexists _, _. split; [exact Heq |]. rewrite Hsm.
      apply Z.div_pos; [exact Hm | apply Z.pow_pos_nonneg; lia]. }
  destruct H1 as (st1 & e1 & -> & Hst1).
  set (m2 := round_nearest_even (shr_m st1) (loc_of_shr_record st1)).
  assert (Hm2 : 0 <= m2).
  { destruct (round_nearest_even_choice st1) as [H | [H _]]; fold m2 in H; lia. }
  assert (H2 : exists st2 e2, shr_fexp prec emax m2 e1 loc_Exact = (st2, e2) /\ 0 <= shr_m st2).
  { destruct (shr_fexp_spec m2 e1 loc_Exact Hm2) as [Hle Hgt].
    destruct (Z.le_gt_cases (fexp prec emax (Zdigits2 m2 + e1) - e1) 0) as [Hk | Hk].
    - eexists _, _. split; [apply Hle; exact Hk |]. exact Hm2.
    - destruct (Hgt Hk) as (st & Heq & Hsm & _).
      eexists _, _. split; [exact Heq |]. rewrite Hsm.
      apply Z.div_pos; [exact Hm2 | apply Z.pow_pos_nonneg; lia]. }
  destruct H2 as (st2 & e2 & -> & Hst2).
  destruct (shr_m st2) as [| p | p]; [reflexivity | | lia].
  destruct (e2 <=? emax - prec); reflexivity.
Qed.

Lemma pow2_lt_digits (a b : Z) : 0 <= b -> 2 ^ a < 2 ^ b -> a < b.
Proof.
  intros Hb H. destruct (Z.lt_ge_cases a b) as [Hlt | Hge]; [exact Hlt |].
  assert (2 ^ b <= 2 ^ a) by (apply Z.pow_le_mono_r; lia). lia.
Qed.

Lemma Zdigits2_le (m n : Z) : 0 <= m -> 0 <= n -> m < 2 ^ n -> Zdigits2 m <= n.
Proof.
  intros Hm Hn Hlt. destruct (Z.eq_dec m 0) as [-> | Hnz]; [simpl; lia |].
  destruct (Zdigits2_bounds m ltac:(lia)) as [Hlo _].
  assert (H : 2 ^ (Zdigits2 m - 1) < 2 ^ n) by lia.
  apply pow2_lt_digits in H; lia.
Qed.

Lemma binary_round_aux_spec (sx : bool) (mx ex : Z) (lx : location) :
  0 <= mx ->
  let e1 := fexp prec emax (Zdigits2 mx + ex) in
  ex <= e1 ->
  exists m2,
    binary_round_aux prec emax sx mx ex lx = rounded sx m2 e1 /\
    0 <= m2 <= 2 ^ 24 /\
    (2 ^ 23 <= m2 \/ e1 = -149) /\
    (m2 = mx / 2 ^ (e1 - ex) \/
     (m2 = mx / 2 ^ (e1 - ex) + 1 /\
      (lx = loc_Exact -> ~ (2 ^ (e1 - ex) | mx)))).
Proof.
  intros Hm e1 Hex.
  assert (He1 : e1 = Z.max (Zdigits2 mx + ex - 24) (-149)) by reflexivity.
  pose proof (Zdigits2_nonneg mx) as Hd.
  set (k := e1 - ex). assert (Hk : 0 <= k) by (subst k; lia).
  assert (Hpow : 0 < 2 ^ k) by (apply Z.pow_pos_nonneg; lia).
  (* the first shift *)
  assert (H1 : exists st1,
    shr_fexp prec emax mx ex lx = (st1, e1) /\
    shr_m st1 = mx / 2 ^ k /\
    (lx = loc_Exact -> shr_r st1 || shr_s st1 = true -> ~ (2 ^ k | mx))).
  { destruct (shr_fexp_spec mx ex lx Hm) as [Hle Hgt].
    fold e1 in Hle, Hgt. fold k in Hle, Hgt.
    destruct (Z.eq_dec k 0) as [Hk0 | Hk0].
    - exists (shr_record_of_loc mx lx). rewrite (Hle ltac:(lia)).
      split; [f_equal; subst k; lia |].
      rewrite shr_record_of_loc_m, Hk0, Z.pow_0_r, Z.div_1_r.
      split; [reflexivity |]. intros ->. discriminate.
    - destruct (Hgt ltac:(lia)) as (st & Heq & Hsm & Hfl).
      exists st. rewrite Heq. split; [f_equal; subst k; lia |].
      split; assumption. }
  destruct H1 as (st1 & Hs1 & Hm1 & Hf1).
  (* the size of the shifted mantissa *)
  assert (Hsmall : mx / 2 ^ k < 2 ^ 24).
  { apply Z.div_lt_upper_bound; [exact Hpow |].
    destruct (Z.eq_dec mx 0) as [-> | Hnz]; [lia |].
    destruct (Zdigits2_bounds mx ltac:(lia)) as [_ Hhi].
    rewrite <- Z.pow_add_r by lia.
    eapply Z.lt_le_trans; [exact Hhi |].
    apply Z.pow_le_mono_r; lia. }
  assert (Hbig : 2 ^ 23 <= mx / 2 ^ k \/ e1 = -149).
  { destruct (Z.eq_dec e1 (-149)) as [He | He]; [right; exact He | left].
    assert (Hk' : k = Zdigits2 mx - 24) by lia.
    assert (Hnz : 0 < mx).
    { destruct (Z.eq_dec mx 0) as [-> | Hnz]; [simpl in *; lia | lia]. }
    destruct (Zdigits2_bounds mx Hnz) as [Hlo _].
    apply Z.div_le_lower_bound; [exact Hpow |].
    rewrite <- Z.pow_add_r by lia.
    replace (k + 23) with (Zdigits2 mx - 1) by lia. exact Hlo. }
  assert (Hnn1 : 0 <= mx / 2 ^ k) by (apply Z.div_pos; lia).
  (* the rounded mantissa *)
  set (m2 := round_nearest_even (shr_m st1) (loc_of_shr_record st1)).
  assert (Hm2 : m2 = mx / 2 ^ k \/
                (m2 = mx / 2 ^ k + 1 /\ (lx = loc_Exact -> ~ (2 ^ k | mx)))).
  { destruct (round_nearest_even_choice st1) as [H | [H Hfl]]; fold m2 in H;
      rewrite Hm1 in H; [left; exact H | right].
    split; [exact H |]. intros Hl. apply Hf1; assumption. }
  exists m2.
  assert (Hr2 : 0 <= m2 <= 2 ^ 24) by (destruct Hm2 as [-> | [-> _]]; lia).
  split; [| split; [exact Hr2 | split; [| exact Hm2]]].
  2:{ destruct Hbig as [Hb | Hb]; [left | right; exact Hb].
      destruct Hm2 as [-> | [-> _]]; lia. }
  (* the second shift *)
  unfold binary_round_aux. rewrite Hs1. fold m2. unfold rounded.
  destruct (Z.eqb_spec m2 0) as [Hz | Hnz].
  - rewrite Hz.
    destruct (shr_fexp_spec 0 e1 loc_Exact (Z.le_refl 0)) as [Hle _].
    rewrite Hle by (rewrite fexp_eq; simpl Zdigits2; lia). reflexivity.
  - destruct (Z.ltb_spec m2 (2 ^ 24)) as [Hlt | Hge].
    + destruct (shr_fexp_spec m2 e1 loc_Exact ltac:(lia)) as [Hle _].
      rewrite Hle.
      2:{ rewrite fexp_eq.
          pose proof (Zdigits2_le m2 24 ltac:(lia) ltac:(lia) Hlt). lia. }
      cbn [shr_record_of_loc shr_m].
      destruct m2 as [| p | p]; try lia. reflexivity.
    + assert (Heq : m2 = 2 ^ 24) by lia.
      destruct (shr_fexp_spec m2 e1 loc_Exact ltac:(lia)) as [_ Hgt].
      assert (Hk2 : fexp prec emax (Zdigits2 m2 + e1) - e1 = 1).
      { rewrite Heq, fexp_eq. simpl Zdigits2. lia. }
      rewrite Hk2 in Hgt. destruct (Hgt ltac:(lia)) as (st2 & Hs2 & Hm3 & _).
      rewrite Hs2, Hm3, Heq. reflexivity.
Qed.

Lemma iter_xO (m d : positive) :
  Zpos (Pos.iter xO m d) = Zpos m * 2 ^ Zpos d.
Proof.
  induction d as [| d IH] using Pos.peano_ind.
  - simpl. lia.
  - rewrite Pos.iter_succ, Pos2Z.inj_xO, IH, Pos2Z.inj_succ, Z.pow_succ_r by lia.
    lia.
Qed.

Lemma shl_align_spec (m : positive) (e e' : Z) :
  (e' < e ->
   exists mz, shl_align m e e' = (mz, e') /\ Zpos mz = Zpos m * 2 ^ (e - e')) /\
  (e <= e' -> shl_align m e e' = (m, e)).
Proof.
  unfold shl_align. split; intros H.
  - destruct (e' - e) as [| p | p] eqn:E; try lia.
    exists (Pos.iter xO m p). split; [reflexivity |].
    rewrite iter_xO. f_equal. f_equal. lia.
  - destruct (e' - e) as [| p | p] eqn:E; try lia; reflexivity.
Qed.

(** The mantissa of [x] aligned to the exponent [ez <= e]. *)
Lemma shl_align_fst (m : positive) (e ez : Z) :
  ez <= e -> Zpos (fst (shl_align m e ez)) = Zpos m * 2 ^ (e - ez).
Proof.
  intros H. destruct (shl_align_spec m e ez) as [Hlt Hge].
  destruct (Z.eq_dec ez e) as [-> | Hne].
  - rewrite Hge by lia. rewrite Z.sub_diag. simpl. lia.
  - destruct (Hlt ltac:(lia)) as (mz & -> & Hmz). exact Hmz.
Qed.

Lemma binary_round_spec (sx : bool) (m : positive) (e : Z) :
  let e1 := fexp prec emax (Zpos (digits2_pos m) + e) in
  exists m2,
    binary_round prec emax sx m e = rounded sx m2 e1 /\
    0 <= m2 <= 2 ^ 24 /\
    (2 ^ 23 <= m2 \/ e1 = -149) /\
    ((e1 <= e /\ m2 = Zpos m * 2 ^ (e - e1)) \/
     (e < e1 /\
      (m2 = Zpos m / 2 ^ (e1 - e) \/
       (m2 = Zpos m / 2 ^ (e1 - e) + 1 /\ ~ (2 ^ (e1 - e) | Zpos m))))).
Proof.
  intros e1. unfold binary_round. fold e1.
  pose proof (digits2_pos_bounds m) as [Dlo Dhi].
  set (d := Zpos (digits2_pos m)) in *.
  assert (He1 : e1 = Z.max (d + e - 24) (-149)) by reflexivity.
  destruct (shl_align_spec m e e1) as [Hlt Hge].
  destruct (Z.lt_ge_cases e1 e) as [Hc | Hc].
  - destruct (Hlt Hc) as (mz & -> & Hmz).
    assert (Hpow : 0 < 2 ^ (e - e1)) by (apply Z.pow_pos_nonneg; lia).
    assert (Hdz : Zpos (digits2_pos mz) = d + (e - e1)).
    { apply digits2_pos_unique. rewrite Hmz.
      replace (d + (e - e1) - 1) with (d - 1 + (e - e1)) by lia.
      rewrite !Z.pow_add_r by lia. nia. }
    destruct (binary_round_aux_spec sx (Zpos mz) e1 loc_Exact ltac:(lia))
      as (m2 & Hr & Hrange & Hbig & Hm2).
    { cbn [Zdigits2]. rewrite Hdz.
      replace (d + (e - e1) + e1) with (d + e) by lia. fold e1. lia. }
    cbn [Zdigits2] in Hr, Hbig, Hm2. rewrite Hdz in Hr, Hbig, Hm2.
    replace (d + (e - e1) + e1) with (d + e) in Hr, Hbig, Hm2 by lia.
    fold e1 in Hr, Hbig, Hm2.
    rewrite Z.sub_diag, Z.pow_0_r, Z.div_1_r in Hm2.
    exists m2. split; [exact Hr |]. split; [exact Hrange |].
    split; [exact Hbig |]. left. split; [lia |].
    destruct Hm2 as [-> | [_ Hnd]]; [exact Hmz |].
    exfalso. apply Hnd; [reflexivity |]. exists (Zpos mz). lia.
  - rewrite Hge by lia.
    destruct (binary_round_aux_spec sx (Zpos m) e loc_Exact ltac:(lia))
      as (m2 & Hr & Hrange & Hbig & Hm2).
    { cbn [Zdigits2]. fold d. fold e1. lia. }
    cbn [Zdigits2] in Hr, Hbig, Hm2. fold d in Hr, Hbig, Hm2.
    fold e1 in Hr, Hbig, Hm2.
    exists m2. split; [exact Hr |]. split; [exact Hrange |].
    split; [exact Hbig |].
    destruct (Z.eq_dec e1 e) as [Heq | Hne].
    + left. split; [lia |]. rewrite Heq, Z.sub_diag, Z.pow_0_r, Z.div_1_r in Hm2.
      rewrite Heq, Z.sub_diag, Z.pow_0_r, Z.mul_1_r.
      destruct Hm2 as [-> | [_ Hnd]]; [reflexivity |].
      exfalso. apply Hnd; [reflexivity |]. exists (Zpos m). lia.
    + right. split; [lia |].
      destruct Hm2 as [-> | [-> Hnd]]; [left; reflexivity | right].
      split; [reflexivity |]. apply Hnd. reflexivity.
Qed.

(** What [valid_binary] says of a finite value. *)
Lemma bounded_facts (m : positive) (e : Z) :
  bounded prec emax m e = true ->
  -149 <= e <= 104 /\ Zpos m < 2 ^ 24 /\ (2 ^ 23 <= Zpos m \/ e = -149).
Proof.
  unfold bounded, canonical_mantissa. rewrite andb_true_iff.
  rewrite Z.eqb_eq, Z.leb_le, fexp_eq. intros [Hc Hb].
  change (emax - prec) with 104 in Hb.
  pose proof (digits2_pos_bounds m) as [Dlo Dhi].
  set (d := Zpos (digits2_pos m)) in *.
  assert (Hd : d <= 24) by lia.
  assert (H24 : 2 ^ d <= 2 ^ 24) by (apply Z.pow_le_mono_r; lia).
  split; [lia |]. split; [lia |].
  destruct (Z.eq_dec e (-149)) as [He | He]; [right; exact He | left].
  assert (d = 24) by lia. subst d. rewrite H in Dlo. exact Dlo.
Qed.

Lemma bounded_intro (m : positive) (e : Z) :
  -149 <= e <= 104 -> Zpos m < 2 ^ 24 -> (2 ^ 23 <= Zpos m \/ e = -149) ->
  bounded prec emax m e = true.
Proof.
  intros He Hm Hbig. unfold bounded, canonical_mantissa.
  rewrite andb_true_iff, Z.eqb_eq, Z.leb_le, fexp_eq.
  change (emax - prec) with 104. split; [| lia].
  pose proof (Zdigits2_le (Zpos m) 24 ltac:(lia) ltac:(lia) Hm) as Hd.
  cbn [Zdigits2] in Hd.
  destruct Hbig as [Hb | Hb]; [| lia].
  rewrite (digits2_pos_unique m 24) by (change (24 - 1) with 23; lia). lia.
Qed.

Lemma rounded_valid (sx : bool) (m2 e1 : Z) :
  0 <= m2 <= 2 ^ 24 -> -149 <= e1 -> (2 ^ 23 <= m2 \/ e1 = -149) ->
  is_float (rounded sx m2 e1).
Proof.
  intros Hm He Hbig. unfold is_float, rounded.
  destruct (Z.eqb_spec m2 0); [reflexivity |].
  destruct (Z.ltb_spec m2 (2 ^ 24)).
  - destruct (Z.leb_spec e1 104); [| reflexivity].
    cbn [valid_binary]. apply bounded_intro; rewrite ?Z2Pos.id; lia.
  - destruct (Z.leb_spec (e1 + 1) 104); [| reflexivity].
    cbn [valid_binary]. apply bounded_intro; [lia | reflexivity | left; reflexivity].
Qed.

Lemma binary_round_valid (sx : bool) (m : positive) (e : Z) :
  is_float (binary_round prec emax sx m e).
Proof.
  destruct (binary_round_spec sx m e) as (m2 & -> & Hr & Hbig & _).
  apply rounded_valid; [exact Hr | rewrite fexp_eq; lia | exact Hbig].
Qed.

Lemma binary_round_signed (sx : bool) (m : positive) (e : Z) :
  signed sx (binary_round prec emax sx m e).
Proof.
  unfold binary_round. destruct (shl_align _ _ _) as [mz ez].
  apply binary_round_aux_signed. lia.
Qed.

Lemma fle_finite (m n : positive) (e f : Z) :
  fle (S754_finite false m e) (S754_finite false n f) = true <->
  e < f \/ (e = f /\ Zpos m <= Zpos n).
Proof.
  rewrite fle_key by reflexivity. unfold lex_lt. cbn [key fst snd]. lia.
Qed.

(** Rounding does not cross a representable value: upwards. *)
Lemma binary_round_upper (m mv : positive) (e ev : Z) :
  bounded prec emax mv ev = true ->
  e <= ev -> Zpos m <= Zpos mv * 2 ^ (ev - e) ->
  fle (binary_round prec emax false m e) (S754_finite false mv ev) = true.
Proof.
  intros Hv Hee Hle.
  destruct (bounded_facts mv ev Hv) as (Hev & Hmv & Hbig).
  destruct (binary_round_spec false m e) as (m2 & -> & Hr & _ & Hm2).
  pose proof (digits2_pos_bounds m) as [Dlo Dhi].
  set (d := Zpos (digits2_pos m)) in *.
  set (e1 := fexp prec emax (d + e)) in *.
  assert (He1 : e1 = Z.max (d + e - 24) (-149)) by reflexivity.
  assert (Hp : 0 < 2 ^ (ev - e)) by (apply Z.pow_pos_nonneg; lia).
  (* the exponent of the result is at most that of [v] *)
  assert (Hmag : d + e <= 24 + ev).
  { assert (H : 2 ^ (d - 1) < 2 ^ (24 + (ev - e))).
    { rewrite (Z.pow_add_r 2 24) by lia. nia. }
    apply pow2_lt_digits in H; lia. }
  assert (Hle1 : e1 <= ev) by lia.
  (* the rounded mantissa is at most [v] on the grid of the result *)
  assert (Hp1 : 0 < 2 ^ (ev - e1)) by (apply Z.pow_pos_nonneg; lia).
  assert (HV : m2 <= Zpos mv * 2 ^ (ev - e1)).
  { destruct Hm2 as [[Hc ->] | [Hc Hm2]].
    - replace (ev - e1) with (ev - e + (e - e1)) by lia.
      rewrite Z.pow_add_r by lia.
      assert (0 < 2 ^ (e - e1)) by (apply Z.pow_pos_nonneg; lia). nia.
    - assert (Hk : 0 < 2 ^ (e1 - e)) by (apply Z.pow_pos_nonneg; lia).
      assert (Hsplit : Zpos mv * 2 ^ (ev - e)
                       = Zpos mv * 2 ^ (ev - e1) * 2 ^ (e1 - e)).
      { rewrite <- Z.mul_assoc, <- Z.pow_add_r by lia.
        f_equal. f_equal. lia. }
      rewrite Hsplit in Hle.
      destruct Hm2 as [-> | [-> Hnd]].
      + apply Z.div_le_upper_bound; [exact Hk |]. lia.
      + assert (Hne : Zpos m <> Zpos mv * 2 ^ (ev - e1) * 2 ^ (e1 - e)).
        { intros Heq. apply Hnd. exists (Zpos mv * 2 ^ (ev - e1)). exact Heq. }
        assert (Zpos m / 2 ^ (e1 - e) < Zpos mv * 2 ^ (ev - e1)).
        { apply Z.div_lt_upper_bound; [exact Hk |]. lia. }
        lia. }
  unfold rounded.
  destruct (Z.eqb_spec m2 0); [reflexivity |].
  destruct (Z.ltb_spec m2 (2 ^ 24)) as [Hlt | Hge].
  - rewrite (proj2 (Z.leb_le e1 104)) by lia.
    apply fle_finite. rewrite Z2Pos.id by lia.
    destruct (Z.eq_dec e1 ev) as [Heq | Hne]; [right | left; lia].
    split; [exact Heq |]. rewrite Heq, Z.sub_diag, Z.pow_0_r in HV. lia.
  - assert (Heq : m2 = 2 ^ 24) by lia.
    assert (Hlt1 : e1 < ev).
    { destruct (Z.eq_dec e1 ev) as [He | He]; [| lia].
      rewrite He, Z.sub_diag, Z.pow_0_r in HV. lia. }
    rewrite (proj2 (Z.leb_le (e1 + 1) 104)) by lia.
    apply fle_finite.
    destruct (Z.eq_dec (e1 + 1) ev) as [He | He]; [right | left; lia].
    split; [exact He |].
    replace (ev - e1) with 1 in HV by lia. rewrite Z.pow_1_r in HV.
    change (Zpos (2 ^ 23)) with (2 ^ 23). lia.
Qed.

(** Rounding does not cross a representable value: downwards. *)
Lemma binary_round_lower (m mv : positive) (e ev : Z) :
  bounded prec emax mv ev = true ->
  e <= ev -> Zpos mv * 2 ^ (ev - e) <= Zpos m ->
  fle (S754_finite false mv ev) (binary_round prec emax false m e) = true.
Proof.
  intros Hv Hee Hle.
  destruct (bounded_facts mv ev Hv) as (Hev & Hmv & Hbig).
  destruct (binary_round_spec false m e) as (m2 & -> & Hr & Hbig2 & Hm2).
  pose proof (digits2_pos_bounds m) as [Dlo Dhi].
  pose proof (digits2_pos_bounds mv) as [Vlo Vhi].
  set (d := Zpos (digits2_pos m)) in *.
  set (dv := Zpos (digits2_pos mv)) in *.
  set (e1 := fexp prec emax (d + e)) in *.
  assert (He1 : e1 = Z.max (d + e - 24) (-149)) by reflexivity.
  assert (Hp : 0 < 2 ^ (ev - e)) by (apply Z.pow_pos_nonneg; lia).
  assert (Hdv : 0 < dv <= 24).
  { split; [subst dv; lia |].
    pose proof (Zdigits2_le (Zpos mv) 24 ltac:(lia) ltac:(lia) Hmv). exact H. }
  (* the exponent of [v] is at most that of the result *)
  assert (Hmag : dv + ev <= d + e).
  { assert (H : 2 ^ (dv - 1 + (ev - e)) < 2 ^ d).
    { rewrite Z.pow_add_r by lia. nia. }
    apply pow2_lt_digits in H; lia. }
  assert (Hdv24 : dv = 24 \/ ev = -149).
  { destruct Hbig as [Hb | Hb]; [left | right; exact Hb].
    assert (H : 2 ^ 23 < 2 ^ dv) by lia.
    apply pow2_lt_digits in H; lia. }
  assert (Hle1 : ev <= e1) by lia.
  unfold rounded.
  destruct (Z.eq_dec ev e1) as [Heq | Hne].
  - (* same exponent: compare the mantissas *)
    assert (HV : Zpos mv <= m2).
    { destruct Hm2 as [[Hc ->] | [Hc Hm2]].
      - replace (ev - e) with 0 in Hle by lia.
        replace (e - e1) with 0 by lia. lia.
      - assert (Hk : 0 < 2 ^ (e1 - e)) by (apply Z.pow_pos_nonneg; lia).
        rewrite Heq in Hle.
        assert (Zpos mv <= Zpos m / 2 ^ (e1 - e)).
        { apply Z.div_le_lower_bound; [exact Hk |]. lia. }
        destruct Hm2 as [-> | [-> _]]; lia. }
    destruct (Z.eqb_spec m2 0); [lia |].
    destruct (Z.ltb_spec m2 (2 ^ 24)) as [Hlt | Hge].
    + destruct (Z.leb_spec e1 104); [| reflexivity].
      apply fle_finite. rewrite Z2Pos.id by lia. right. split; assumption.
    + destruct (Z.leb_spec (e1 + 1) 104); [| reflexivity].
      apply fle_finite. left. lia.
  - (* a larger exponent *)
    assert (Hm2pos : 2 ^ 23 <= m2) by (destruct Hbig2 as [H | H]; lia).
    destruct (Z.eqb_spec m2 0); [lia |].
    destruct (Z.ltb_spec m2 (2 ^ 24)) as [Hlt | Hge].
    + destruct (Z.leb_spec e1 104); [| reflexivity].
      apply fle_finite. left. lia.
    + destruct (Z.leb_spec (e1 + 1) 104); [| reflexivity].
      apply fle_finite. left. lia.
Qed.

(** ** Order *)

Lemma fle_not_nan (a b : float) :
  fle a b = true -> is_nan a = false /\ is_nan b = false.
Proof.
  destruct a; destruct b; cbn; intros H; try discriminate; split; reflexivity.
Qed.

Lemma flt_not_nan (a b : float) :
  flt a b = true -> is_nan a = false /\ is_nan b = false.
Proof.
  destruct a; destruct b; cbn; intros H; try discriminate; split; reflexivity.
Qed.

Lemma flt_false_key (a b : float) :
  is_nan a = false -> is_nan b = false ->
  (flt a b = false <-> ~ lex_lt (key a) (key b)).
Proof.
  intros Ha Hb. rewrite <- (flt_key a b Ha Hb).
  destruct (flt a b); split; intros; try discriminate; try reflexivity.
  - exfalso. apply H. reflexivity.
Qed.

Lemma fle_false_key (a b : float) :
  is_nan a = false -> is_nan b = false ->
  (fle a b = false <-> lex_lt (key b) (key a)).
Proof.
  intros Ha Hb. pose proof (fle_key a b Ha Hb) as Hk.
  destruct (fle a b); split; intros Hx; try discriminate; try reflexivity.
  - exfalso. apply (proj1 Hk eq_refl). exact Hx.
  - unfold lex_lt in *.
    destruct (Z.lt_trichotomy (key a).1.1 (key b).1.1) as [|[|]];
      destruct (Z.lt_trichotomy (key a).1.2 (key b).1.2) as [|[|]];
      destruct (Z.lt_trichotomy (key a).2 (key b).2) as [|[|]];
      try lia; exfalso; assert (Hn : true = true) by reflexivity;
      apply Hk; lia.
Qed.

(** [a < b] excludes [b <= a], and for numbers one of them holds. *)
Lemma flt_fle (a b : float) : flt a b = true -> fle b a = false.
Proof.
  intros H. destruct (flt_not_nan a b H) as [Ha Hb].
  apply fle_false_key; [exact Hb | exact Ha |].
  apply flt_key; assumption.
Qed.

Lemma fle_flt (a b : float) : fle a b = true -> flt b a = false.
Proof.
  intros H. destruct (fle_not_nan a b H) as [Ha Hb].
  apply flt_false_key; [exact Hb | exact Ha |].
  apply fle_key; assumption.
Qed.

Lemma flt_false_fle (a b : float) :
  is_nan a = false -> is_nan b = false -> flt a b = false -> fle b a = true.
Proof.
  intros Ha Hb H. apply fle_key; [exact Hb | exact Ha |].
  apply flt_false_key; assumption.
Qed.

Lemma fle_trans (a b c : float) :
  fle a b = true -> fle b c = true -> fle a c = true.
Proof.
  intros H1 H2.
  destruct (fle_not_nan a b H1) as [Ha Hb].
  destruct (fle_not_nan b c H2) as [_ Hc].
  apply fle_key in H1; [| assumption ..].
  apply fle_key in H2; [| assumption ..].
  apply fle_key; [assumption .. |]. unfold lex_lt in *. lia.
Qed.

Lemma fle_flt_trans (a b c : float) :
  fle a b = true -> flt b c = true -> flt a c = true.
Proof.
  intros H1 H2.
  destruct (fle_not_nan a b H1) as [Ha Hb].
  destruct (flt_not_nan b c H2) as [_ Hc].
  apply fle_key in H1; [| assumption ..].
  apply flt_key in H2; [| assumption ..].
  apply flt_key; [assumption .. |]. unfold lex_lt in *. lia.
Qed.


Lemma flt_asym (a b : float) : flt a b = true -> flt b a = false.
Proof.
  intros H. destruct (flt_not_nan a b H) as [Ha Hb].
  apply flt_false_key; [assumption .. |].
  apply flt_key in H; [| assumption ..]. unfold lex_lt in *. lia.
Qed.

Lemma flt_trans (a b c : float) :
  flt a b = true -> flt b c = true -> flt a c = true.
Proof.
  intros H1 H2.
  destruct (flt_not_nan a b H1) as [Ha Hb].
  destruct (flt_not_nan b c H2) as [_ Hc].
  apply flt_key in H1; [| assumption ..].
  apply flt_key in H2; [| assumption ..].
  apply flt_key; [assumption .. |]. unfold lex_lt in *. lia.
Qed.

Lemma flt_le (a b : float) : flt a b = true -> fle a b = true.
Proof.
  intros H. destruct (flt_not_nan a b H) as [Ha Hb].
  apply fle_key; [assumption .. |].
  apply flt_key in H; [| assumption ..]. unfold lex_lt in *. lia.
Qed.

Lemma fle_refl (a : float) : is_nan a = false -> fle a a = true.
Proof.
  intros Ha. apply fle_key; [assumption .. |]. unfold lex_lt. lia.
Qed.

(** A number between two finite values is finite. *)
Lemma between_finite (a x b : float) :
  is_finite a = true -> is_finite b = true ->
  fle a x = true -> fle x b = true -> is_finite x = true.
Proof.
  destruct a as [| | | sa ma ea]; try discriminate;
    destruct b as [| | | sb mb eb]; try discriminate;
    destruct x as [| [] | |]; try reflexivity; try discriminate;
    destruct sa; destruct sb; cbn; intros; discriminate.
Qed.

(** ** The operations *)

Lemma signed_not_nan (sx : bool) (x : float) : signed sx x -> is_nan x = false.
Proof. destruct x; simpl; [reflexivity | reflexivity | tauto | reflexivity]. Qed.


Lemma signed_false_nonneg (x : float) : signed false x -> fle zero x = true.
Proof. destruct x as [[] | [] | | [] m e]; simpl; intros H; try discriminate; try tauto; reflexivity. Qed.

Lemma signed_true_below (x : float) (m : positive) (e : Z) :
  signed true x -> fle x (S754_finite false m e) = true.
Proof. destruct x as [[] | [] | | [] n f]; simpl; intros H; try discriminate; try tauto; reflexivity. Qed.

Lemma binary_normalize_valid (z e : Z) (s : bool) :
  is_float (binary_normalize prec emax z e s).
Proof.
  destruct z; cbn [binary_normalize]; [reflexivity | |]; apply binary_round_valid.
Qed.

Lemma binary_normalize_pos (z e : Z) (s : bool) :
  0 < z -> binary_normalize prec emax z e s
           = binary_round prec emax false (Z.to_pos z) e.
Proof. destruct z; try lia. reflexivity. Qed.

Lemma binary_normalize_neg (z e : Z) (s : bool) :
  z < 0 -> signed true (binary_normalize prec emax z e s).
Proof.
  destruct z; try lia. intros _. cbn [binary_normalize].
  apply binary_round_signed.
Qed.

Lemma binary_normalize_not_nan (z e : Z) (s : bool) :
  is_nan (binary_normalize prec emax z e s) = false.
Proof.
  destruct z; cbn [binary_normalize]; [reflexivity | |];
    eapply signed_not_nan; apply binary_round_signed.
Qed.

Lemma fadd_valid (x y : float) : is_float x -> is_float y -> is_float (fadd x y).
Proof.
  intros Hx Hy. unfold fadd, SFadd.
  destruct x as [[] | [] | | sx mx ex]; destruct y as [[] | [] | | sy my ey];
    try reflexivity; try assumption.
  apply binary_normalize_valid.
Qed.

Lemma fsub_valid (x y : float) : is_float x -> is_float y -> is_float (fsub x y).
Proof.
  intros Hx Hy. unfold fsub, SFsub.
  destruct x as [[] | [] | | sx mx ex]; destruct y as [[] | [] | | sy my ey];
    try reflexivity; try assumption.
  apply binary_normalize_valid.
Qed.

(** Valid values compare as their aligned mantissas do. *)
Lemma aligned_le (ma mb : positive) (ea eb : Z) :
  bounded prec emax ma ea = true -> bounded prec emax mb eb = true ->
  fle (S754_finite false ma ea) (S754_finite false mb eb) = true ->
  Zpos ma * 2 ^ (ea - Z.min ea eb) <= Zpos mb * 2 ^ (eb - Z.min ea eb).
Proof.
  intros Ha Hb Hle. apply fle_finite in Hle.
  destruct (bounded_facts ma ea Ha) as (Hea & Hma & _).
  destruct (bounded_facts mb eb Hb) as (Heb & Hmb & Hbig).
  destruct Hle as [Hlt | [Heq Hm]].
  - rewrite Z.min_l by lia. rewrite Z.sub_diag, Z.pow_0_r.
    assert (H2 : 2 ^ 1 <= 2 ^ (eb - ea)) by (apply Z.pow_le_mono_r; lia).
    rewrite Z.pow_1_r in H2. nia.
  - subst eb. rewrite Z.min_id, Z.sub_diag, Z.pow_0_r. lia.
Qed.




Lemma fle_refl_finite (m : positive) (e : Z) (s : bool) :
  fle (S754_finite s m e) (S754_finite s m e) = true.
Proof.
  rewrite fle_key by reflexivity. unfold lex_lt. lia.
Qed.


(** Subtracting a positive value does not increase. *)
Lemma fsub_pos_not_above (T h : float) (mh : positive) (eh : Z) :
  h = S754_finite false mh eh -> is_float T ->
  flt T (fsub T h) = false.
Proof.
  intros -> HT.
  destruct T as [s | s | | s m e].
  - destruct s; reflexivity.
  - destruct s; reflexivity.
  - reflexivity.
  - assert (Hnn : is_nan (fsub (S754_finite s m e) (S754_finite false mh eh)) = false).
    { apply binary_normalize_not_nan. }
    destruct (flt _ _) eqn:Hlt; [exfalso | reflexivity].
    assert (Hle : fle (fsub (S754_finite s m e) (S754_finite false mh eh))
                      (S754_finite s m e) = true).
    { unfold fsub, SFsub. rewrite !shl_align_fst by lia.
      set (ez := Z.min e eh).
      assert (Hph : 0 < Zpos mh * 2 ^ (eh - ez)).
      { apply Z.mul_pos_pos; [lia | apply Z.pow_pos_nonneg; lia]. }
      assert (Hpm : 0 < Zpos m * 2 ^ (e - ez)).
      { apply Z.mul_pos_pos; [lia | apply Z.pow_pos_nonneg; lia]. }
      destruct s; cbn [cond_Zopp].
      - (* a negative value moves away from zero *)
        set (z := - (Zpos m * 2 ^ (e - ez)) - Zpos mh * 2 ^ (eh - ez)).
        assert (Hz : z < 0) by (subst z; lia).
        destruct z as [| q | q] eqn:Ez; try lia.
        cbn [binary_normalize].
        pose proof (binary_round_lower q m ez e HT ltac:(lia) ltac:(lia)) as Hlow.
        revert Hlow. unfold binary_round.
        destruct (shl_align _ _ _) as [mz ez'].
        unfold binary_round_aux.
        destruct (shr_fexp _ _ _ _ _) as [st1 e1].
        destruct (shr_fexp _ _ _ _ _) as [st2 e2].
        destruct (shr_m st2) as [| r | r]; try discriminate.
        destruct (e2 <=? emax - prec); [| reflexivity].
        rewrite !fle_key by reflexivity. unfold lex_lt. cbn [key fst snd]. lia.
      - set (z := Zpos m * 2 ^ (e - ez) - Zpos mh * 2 ^ (eh - ez)).
        destruct (Z.lt_trichotomy z 0) as [Hneg | [Hz | Hpos]].
        + apply signed_true_below. apply binary_normalize_neg. exact Hneg.
        + rewrite Hz. reflexivity.
        + rewrite binary_normalize_pos by exact Hpos.
          apply binary_round_upper; [exact HT | lia |].
          rewrite Z2Pos.id by lia. subst z. lia. }
    apply fle_key in Hle; [| exact Hnn | reflexivity].
    apply flt_key in Hlt; [| reflexivity | exact Hnn]. contradiction.
Qed.

(** The difference of two values in order is not negative. *)
Lemma fsub_nonneg (a b : float) (ma mb : positive) (ea eb : Z) :
  a = S754_finite false ma ea -> b = S754_finite false mb eb ->
  is_float a -> is_float b ->
  fle b a = true -> signed false (fsub a b).
Proof.
  intros -> -> Ha Hb Hle.
  pose proof (aligned_le mb ma eb ea Hb Ha Hle) as Hal.
  unfold fsub, SFsub. cbn [cond_Zopp].
  rewrite !shl_align_fst by lia. rewrite (Z.min_comm ea eb).
  set (z := Zpos ma * 2 ^ (ea - Z.min eb ea) - Zpos mb * 2 ^ (eb - Z.min eb ea)).
  assert (Hz : 0 <= z) by (subst z; lia).
  destruct (Z.eq_dec z 0) as [-> | Hnz]; [reflexivity |].
  rewrite binary_normalize_pos by lia. apply binary_round_signed.
Qed.

(** A number between two positive finite values is positive and finite. *)
Lemma between_pos_finite (a x b : float) (ma mb : positive) (ea eb : Z) :
  a = S754_finite false ma ea -> b = S754_finite false mb eb ->
  fle a x = true -> fle x b = true ->
  exists m e, x = S754_finite false m e.
Proof.
  intros -> ->.
  destruct x as [sx | [] | | [] mx ex]; cbn; intros H1 H2;
    try discriminate; eauto.
Qed.

(** Adding to a finite value of the format gives a value of the format. *)
Lemma fadd_valid_l (x y : float) (s : bool) (m : positive) (e : Z) :
  x = S754_finite s m e -> is_float x -> is_float (fadd x y).
Proof.
  intros -> Hx. unfold fadd, SFadd.
  destruct y as [sy | sy | | sy my ey]; try reflexivity; try assumption.
  apply binary_normalize_valid.
Qed.

(** ** Where NaN comes from *)

Lemma fadd_not_nan (a b : float) :
  is_finite a = true -> is_nan b = false -> is_nan (fadd a b) = false.
Proof.
  intros Ha Hb. unfold fadd, SFadd.
  destruct a as [sa | | | sa ma ea]; try discriminate;
    destruct b as [sb | sb | | sb mb eb]; try discriminate; try reflexivity.
  - destruct sa, sb; reflexivity.
  - apply binary_normalize_not_nan.
Qed.

Lemma fsub_not_nan (a b : float) :
  is_nan a = false -> is_finite b = true -> is_nan (fsub a b) = false.
Proof.
  intros Ha Hb. unfold fsub, SFsub.
  destruct b as [sb | | | sb mb eb]; try discriminate;
    destruct a as [sa | sa | | sa ma ea]; try discriminate; try reflexivity.
  - destruct sa, sb; reflexivity.
  - apply binary_normalize_not_nan.
Qed.

Lemma fmul_not_nan_l (a b : float) (s : bool) (m : positive) (e : Z) :
  a = S754_finite s m e -> is_nan b = false -> is_nan (fmul a b) = false.
Proof.
  intros -> Hb. unfold fmul, SFmul.
  destruct b as [sb | sb | | sb mb eb]; try discriminate; try reflexivity.
  eapply signed_not_nan. apply binary_round_aux_signed. lia.
Qed.

Lemma fmul_not_nan_r (a b : float) (s : bool) (m : positive) (e : Z) :
  is_nan a = false -> b = S754_finite s m e -> is_nan (fmul a b) = false.
Proof.
  intros Ha ->. unfold fmul, SFmul.
  destruct a as [sa | sa | | sa ma ea]; try discriminate; try reflexivity.
  eapply signed_not_nan. apply binary_round_aux_signed. lia.
Qed.

Lemma SFdiv_core_binary_nonneg (m1 m2 : positive) (e1 e2 : Z) :
  0 <= fst (fst (SFdiv_core_binary prec emax (Zpos m1) e1 (Zpos m2) e2)).
Proof.
  unfold SFdiv_core_binary.
  set (s := _ - _ - _).
  set (m' := match s with Z0 => Zpos m1 | Zpos _ => Z.shiftl (Zpos m1) s | Zneg _ => 0 end).
  assert (Hm' : 0 <= m').
  { subst m'. destruct s; [lia | | lia]. apply Z.shiftl_nonneg. lia. }
  pose proof (Z_div_mod m' (Zpos m2) ltac:(lia)) as Hdm.
  destruct (Z.div_eucl m' (Zpos m2)) as [q r]. cbn [fst]. nia.
Qed.

Lemma fdiv_not_nan (a b : float) (s : bool) (m : positive) (e : Z) :
  is_nan a = false -> b = S754_finite s m e -> is_nan (fdiv a b) = false.
Proof.
  intros Ha ->. unfold fdiv, SFdiv.
  destruct a as [sa | sa | | sa ma ea]; try discriminate; try reflexivity.
  pose proof (SFdiv_core_binary_nonneg ma m ea e) as Hq.
  destruct (SFdiv_core_binary _ _ _ _ _ _) as [[mz ez] lz]. cbn [fst] in Hq.
  eapply signed_not_nan. apply binary_round_aux_signed. exact Hq.
Qed.

(** The quotient of a zero by a positive finite value is that zero. *)
Lemma fdiv_zero (sz : bool) (m : positive) (e : Z) :
  fdiv (S754_zero sz) (S754_finite false m e) = S754_zero sz.
Proof. destruct sz; reflexivity. Qed.

Lemma binary_round_aux_opp (mx ex : Z) (lx : location) :
  binary_round_aux prec emax true mx ex lx
  = SFopp (binary_round_aux prec emax false mx ex lx).
Proof.
  unfold binary_round_aux.
  destruct (shr_fexp _ _ _ _ _) as [st1 e1].
  destruct (shr_fexp _ _ _ _ _) as [st2 e2].
  destruct (shr_m st2); try reflexivity.
  destruct (e2 <=? emax - prec); reflexivity.
Qed.

Lemma binary_round_opp (m : positive) (e : Z) :
  binary_round prec emax true m e = SFopp (binary_round prec emax false m e).
Proof.
  unfold binary_round. destruct (shl_align _ _ _) as [mz ez].
  apply binary_round_aux_opp.
Qed.

(** A rounded sum that a finite value bounds is finite. *)
Lemma nonneg_below_finite (x : float) (m : positive) (e : Z) :
  signed false x -> fle x (S754_finite false m e) = true -> is_finite x = true.
Proof.
  destruct x as [sx | [] | | sx mx ex]; cbn; intros Hs H;
    try reflexivity; try discriminate; tauto.
Qed.

(** The difference of two finite values of the format that are not
    negative is finite. *)
Lemma fsub_is_finite (a b : float) (mb : positive) (eb : Z) :
  is_float a -> is_float b -> fle zero a = true -> is_finite a = true ->
  b = S754_finite false mb eb ->
  is_finite (fsub a b) = true.
Proof.
  intros Ha Hb Hnn Hfin ->.
  destruct a as [sa | | | sa ma ea]; try discriminate.
  - reflexivity.
  - destruct sa; [discriminate Hnn |].
    unfold fsub, SFsub. cbn [cond_Zopp]. rewrite !shl_align_fst by lia.
    set (ez := Z.min ea eb).
    assert (Hpa : 0 < Zpos ma * 2 ^ (ea - ez)).
    { apply Z.mul_pos_pos; [lia | apply Z.pow_pos_nonneg; lia]. }
    assert (Hpb : 0 < Zpos mb * 2 ^ (eb - ez)).
    { apply Z.mul_pos_pos; [lia | apply Z.pow_pos_nonneg; lia]. }
    set (z := Zpos ma * 2 ^ (ea - ez) - Zpos mb * 2 ^ (eb - ez)).
    destruct z as [| q | q] eqn:Ez; cbn [binary_normalize].
    + reflexivity.
    + apply (nonneg_below_finite _ ma ea); [apply binary_round_signed |].
      apply binary_round_upper; [exact Ha | lia | lia].
    + rewrite binary_round_opp.
      assert (Hf : is_finite (binary_round prec emax false q ez) = true).
      { apply (nonneg_below_finite _ mb eb); [apply binary_round_signed |].
        apply binary_round_upper; [exact Hb | lia | lia]. }
      destruct (binary_round prec emax false q ez); try discriminate; reflexivity.
Qed.

(** ** Signs *)

Lemma fmul_square_signed (x : float) :
  is_nan x = false -> signed false (fmul x x).
Proof.
  intros Hx. unfold fmul, SFmul.
  destruct x as [[] | [] | | sx mx ex]; try discriminate; try reflexivity.
  replace (xorb sx sx) with false by (destruct sx; reflexivity).
  apply binary_round_aux_signed. lia.
Qed.

Lemma fadd_signed (a b : float) :
  signed false a -> signed false b -> signed false (fadd a b).
Proof.
  unfold fadd, SFadd.
  destruct a as [sa | sa | | sa ma ea]; cbn [signed]; intros Ha; try tauto;
    destruct b as [sb | sb | | sb mb eb]; cbn [signed]; intros Hb; try tauto;
    subst; try reflexivity.
  cbn [cond_Zopp]. apply binary_round_signed.
Qed.

Lemma fdiv_signed (a b : float) (m : positive) (e : Z) :
  signed false a -> b = S754_finite false m e -> signed false (fdiv a b).
Proof.
  intros Ha ->. unfold fdiv, SFdiv.
  destruct a as [sa | sa | | sa ma ea]; cbn [signed] in Ha; try tauto;
    subst; try reflexivity.
  pose proof (SFdiv_core_binary_nonneg ma m ea e) as Hq.
  destruct (SFdiv_core_binary _ _ _ _ _ _) as [[mz ez] lz]. cbn [fst] in Hq.
  apply binary_round_aux_signed. exact Hq.
Qed.

Lemma fsqrt_signed (a : float) : signed false a -> signed false (fsqrt a).
Proof.
  unfold fsqrt, SFsqrt.
  destruct a as [sa | sa | | sa ma ea]; cbn [signed]; intros Ha; try tauto;
    subst; try reflexivity.
  unfold SFsqrt_core_binary.
  set (m' := match _ - _ with Z0 => _ | Zpos _ => _ | Zneg _ => _ end).
  assert (Hm' : 0 <= m').
  { subst m'. destruct (_ - _); [lia | | lia]. apply Z.shiftl_nonneg. lia. }
  pose proof (Z.sqrtrem_spec m' Hm') as Hs.
  destruct (Z.sqrtrem m') as [q r].
  apply binary_round_aux_signed. lia.
Qed.

(** The conversion of a positive [size_t] is positive and finite. *)
Lemma of_Z_pos (z : Z) :
  0 < z < 2 ^ 64 -> exists m e, of_Z z = S754_finite false m e.
Proof.
  intros Hz. unfold of_Z. rewrite binary_normalize_pos by lia.
  destruct (binary_round_spec false (Z.to_pos z) 0) as (m2 & -> & Hr & Hbig & _).
  pose proof (digits2_pos_bounds (Z.to_pos z)) as [Dlo Dhi].
  rewrite Z2Pos.id in Dlo, Dhi by lia.
  set (d := Zpos (digits2_pos (Z.to_pos z))) in *.
  assert (Hd : 0 < d <= 64).
  { split; [subst d; lia |].
    assert (H : 2 ^ (d - 1) < 2 ^ 64) by lia.
    apply pow2_lt_digits in H; lia. }
  rewrite fexp_eq in *. unfold rounded.
  destruct (Z.eqb_spec m2 0); [lia |].
  destruct (Z.ltb_spec m2 (2 ^ 24)).
  - rewrite (proj2 (Z.leb_le _ 104)) by lia. eauto.
  - rewrite (proj2 (Z.leb_le _ 104)) by lia. eauto.
Qed.

(** Adding a value that is not negative does not decrease. *)
Lemma fadd_nonneg_ge (g p : float) (mg : positive) (eg : Z) :
  g = S754_finite false mg eg -> is_float g -> signed false p ->
  fle g (fadd g p) = true.
Proof.
  intros -> Hg Hp.
  destruct p as [sp | sp | | sp m e]; cbn [signed] in Hp; try tauto; subst sp.
  - unfold fadd. cbn [SFadd]. apply fle_refl_finite.
  - reflexivity.
  - unfold fadd, SFadd. cbn [cond_Zopp].
    rewrite !shl_align_fst by lia.
    set (ez := Z.min eg e).
    set (z := Zpos mg * 2 ^ (eg - ez) + Zpos m * 2 ^ (e - ez)).
    assert (Hpm : 0 < Zpos m * 2 ^ (e - ez)).
    { apply Z.mul_pos_pos; [lia | apply Z.pow_pos_nonneg; lia]. }
    assert (Hpg : 0 < Zpos mg * 2 ^ (eg - ez)).
    { apply Z.mul_pos_pos; [lia | apply Z.pow_pos_nonneg; lia]. }
    rewrite binary_normalize_pos by (subst z; lia).
    apply binary_round_lower; [exact Hg | lia |].
    rewrite Z2Pos.id by (subst z; lia). subst z. lia.
Qed.

(** A positive finite factor keeps a value that is not negative so. *)
Lemma fmul_pos_nonneg (k d : float) (mk : positive) (ek : Z) :
  k = S754_finite false mk ek -> signed false d -> signed false (fmul k d).
Proof.
  intros -> Hd.
  destruct d as [sd | sd | | sd m e]; cbn [signed] in Hd; try tauto; subst sd.
  unfold fmul, SFmul. cbn [xorb]. apply binary_round_aux_signed. lia.
Qed.

End Binary32.
(** * Properties of the frame processor *)

Section Comparisons.
Local Open Scope float_scope.

Lemma constants :
  kMinGateGain = S754_finite false 8589935 (-33) /\
  kVadHysteresis = S754_finite false 13421773 (-27) /\
  kGainSmoothCoeff = S754_finite false 10737418 (-27) /\
  decimal 1 100 = S754_finite false 10737418 (-30) /\
  1 = S754_finite false 8388608 (-23) /\
  1 - kMinGateGain = S754_finite false 16760439 (-24).
Proof. vm_compute. repeat split. Qed.

Lemma std_clamp_range (v lo hi : float) :
  is_nan v = false -> lo <= hi -> lo <= std_clamp v lo hi <= hi.
Proof.
  intros Hv Hle. destruct (fle_not_nan lo hi Hle) as [Hlo Hhi].
  unfold std_clamp.
  destruct (v <? lo) eqn:H1; [split; [apply fle_refl; exact Hlo | exact Hle] |].
  destruct (hi <? v) eqn:H2; [split; [exact Hle | apply fle_refl; exact Hhi] |].
  split; apply flt_false_fle; assumption.
Qed.

Lemma std_clamp_nan (lo hi : float) : std_clamp NaN lo hi = NaN.
Proof.
  unfold std_clamp.
  rewrite (flt_nan_l NaN lo eq_refl), (flt_nan_r hi NaN eq_refl). reflexivity.
Qed.

Lemma std_clamp_is_float (v lo hi : float) :
  is_float v -> is_float lo -> is_float hi -> is_float (std_clamp v lo hi).
Proof.
  intros Hv Hlo Hhi. unfold std_clamp.
  destruct (v <? lo); [exact Hlo |]. destruct (hi <? v); assumption.
Qed.

Lemma std_clamp_not_nan (v lo hi : float) :
  is_nan v = false -> is_nan lo = false -> is_nan hi = false ->
  is_nan (std_clamp v lo hi) = false.
Proof.
  intros Hv Hlo Hhi. unfold std_clamp.
  destruct (v <? lo); [exact Hlo |]. destruct (hi <? v); assumption.
Qed.

End Comparisons.

Section FrameProcessor.
Context `{Externals}.
Local Open Scope float_scope.

Lemma gate_vad (s : RNNoiseWrapper) (st : DenoiseState) (frame : list float) :
  snd (fst (gate s st frame)) = engine_vad st frame.
Proof.
  unfold gate, engine_vad.
  destruct (rnnoise_process_frame _ _) as [[st' out] vad]. reflexivity.
Qed.

Lemma gate_gain (s : RNNoiseWrapper) (st : DenoiseState) (frame : list float) :
  snd (gate s st frame)
  = smooth (smoothGain_ s) (targetGain (engine_vad st frame) (vadThreshold_ s)).
Proof.
  unfold gate, engine_vad.
  destruct (rnnoise_process_frame _ _) as [[st' out] vad]. reflexivity.
Qed.

(** The uninitialised path. *)
Lemma processFrame_uninitialised (s : RNNoiseWrapper) (frame : list float) :
  state_ s = None -> processFrame s frame = (s, frame, 0).
Proof. intros Hs. unfold processFrame. rewrite Hs. reflexivity. Qed.

(** The fast path. *)
Lemma processFrame_fast (s : RNNoiseWrapper) (st : DenoiseState)
    (frame : list float) :
  state_ s = Some st -> suppressionLevel_ s <= 0 ->
  processFrame s frame =
    ({| state_ := state_ s;
        suppressionLevel_ := suppressionLevel_ s;
        vadThreshold_ := vadThreshold_ s;
        comfortNoiseEnabled_ := comfortNoiseEnabled_ s;
        smoothGain_ := smoothGain_ s;
        noiseState_ := noiseState_ s;
        metrics_ :=
          mkAudioMetrics (computeRms frame kRNNoiseFrameSize)
            (computeRms frame kRNNoiseFrameSize) 0 1
            (wrap (framesProcessed (metrics_ s) + 1)%Z) |},
     frame, 0).
Proof.
  intros Hs Hlevel. unfold processFrame. rewrite Hs, Hlevel. reflexivity.
Qed.

(** The full path, stage by stage. *)
Lemma processFrame_full (s : RNNoiseWrapper) (st : DenoiseState)
    (frame : list float) :
  state_ s = Some st -> (suppressionLevel_ s <=? 0) = false ->
  let gated := gate s st frame in
  let out :=
    comfort (comfortNoiseEnabled_ s) (snd gated) (noiseState_ s)
      (snd (fst (fst gated))) in
  processFrame s frame =
    ({| state_ := Some (fst (fst (fst gated)));
        suppressionLevel_ := suppressionLevel_ s;
        vadThreshold_ := vadThreshold_ s;
        comfortNoiseEnabled_ := comfortNoiseEnabled_ s;
        smoothGain_ := snd gated;
        noiseState_ := snd out;
        metrics_ :=
          mkAudioMetrics (computeRms frame kRNNoiseFrameSize)
            (computeRms (fst out) kRNNoiseFrameSize)
            (snd (fst gated)) (snd gated)
            (wrap (framesProcessed (metrics_ s) + 1)%Z) |},
     fst out, snd (fst gated)).
Proof.
  intros Hs Hlevel gated out. unfold processFrame. rewrite Hs, Hlevel.
  subst out gated. destruct (gate s st frame) as [[[st' frame'] vad] g].
  cbn [fst snd]. destruct (comfort _ _ _ _) as [frame'' ns]. reflexivity.
Qed.

(** The smoothed gain after a call of [processFrame], on each path. *)
Lemma processFrame_gain (s : RNNoiseWrapper) (frame : list float) :
  smoothGain_ (fst (fst (processFrame s frame))) =
    match state_ s with
    | None => smoothGain_ s
    | Some st =>
        if suppressionLevel_ s <=? 0 then smoothGain_ s
        else smooth (smoothGain_ s)
               (targetGain (engine_vad st frame) (vadThreshold_ s))
    end.
Proof.
  destruct (state_ s) as [st |] eqn:Hs.
  - destruct (suppressionLevel_ s <=? 0) eqn:Hl.
    + rewrite (processFrame_fast s st frame Hs Hl). reflexivity.
    + rewrite (processFrame_full s st frame Hs Hl).
      cbn [fst snd smoothGain_]. apply gate_gain.
  - rewrite (processFrame_uninitialised s frame Hs). reflexivity.
Qed.

Lemma initialised_state (s : RNNoiseWrapper) :
  isInitialized s = true -> exists st, state_ s = Some st.
Proof.
  unfold isInitialized. intros Hi.
  destruct (state_ s) as [st |]; [exists st; reflexivity | discriminate Hi].
Qed.

(** [processFrame] changes neither the settings nor whether the engine
    is initialised. *)
Lemma processFrame_settings (s : RNNoiseWrapper) (frame : list float) :
  let s' := fst (fst (processFrame s frame)) in
  isInitialized s' = isInitialized s /\
  suppressionLevel_ s' = suppressionLevel_ s /\
  vadThreshold_ s' = vadThreshold_ s /\
  comfortNoiseEnabled_ s' = comfortNoiseEnabled_ s.
Proof.
  intros s'. subst s'. unfold isInitialized.
  destruct (state_ s) as [st |] eqn:Hs.
  - destruct (suppressionLevel_ s <=? 0) eqn:Hl.
    + rewrite (processFrame_fast s st frame Hs Hl).
      cbn [fst snd state_ suppressionLevel_ vadThreshold_ comfortNoiseEnabled_].
      rewrite Hs. repeat split.
    + rewrite (processFrame_full s st frame Hs Hl).
      repeat split.
  - rewrite (processFrame_uninitialised s frame Hs). cbn [fst]. rewrite Hs.
    repeat split.
Qed.

(** ** The target gain *)

(** The lower edge of the hysteresis band is not above the threshold. *)
Lemma band_below_threshold (T : float) :
  is_float T -> (T <? T - kVadHysteresis) = false.
Proof.
  intros HT. destruct constants as (_ & Hh & _).
  apply (fsub_pos_not_above T _ _ _ Hh HT).
Qed.

(** C1. On the full path (engine initialised, suppression level above 0)
    [processFrame] returns the engine's probability [vad] and smooths
    towards the target gain, and with threshold [T] (a value of the
    format), [H = 0.1f] and [G = 0.001f] the target is: 1 when
    [vad >= T]; the larger of [G + vad / d * (1 - G)] and [G], [d] being
    the larger of [T - H] and [0.01f], when [vad < T - H]; and
    [G + (vad - (T - H)) / H * (1 - G)], with no floor, when
    [T - H <= vad < T].  Every operation is the rounded one of [float]. *)
Theorem target_gain_cases (s : RNNoiseWrapper) (st : DenoiseState)
    (frame : list float) :
  state_ s = Some st -> 0 < suppressionLevel_ s ->
  is_float (vadThreshold_ s) ->
  let vad := engine_vad st frame in
  let T := vadThreshold_ s in
  let target := targetGain vad T in
  let H := decimal 1 10 in
  let G := decimal 1 1000 in
  snd (processFrame s frame) = vad /\
  smoothGain_ (fst (fst (processFrame s frame)))
    = (let g := smoothGain_ s + decimal 8 100 * (target - smoothGain_ s) in
       if g <? G then G else if 1 <? g then 1 else g) /\
  (T <= vad -> target = 1) /\
  (vad < T - H ->
   target =
     (let d := if T - H <? decimal 1 100 then decimal 1 100 else T - H in
      let t := G + vad / d * (1 - G) in
      if t <? G then G else t)) /\
  (T - H <= vad -> vad < T ->
   target = G + (vad - (T - H)) / H * (1 - G)).
Proof.
  intros Hs Hlevel HT vad T target Hh G.
  apply flt_fle in Hlevel.
  rewrite (processFrame_full s st frame Hs Hlevel).
  cbn [fst snd smoothGain_].
  rewrite gate_vad, gate_gain. fold vad T target.
  split; [reflexivity |]. split; [reflexivity |].
  subst target. unfold targetGain. fold Hh G.
  change kVadHysteresis with Hh. change kMinGateGain with G.
  split; [| split].
  - intros Hge. rewrite Hge. reflexivity.
  - intros Hlt.
    assert (Hnot : (vad >=? T) = false).
    { destruct (vad >=? T) eqn:Hge; [exfalso | reflexivity].
      pose proof (fle_flt_trans _ _ _ Hge Hlt) as Hbad.
      pose proof (band_below_threshold T HT) as Hok.
      change kVadHysteresis with Hh in Hok. congruence. }
    rewrite Hnot, Hlt. reflexivity.
  - intros Hge Hlt.
    rewrite (flt_fle _ _ Hlt), (fle_flt _ _ Hge). reflexivity.
Qed.

Lemma finite_between_0_1 (x : float) : 0 <= x <= 1 -> is_finite x = true.
Proof.
  intros [H0 H1]. apply (between_finite 0 x 1); try assumption; reflexivity.
Qed.

Lemma target_not_nan (vad T : float) :
  is_nan vad = false -> is_float T -> 0 <= T <= 1 ->
  is_nan (targetGain vad T) = false.
Proof.
  intros Hvad HT HT01.
  destruct constants as (HG & HH & _ & Hc & H1 & H1G).
  pose proof (finite_between_0_1 T HT01) as HTfin.
  assert (HX : is_finite (T - kVadHysteresis) = true).
  { eapply (fsub_is_finite T kVadHysteresis);
      [exact HT | rewrite HH; reflexivity | apply HT01 | exact HTfin | exact HH]. }
  set (X := T - kVadHysteresis) in *.
  unfold targetGain. fold X. clearbody X.
  destruct (vad >=? T); [reflexivity |].
  destruct (vad <? X) eqn:Hlow.
  - assert (Hd : exists s m e, std_max X (decimal 1 100) = S754_finite s m e).
    { unfold std_max. destruct (X <? decimal 1 100) eqn:Hxc.
      - rewrite Hc. eauto.
      - destruct X as [sx | | | sx mx ex]; try discriminate HX; [| eauto].
        destruct sx; discriminate Hxc. }
    destruct Hd as (sd & md & ed & Hd). rewrite Hd.
    assert (Ht : is_nan (kMinGateGain
                         + vad / S754_finite sd md ed * (1 - kMinGateGain)) = false).
    { apply fadd_not_nan; [rewrite HG; reflexivity |].
      eapply fmul_not_nan_r; [| exact H1G].
      eapply fdiv_not_nan; [exact Hvad | reflexivity]. }
    unfold std_max. destruct (_ <? kMinGateGain); [rewrite HG; reflexivity |].
    exact Ht.
  - apply fadd_not_nan; [rewrite HG; reflexivity |].
    eapply fmul_not_nan_r; [| exact H1G].
    eapply fdiv_not_nan; [| exact HH].
    apply fsub_not_nan; assumption.
Qed.

Lemma smooth_range (g target : float) :
  is_nan target = false -> decimal 1 1000 <= g <= 1 ->
  decimal 1 1000 <= smooth g target <= 1.
Proof.
  intros Ht Hg. destruct constants as (HG & _ & Hk & _).
  assert (Hgfin : is_finite g = true).
  { apply (between_finite (decimal 1 1000) g 1); try apply Hg; reflexivity. }
  unfold smooth. apply std_clamp_range; [| reflexivity].
  apply fadd_not_nan; [exact Hgfin |].
  eapply fmul_not_nan_l; [exact Hk |].
  apply fsub_not_nan; assumption.
Qed.

Lemma engine_vad_number (st : DenoiseState) (frame : list float) :
  vad_is_number -> is_nan (engine_vad st frame) = false.
Proof. intros Hv. apply Hv. Qed.

Lemma invoke_in_range (s : RNNoiseWrapper) (m : method) :
  vad_is_number -> numeric_threshold m -> in_range s -> in_range (invoke s m).
Proof.
  intros Hv Hm (HT & HT01 & Hg).
  destruct m as [created | | frame | level | threshold | enabled];
    cbn [invoke].
  - unfold init, isInitialized, destroy.
    destruct (state_ s); (split; [exact HT | split; [exact HT01 |]]);
      split; reflexivity.
  - unfold destroy. destruct (state_ s); repeat split; try apply HT01;
      try apply Hg; exact HT.
  - destruct (processFrame_settings s frame) as (_ & _ & Ht' & _).
    unfold in_range. rewrite Ht', processFrame_gain.
    split; [exact HT |]. split; [exact HT01 |].
    destruct (state_ s) as [st |]; [| exact Hg].
    destruct (_ <=? 0); [exact Hg |].
    apply smooth_range; [| exact Hg].
    apply target_not_nan; try assumption. apply engine_vad_number. exact Hv.
  - split; [exact HT |]. split; [exact HT01 | exact Hg].
  - destruct Hm as [Hf Hn]. split; [| split; [| exact Hg]].
    + apply std_clamp_is_float; [exact Hf | reflexivity | reflexivity].
    + apply std_clamp_range; [exact Hn | reflexivity].
  - split; [exact HT |]. split; [exact HT01 | exact Hg].
Qed.

Lemma states_in_range (ms : list method) (s : RNNoiseWrapper) :
  vad_is_number -> Forall numeric_threshold ms -> in_range s ->
  Forall in_range (states s ms).
Proof.
  intros Hv Hms. revert s.
  induction Hms as [| m ms Hm _ IH]; intros s Hs; cbn [states].
  - constructor.
  - pose proof (invoke_in_range s m Hv Hm Hs) as Hs'.
    constructor; [exact Hs' | apply IH; exact Hs'].
Qed.

Lemma new_in_range : in_range RNNoiseWrapper_new.
Proof. repeat split. Qed.

(** C2, amended.  When the engine never reports NaN and the thresholds
    given to [setVadThreshold] are numbers, the smoothed gate gain is in
    [[0.001f, 1]] after every call of any sequence of calls on a new
    object, with any frames and any suppression levels.  [init] sets it
    to 1; the full path of [processFrame] computes
    [gain + 0.08f * (target - gain)] and stores 0.001f when that is below
    0.001f, 1 when it is above 1 and the value itself between the two;
    the other paths of [processFrame], [destroy] and the setters leave it
    as it is. *)
Theorem smooth_gain_invariant (ms : list method) :
  vad_is_number -> Forall numeric_threshold ms ->
  Forall (fun s => decimal 1 1000 <= smoothGain_ s <= 1)
    (states RNNoiseWrapper_new ms) /\
  (forall s created, smoothGain_ (fst (init created s)) = 1) /\
  (forall s st frame,
     state_ s = Some st -> 0 < suppressionLevel_ s ->
     let raw :=
       smoothGain_ s + decimal 8 100 *
         (targetGain (engine_vad st frame) (vadThreshold_ s) - smoothGain_ s) in
     let gain := smoothGain_ (fst (fst (processFrame s frame))) in
     (raw < decimal 1 1000 -> gain = decimal 1 1000) /\
     (1 < raw -> gain = 1) /\
     (decimal 1 1000 <= raw <= 1 -> gain = raw)) /\
  (forall s frame,
     state_ s = None \/ suppressionLevel_ s <= 0 ->
     smoothGain_ (fst (fst (processFrame s frame))) = smoothGain_ s) /\
  (forall s level threshold enabled,
     smoothGain_ (destroy s) = smoothGain_ s /\
     smoothGain_ (setSuppressionLevel level s) = smoothGain_ s /\
     smoothGain_ (setVadThreshold threshold s) = smoothGain_ s /\
     smoothGain_ (setComfortNoise enabled s) = smoothGain_ s).
Proof.
  intros Hv Hms. split; [| split; [| split; [| split]]].
  - pose proof (states_in_range ms _ Hv Hms new_in_range) as Hall.
    induction Hall as [| s l (_ & _ & Hg) _ IH]; constructor; assumption.
  - intros s created. reflexivity.
  - intros s st frame Hs Hlevel raw gain. subst gain.
    rewrite processFrame_gain, Hs, (flt_fle _ _ Hlevel).
    unfold smooth. fold raw.
    change kMinGateGain with (decimal 1 1000).
    change kGainSmoothCoeff with (decimal 8 100). fold raw.
    unfold std_clamp. split; [| split].
    + intros Hlo. rewrite Hlo. reflexivity.
    + intros Hhi.
      assert (Hnot : (raw <? decimal 1 1000) = false).
      { apply fle_flt. apply fle_trans with 1; [reflexivity |].
        apply flt_le. exact Hhi. }
      rewrite Hnot, Hhi. reflexivity.
    + intros [Hlo Hhi]. rewrite (fle_flt _ _ Hlo), (fle_flt _ _ Hhi).
      reflexivity.
  - intros s frame Hpath. rewrite processFrame_gain.
    destruct (state_ s) as [st |]; [| reflexivity].
    destruct Hpath as [Hnone | Hlevel]; [discriminate Hnone |].
    rewrite Hlevel. reflexivity.
  - intros s level threshold enabled. repeat split.
    unfold destroy. destruct (state_ s); reflexivity.
Qed.

(** ** Passthrough and the uninitialised object *)

Lemma sum_squares_fold (frame : list float) (sum : float) :
  sum_squares (length frame) frame sum
  = fold_left (fun sum x => sum + x * x) frame sum.
Proof.
  revert sum. induction frame as [| x rest IH]; intros sum; simpl.
  - reflexivity.
  - apply IH.
Qed.

Lemma computeRms_rms (frame : list float) :
  computeRms frame (length frame) = rms frame.
Proof. unfold computeRms, rms. rewrite sum_squares_fold. reflexivity. Qed.

(** C3. With the engine initialised and the suppression level at or below
    0, [processFrame] on a frame of 480 samples leaves the frame as it is
    and returns 0; [inputRms] and [outputRms] are the RMS of that frame,
    [vadProbability] is 0, [currentGain] is 1 and [framesProcessed] is
    incremented by 1 (as a [uint64_t]). *)
Theorem passthrough_when_off (s : RNNoiseWrapper) (st : DenoiseState)
    (frame : list float) :
  state_ s = Some st -> suppressionLevel_ s <= 0 -> length frame = 480%nat ->
  let s' := fst (fst (processFrame s frame)) in
  snd (fst (processFrame s frame)) = frame /\
  snd (processFrame s frame) = 0 /\
  inputRms (metrics_ s') = rms frame /\
  outputRms (metrics_ s') = rms frame /\
  vadProbability (metrics_ s') = 0 /\
  currentGain (metrics_ s') = 1 /\
  framesProcessed (metrics_ s') = wrap (framesProcessed (metrics_ s) + 1)%Z.
Proof.
  intros Hs Hlevel Hlen s'. subst s'.
  rewrite (processFrame_fast s st frame Hs Hlevel).
  cbn [fst snd metrics_ inputRms outputRms vadProbability currentGain
       framesProcessed].
  unfold kRNNoiseFrameSize. rewrite <- Hlen, computeRms_rms.
  repeat split.
Qed.

(** C8. When the engine handle is null, [processFrame] returns 0 and
    leaves the frame and the whole object, metrics and frame counter
    included, as they are; this is the case of a new object, after an
    [init] whose engine creation failed, and after [destroy]. *)
Theorem uninitialised_is_noop (s : RNNoiseWrapper) (frame : list float) :
  (state_ s = None -> processFrame s frame = (s, frame, 0)) /\
  processFrame RNNoiseWrapper_new frame = (RNNoiseWrapper_new, frame, 0) /\
  processFrame (fst (init None s)) frame = (fst (init None s), frame, 0) /\
  processFrame (destroy s) frame = (destroy s, frame, 0).
Proof.
  split; [apply processFrame_uninitialised |].
  split; [reflexivity |]. split; [reflexivity |].
  apply processFrame_uninitialised. unfold destroy.
  destruct (state_ s) eqn:Hs; [reflexivity | exact Hs].
Qed.

(** Any number of frames on the fast path. *)
Lemma passthrough_run (frames : list (list float)) (s : RNNoiseWrapper)
    (st : DenoiseState) :
  state_ s = Some st -> suppressionLevel_ s <= 0 ->
  let s1 := process_all s frames in
  state_ s1 = Some st /\
  suppressionLevel_ s1 = suppressionLevel_ s /\
  vadThreshold_ s1 = vadThreshold_ s /\
  smoothGain_ s1 = smoothGain_ s /\
  noiseState_ s1 = noiseState_ s /\
  (frames <> [] -> currentGain (metrics_ s1) = 1).
Proof.
  revert s. induction frames as [| frame frames IH]; intros s Hs Hl s1.
  - subst s1. simpl. repeat split; try assumption. intros Hne. contradiction.
  - subst s1. unfold process_all in *. cbn [fold_left].
    pose proof (processFrame_fast s st frame Hs Hl) as Hfast.
    set (s' := fst (fst (processFrame s frame))) in *.
    assert (Hs' : state_ s' = Some st) by (subst s'; rewrite Hfast; exact Hs).
    assert (Hl' : suppressionLevel_ s' = suppressionLevel_ s)
      by (subst s'; rewrite Hfast; reflexivity).
    assert (Ht' : vadThreshold_ s' = vadThreshold_ s)
      by (subst s'; rewrite Hfast; reflexivity).
    assert (Hg' : smoothGain_ s' = smoothGain_ s)
      by (subst s'; rewrite Hfast; reflexivity).
    assert (Hn' : noiseState_ s' = noiseState_ s)
      by (subst s'; rewrite Hfast; reflexivity).
    assert (Hc' : currentGain (metrics_ s') = 1)
      by (subst s'; rewrite Hfast; reflexivity).
    destruct (IH s' Hs') as (H1 & H2 & H3 & H4 & H5 & H6).
    { rewrite Hl'. exact Hl. }
    rewrite H2, H3, H4, H5, Hl', Ht', Hg', Hn'.
    repeat split; try assumption.
    intros _. destruct frames as [| next rest]; [exact Hc' |].
    apply H6. discriminate.
Qed.

(** C10. Frames processed on the fast path leave the smoothed gain and the
    state of the noise generator as they are, while 1 is reported as
    [currentGain]; when the level is then made positive, the next frame
    smooths from the gain kept, and that gain differs from the reported
    one whenever it was not 1. *)
Theorem fast_path_keeps_gate_state (s : RNNoiseWrapper) (st : DenoiseState)
    (frames : list (list float)) :
  state_ s = Some st -> suppressionLevel_ s <= 0 -> frames <> [] ->
  let s1 := process_all s frames in
  smoothGain_ s1 = smoothGain_ s /\
  noiseState_ s1 = noiseState_ s /\
  currentGain (metrics_ s1) = 1 /\
  (forall level next,
     0 < level ->
     smoothGain_ (fst (fst (processFrame (setSuppressionLevel level s1) next))) =
       smooth (smoothGain_ s)
         (targetGain (engine_vad st next) (vadThreshold_ s))) /\
  (smoothGain_ s <> 1 -> smoothGain_ s1 <> currentGain (metrics_ s1)).
Proof.
  intros Hs Hlevel Hne s1.
  destruct (passthrough_run frames s st Hs Hlevel) as (Hs1 & _ & Ht & Hg & Hn & Hc).
  fold s1 in Hs1, Ht, Hg, Hn, Hc. specialize (Hc Hne).
  split; [exact Hg |]. split; [exact Hn |]. split; [exact Hc |].
  split; [| rewrite Hg, Hc; intros Hdiff; exact Hdiff].
  intros level next Hpos. rewrite processFrame_gain.
  cbn [setSuppressionLevel state_ suppressionLevel_ vadThreshold_ smoothGain_].
  rewrite Hs1, Hg, Ht.
  assert (Hclamped : 0 < std_clamp level 0 1).
  { unfold std_clamp. rewrite (flt_asym _ _ Hpos).
    destruct (1 <? level); [reflexivity | exact Hpos]. }
  rewrite (flt_fle _ _ Hclamped). reflexivity.
Qed.

(** ** Comfort noise *)

Lemma for_each_length (n : nat) (f : float -> float) (frame : list float) :
  length (for_each n f frame) = length frame.
Proof.
  revert frame. induction n as [| n IH]; intros [| x rest]; simpl; auto.
Qed.

Lemma store_length (n : nat) (out frame : list float) :
  length (store n out frame) = length frame.
Proof.
  revert out frame. induction n as [| n IH]; intros out [| x rest]; simpl; auto.
Qed.

Lemma blend_length (n : nat) (level dry : float) (frame original : list float) :
  length (blend n level dry frame original) = length frame.
Proof.
  revert frame original.
  induction n as [| n IH]; intros [| x rest] [| o orest]; simpl; auto.
Qed.

Lemma gate_length (s : RNNoiseWrapper) (st : DenoiseState) (frame : list float) :
  length (snd (fst (fst (gate s st frame)))) = length frame.
Proof.
  unfold gate. destruct (rnnoise_process_frame _ _) as [[st' out] vad].
  cbn [fst snd]. rewrite for_each_length.
  destruct (_ <? 1);
    rewrite ?blend_length, for_each_length, store_length, for_each_length;
    reflexivity.
Qed.

Lemma lxor_range (n a b : Z) :
  (0 <= n -> 0 <= a < 2 ^ n -> 0 <= b < 2 ^ n -> 0 <= Z.lxor a b < 2 ^ n)%Z.
Proof.
  intros Hn Ha Hb.
  assert (H0 : (0 <= Z.lxor a b)%Z) by (apply Z.lxor_nonneg; lia).
  split; [exact H0 |].
  destruct (Z.eq_dec (Z.lxor a b) 0) as [Hz | Hnz].
  - rewrite Hz. apply Z.pow_pos_nonneg; lia.
  - apply Z.log2_lt_pow2; [lia |].
    apply Z.le_lt_trans with (Z.max (Z.log2 a) (Z.log2 b)).
    + apply Z.log2_lxor; lia.
    + destruct (Z.eq_dec a 0) as [-> | Ha0];
        destruct (Z.eq_dec b 0) as [-> | Hb0].
      * simpl in Hnz. contradiction.
      * rewrite Z.max_r by (simpl; apply Z.log2_nonneg).
        apply Z.log2_lt_pow2; lia.
      * rewrite Z.max_l by (simpl; apply Z.log2_nonneg).
        apply Z.log2_lt_pow2; lia.
      * apply Z.max_lub_lt; apply Z.log2_lt_pow2; lia.
Qed.

Lemma xorshift32_range (x : Z) :
  (0 <= x < 2 ^ 32 -> 0 <= xorshift32 x < 2 ^ 32)%Z.
Proof.
  intros Hx. unfold xorshift32, wrap32.
  assert (Hmod : forall y, (0 <= y mod 2 ^ 32 < 2 ^ 32)%Z).
  { intros y. apply Z.mod_pos_bound. reflexivity. }
  assert (Hshr : forall y, (0 <= y < 2 ^ 32 -> 0 <= Z.shiftr y 17 < 2 ^ 32)%Z).
  { intros y Hy. rewrite Z.shiftr_div_pow2 by lia. split.
    - apply Z.div_pos; lia.
    - apply Z.le_lt_trans with y; [| lia].
      apply Z.div_le_upper_bound; lia. }
  set (x1 := Z.lxor x (Z.shiftl x 13 mod 2 ^ 32)).
  assert (H1 : (0 <= x1 < 2 ^ 32)%Z) by (apply lxor_range; [lia | lia | apply Hmod]).
  set (x2 := Z.lxor x1 (Z.shiftr x1 17)).
  assert (H2 : (0 <= x2 < 2 ^ 32)%Z) by (apply lxor_range; [lia | lia | apply Hshr; lia]).
  apply lxor_range; [lia | lia | apply Hmod].
Qed.

Lemma xorshift32_iter_range (n : nat) (x : Z) :
  (0 <= x < 2 ^ 32 -> 0 <= Nat.iter n xorshift32 x < 2 ^ 32)%Z.
Proof.
  intros Hx. induction n as [| n IH]; [exact Hx |].
  rewrite Nat.iter_succ. apply xorshift32_range. exact IH.
Qed.

Lemma to_int32_as_int32 (x : Z) :
  (0 <= x < 2 ^ 32)%Z -> as_int32 x (to_int32 x).
Proof.
  intros Hx. unfold as_int32, to_int32.
  destruct (Z.ltb_spec x (2 ^ 31)).
  - split; [lia |]. rewrite Z.sub_diag. reflexivity.
  - split; [lia |]. replace (x - 2 ^ 32 - x)%Z with (-1 * 2 ^ 32)%Z by lia.
    apply Z.mod_mul. lia.
Qed.

Lemma as_int32_unique (x v w : Z) : as_int32 x v -> as_int32 x w -> v = w.
Proof.
  intros [Hv Hvx] [Hw Hwx].
  apply Z.mod_divide in Hvx; [| lia]. apply Z.mod_divide in Hwx; [| lia].
  destruct Hvx as [a Ha]. destruct Hwx as [b Hb]. lia.
Qed.

Lemma comfort_loop_spec (n : nat) (scale : float) (x : Z) (frame : list float) :
  (n <= length frame)%nat ->
  let out := fst (comfort_loop n scale x frame) in
  length out = length frame /\
  snd (comfort_loop n scale x frame) = Nat.iter n xorshift32 x /\
  forall i, (i < n)%nat ->
    nth i out 0 =
      nth i frame 0 +
      of_Z (to_int32 (Nat.iter (S i) xorshift32 x)) / of_Z 2147483648
        * kComfortNoiseLevel * scale.
Proof.
  revert x frame. induction n as [| n IH]; intros x frame Hn out.
  - subst out. destruct frame; simpl.
    + split; [reflexivity |]. split; [reflexivity |]. intros i Hi. lia.
    + split; [reflexivity |]. split; [reflexivity |]. intros i Hi. lia.
  - destruct frame as [| v rest]; [simpl in Hn; lia |].
    simpl in Hn. subst out. cbn [comfort_loop]. unfold comfortNoiseSample.
    destruct (IH (xorshift32 x) rest ltac:(lia)) as (Hlen & Hst & Hval).
    destruct (comfort_loop n scale (xorshift32 x) rest) as [rest' x'].
    cbn [fst snd length] in Hlen, Hst, Hval |- *.
    split; [rewrite Hlen; reflexivity |].
    split; [rewrite Hst; apply Nat.iter_swap |].
    intros [| i] Hi.
    + reflexivity.
    + cbn [nth]. rewrite Hval by lia. rewrite Nat.iter_swap. reflexivity.
Qed.

(** C7. On the full path, with a frame of 480 samples and a generator
    state that is a [uint32_t]: when comfort noise is enabled and the
    smoothed gain [g] is below 0.1f, output sample [i] is the
    gain-multiplied sample [i] plus the value of draw [i + 1] of the
    xorshift32 generator (the state read as a signed 32-bit integer [v],
    converted to [float], over [2 ^ 31], times 0.001f) times
    [(0.1f - g) / 0.1f], and the generator has advanced by 480 draws; when
    comfort noise is disabled the output is the gain-multiplied frame and
    the generator state is unchanged. *)
Theorem comfort_noise_injection (s : RNNoiseWrapper) (st : DenoiseState)
    (frame : list float) :
  state_ s = Some st -> 0 < suppressionLevel_ s ->
  length frame = kRNNoiseFrameSize ->
  (0 <= noiseState_ s < 2 ^ 32)%Z ->
  let s' := fst (fst (processFrame s frame)) in
  let out := snd (fst (processFrame s frame)) in
  let g := smoothGain_ s' in
  let gated := snd (fst (fst (gate s st frame))) in
  (forall x,
     xorshift32 x =
       let x1 := Z.lxor x (Z.shiftl x 13 mod 2 ^ 32) in
       let x2 := Z.lxor x1 (Z.shiftr x1 17) in
       Z.lxor x2 (Z.shiftl x2 5 mod 2 ^ 32)) /\
  (comfortNoiseEnabled_ s = true -> g < decimal 1 10 ->
   length out = kRNNoiseFrameSize /\
   (forall i, (i < kRNNoiseFrameSize)%nat ->
      exists v,
        as_int32 (Nat.iter (S i) xorshift32 (noiseState_ s)) v /\
        nth i out 0 =
          nth i gated 0 +
          of_Z v / of_Z (2 ^ 31) * decimal 1 1000
            * ((decimal 1 10 - g) / decimal 1 10)) /\
   noiseState_ s' = Nat.iter kRNNoiseFrameSize xorshift32 (noiseState_ s)) /\
  (comfortNoiseEnabled_ s = false ->
   out = gated /\ noiseState_ s' = noiseState_ s).
Proof.
  intros Hs Hlevel Hlen Hns s' out g gated. subst s' out g.
  rewrite (processFrame_full s st frame Hs (flt_fle _ _ Hlevel)).
  cbn [fst snd smoothGain_ noiseState_]. fold gated.
  split; [intros x; reflexivity |].
  unfold comfort. split.
  - intros Hon Hlow.
    rewrite Hon, Hlow. cbn [andb].
    destruct (comfort_loop_spec kRNNoiseFrameSize
                ((decimal 1 10 - snd (gate s st frame)) / decimal 1 10)
                (noiseState_ s) gated)
      as (Hl & Hst & Hval).
    { subst gated. rewrite gate_length, Hlen. apply Nat.le_refl. }
    split; [rewrite Hl; subst gated; rewrite gate_length; exact Hlen |].
    split; [| exact Hst].
    intros i Hi.
    exists (to_int32 (Nat.iter (S i) xorshift32 (noiseState_ s))).
    split.
    + apply to_int32_as_int32. apply xorshift32_iter_range. exact Hns.
    + apply Hval. exact Hi.
  - intros Hoff. rewrite Hoff. cbn [andb fst snd]. split; reflexivity.
Qed.

(** ** Closing the gate *)






(** ** Settings, re-initialisation and the frame counter *)

Lemma invoke_settings_range (s : RNNoiseWrapper) (m : method) :
  numeric m ->
  0 <= suppressionLevel_ s <= 1 /\ 0 <= vadThreshold_ s <= 1 ->
  0 <= suppressionLevel_ (invoke s m) <= 1 /\
  0 <= vadThreshold_ (invoke s m) <= 1.
Proof.
  intros Hm [Hl Ht].
  destruct m as [created | | frame | level | threshold | enabled];
    cbn [invoke].
  - unfold init, isInitialized, destroy. destruct (state_ s); split; assumption.
  - unfold destroy. destruct (state_ s); split; assumption.
  - destruct (processFrame_settings s frame) as (_ & Hl' & Ht' & _).
    rewrite Hl', Ht'. split; assumption.
  - split; [apply std_clamp_range; [exact Hm | reflexivity] | exact Ht].
  - split; [exact Hl | apply std_clamp_range; [exact Hm | reflexivity]].
  - split; assumption.
Qed.

(** X6. When the numbers given to the setters are not NaN, the
    suppression level and the VAD threshold are in [[0, 1]] after every
    call of any sequence of calls on a new object.  A setter stores its
    argument when it is in [[0, 1]], 0 when it is below 0, 1 when it is
    above 1, and NaN when it is NaN; the getter returns what is stored. *)
Theorem settings_stay_in_range (ms : list method) :
  Forall numeric ms ->
  Forall
    (fun s => 0 <= getSuppressionLevel s <= 1 /\ 0 <= getVadThreshold s <= 1)
    (states RNNoiseWrapper_new ms) /\
  (forall s v,
     (0 <= v <= 1 -> getSuppressionLevel (setSuppressionLevel v s) = v /\
                     getVadThreshold (setVadThreshold v s) = v) /\
     (v < 0 -> getSuppressionLevel (setSuppressionLevel v s) = 0 /\
               getVadThreshold (setVadThreshold v s) = 0) /\
     (1 < v -> getSuppressionLevel (setSuppressionLevel v s) = 1 /\
               getVadThreshold (setVadThreshold v s) = 1) /\
     (is_nan v = true ->
      is_nan (getSuppressionLevel (setSuppressionLevel v s)) = true /\
      is_nan (getVadThreshold (setVadThreshold v s)) = true)).
Proof.
  intros Hms. split.
  - assert (Hgen : forall s,
      0 <= suppressionLevel_ s <= 1 /\ 0 <= vadThreshold_ s <= 1 ->
      Forall (fun s' => 0 <= getSuppressionLevel s' <= 1 /\
                        0 <= getVadThreshold s' <= 1) (states s ms)).
    { induction Hms as [| m ms Hm _ IH]; intros s Hs; cbn [states];
        [constructor |].
      pose proof (invoke_settings_range s m Hm Hs) as Hs'.
      constructor; [exact Hs' | apply IH; exact Hs']. }
    apply Hgen. repeat split.
  - intros s v. unfold getSuppressionLevel, getVadThreshold.
    cbn [setSuppressionLevel setVadThreshold suppressionLevel_ vadThreshold_].
    unfold std_clamp. split; [| split; [| split]].
    + intros [H0 H1]. rewrite (fle_flt _ _ H0), (fle_flt _ _ H1).
      split; reflexivity.
    + intros H0. rewrite H0. split; reflexivity.
    + intros H1.
      assert (H0 : (v <? 0) = false).
      { apply flt_asym. apply flt_trans with 1; [reflexivity | exact H1]. }
      rewrite H0, H1. split; reflexivity.
    + intros Hn. rewrite (flt_nan_l v 0 Hn), (flt_nan_r 1 v Hn).
      split; exact Hn.
Qed.

Lemma process_all_settings (frames : list (list float)) (s : RNNoiseWrapper) :
  isInitialized (process_all s frames) = isInitialized s /\
  suppressionLevel_ (process_all s frames) = suppressionLevel_ s /\
  vadThreshold_ (process_all s frames) = vadThreshold_ s /\
  comfortNoiseEnabled_ (process_all s frames) = comfortNoiseEnabled_ s.
Proof.
  revert s. induction frames as [| frame frames IH]; intros s.
  - repeat split.
  - unfold process_all in *. cbn [fold_left].
    destruct (IH (fst (fst (processFrame s frame)))) as (H1 & H2 & H3 & H4).
    destruct (processFrame_settings s frame) as (G1 & G2 & G3 & G4).
    rewrite H1, H2, H3, H4, G1, G2, G3, G4. repeat split.
Qed.

(** X7. [init] after any number of processed frames gives the object and
    the result that [init] gives before them: the settings survive, and
    gain, noise generator, metrics and frame counter start afresh. *)
Theorem init_forgets_frames (s : RNNoiseWrapper)
    (created : option DenoiseState) (frames : list (list float)) :
  init created (process_all s frames) = init created s /\
  smoothGain_ (fst (init created s)) = 1 /\
  noiseState_ (fst (init created s)) = 0x12345678%Z /\
  metrics_ (fst (init created s)) = mkAudioMetrics 0 0 0 1 0%Z /\
  suppressionLevel_ (fst (init created s)) = suppressionLevel_ s /\
  vadThreshold_ (fst (init created s)) = vadThreshold_ s /\
  comfortNoiseEnabled_ (fst (init created s)) = comfortNoiseEnabled_ s /\
  isInitialized (fst (init created s))
    = match created with Some _ => true | None => false end.
Proof.
  assert (Hkeep : forall t : RNNoiseWrapper,
    suppressionLevel_ (if isInitialized t then destroy t else t)
      = suppressionLevel_ t /\
    vadThreshold_ (if isInitialized t then destroy t else t)
      = vadThreshold_ t /\
    comfortNoiseEnabled_ (if isInitialized t then destroy t else t)
      = comfortNoiseEnabled_ t).
  { intros t. unfold isInitialized, destroy.
    destruct (state_ t); repeat split. }
  destruct (process_all_settings frames s) as (_ & H2 & H3 & H4).
  destruct (Hkeep s) as (K1 & K2 & K3).
  destruct (Hkeep (process_all s frames)) as (L1 & L2 & L3).
  unfold init. cbn [fst snd smoothGain_ noiseState_ metrics_ suppressionLevel_
                    vadThreshold_ comfortNoiseEnabled_ isInitialized state_].
  rewrite L1, L2, L3, K1, K2, K3, H2, H3, H4.
  repeat split.
Qed.

(** X8. While the engine is initialised every processed frame, on the
    fast path or the full path, adds one to [framesProcessed]: after [n]
    frames the counter is the old value plus [n], modulo [2 ^ 64]. *)
Theorem frames_are_counted (s : RNNoiseWrapper) (frames : list (list float)) :
  isInitialized s = true ->
  (0 <= framesProcessed (metrics_ s) < size_modulus)%Z ->
  framesProcessed (metrics_ (process_all s frames))
  = wrap (framesProcessed (metrics_ s) + Z.of_nat (length frames))%Z.
Proof.
  revert s. induction frames as [| frame frames IH]; intros s Hi Hfp.
  - simpl. rewrite Z.add_0_r, wrap_small by exact Hfp. reflexivity.
  - unfold process_all in *. cbn [fold_left length].
    set (s' := fst (fst (processFrame s frame))).
    assert (Hi' : isInitialized s' = true).
    { subst s'. rewrite (proj1 (processFrame_settings s frame)). exact Hi. }
    assert (Hstep : framesProcessed (metrics_ s')
                    = wrap (framesProcessed (metrics_ s) + 1)%Z).
    { subst s'. destruct (initialised_state s Hi) as [st Hs].
      destruct (suppressionLevel_ s <=? 0) eqn:Hl.
      - rewrite (processFrame_fast s st frame Hs Hl). reflexivity.
      - rewrite (processFrame_full s st frame Hs Hl). reflexivity. }
    rewrite (IH s' Hi') by (rewrite Hstep; apply wrap_range).
    rewrite Hstep, wrap_add_l. f_equal. lia.
Qed.

Lemma comfort_loop_length (n : nat) (scale : float) (x : Z)
    (frame : list float) :
  length (fst (comfort_loop n scale x frame)) = length frame.
Proof.
  revert n x. induction frame as [| v rest IH]; intros n x.
  - destruct n; reflexivity.
  - destruct n as [| n]; [reflexivity |]. cbn [comfort_loop].
    unfold comfortNoiseSample.
    specialize (IH n (xorshift32 x)).
    destruct (comfort_loop n scale (xorshift32 x) rest) as [rest' x'].
    cbn [fst length] in IH |- *. rewrite IH. reflexivity.
Qed.

Lemma comfort_length (enabled : bool) (g : float) (x : Z) (frame : list float) :
  length (fst (comfort enabled g x frame)) = length frame.
Proof.
  unfold comfort. destruct (_ && _); [apply comfort_loop_length | reflexivity].
Qed.

(** X9. [processFrame] returns a frame of the length it was given, on
    every path. *)
Theorem processFrame_keeps_length (s : RNNoiseWrapper) (frame : list float) :
  length (snd (fst (processFrame s frame))) = length frame.
Proof.
  destruct (state_ s) as [st |] eqn:Hs.
  - destruct (suppressionLevel_ s <=? 0) eqn:Hl.
    + rewrite (processFrame_fast s st frame Hs Hl). reflexivity.
    + rewrite (processFrame_full s st frame Hs Hl). cbn [fst snd].
      rewrite comfort_length. apply gate_length.
  - rewrite (processFrame_uninitialised s frame Hs). reflexivity.
Qed.

(** ** The noise generator *)

Lemma shiftl_fixpoint (x k : Z) :
  (0 <= x < 2 ^ 32 -> 0 <= k -> Z.gcd (2 ^ 32) (2 ^ k - 1) = 1 ->
   Z.lxor x (wrap32 (Z.shiftl x k)) = 0 -> x = 0)%Z.
Proof.
  intros Hx Hk Hg Hxor. apply Z.lxor_eq in Hxor. unfold wrap32 in Hxor.
  rewrite Z.shiftl_mul_pow2 in Hxor by exact Hk.
  assert (Hdiv : (2 ^ 32 | (2 ^ k - 1) * x)%Z).
  { exists (x * 2 ^ k / 2 ^ 32)%Z.
    pose proof (Z.div_mod (x * 2 ^ k) (2 ^ 32)) as Hdm.
    rewrite <- Hxor in Hdm. lia. }
  apply Z.gauss in Hdiv; [| exact Hg].
  destruct Hdiv as [q Hq].
  destruct (Z.eq_dec q 0) as [-> | Hq0]; [lia |].
  assert (q < 0 \/ 1 <= q)%Z as [Hneg | Hpos] by lia; nia.
Qed.

Lemma shiftr_fixpoint (x : Z) :
  (0 <= x -> Z.lxor x (Z.shiftr x 17) = 0 -> x = 0)%Z.
Proof.
  intros Hx Hxor. apply Z.lxor_eq in Hxor.
  rewrite Z.shiftr_div_pow2 in Hxor by lia.
  destruct (Z.eq_dec x 0) as [Hz | Hnz]; [exact Hz |].
  assert (Hlt : (x / 2 ^ 17 < x)%Z) by (apply Z.div_lt; lia).
  lia.
Qed.

Lemma xorshift32_zero (x : Z) :
  (0 <= x < 2 ^ 32 -> xorshift32 x = 0 -> x = 0)%Z.
Proof.
  intros Hx. unfold xorshift32.
  assert (Hmod : forall y, (0 <= wrap32 y < 2 ^ 32)%Z).
  { intros y. apply Z.mod_pos_bound. reflexivity. }
  set (x1 := Z.lxor x (wrap32 (Z.shiftl x 13))).
  assert (H1 : (0 <= x1 < 2 ^ 32)%Z) by (apply lxor_range; [lia | lia | apply Hmod]).
  set (x2 := Z.lxor x1 (Z.shiftr x1 17)).
  assert (H2 : (0 <= x2 < 2 ^ 32)%Z).
  { apply lxor_range; [lia | lia |].
    rewrite Z.shiftr_div_pow2 by lia. split.
    - apply Z.div_pos; lia.
    - apply Z.le_lt_trans with x1; [| lia].
      apply Z.div_le_upper_bound; lia. }
  intros H3.
  apply shiftl_fixpoint in H3; [| exact H2 | lia | reflexivity].
  apply shiftr_fixpoint in H3; [| lia].
  apply shiftl_fixpoint in H3; [exact H3 | exact Hx | lia | reflexivity].
Qed.

Lemma xorshift32_alive (x : Z) :
  (0 < x < 2 ^ 32 -> 0 < xorshift32 x < 2 ^ 32)%Z.
Proof.
  intros Hx. pose proof (xorshift32_range x ltac:(lia)) as Hr.
  destruct (Z.eq_dec (xorshift32 x) 0) as [Hz | Hnz]; [| lia].
  apply xorshift32_zero in Hz; lia.
Qed.

Lemma comfort_loop_alive (frame : list float) (n : nat) (scale : float)
    (x : Z) :
  (0 < x < 2 ^ 32 -> 0 < snd (comfort_loop n scale x frame) < 2 ^ 32)%Z.
Proof.
  revert n x. induction frame as [| a rest IH]; intros n x Hx.
  - destruct n; exact Hx.
  - destruct n as [| n']; [exact Hx |].
    cbn [comfort_loop]. unfold comfortNoiseSample.
    pose proof (IH n' (xorshift32 x) (xorshift32_alive x Hx)) as Hrest.
    destruct (comfort_loop n' scale (xorshift32 x) rest) as [rest' x'].
    exact Hrest.
Qed.

Lemma processFrame_alive (s : RNNoiseWrapper) (frame : list float) :
  (0 < noiseState_ s < 2 ^ 32 ->
   0 < noiseState_ (fst (fst (processFrame s frame))) < 2 ^ 32)%Z.
Proof.
  intros Hx. unfold processFrame.
  destruct (state_ s) as [st |]; [| exact Hx].
  destruct (suppressionLevel_ s <=? 0); [exact Hx |].
  destruct (gate s st frame) as [[[st' gated] vad] g].
  pose proof (comfort_loop_alive gated kRNNoiseFrameSize ((decimal 1 10 - g) / decimal 1 10)
                (noiseState_ s) Hx) as Hloop.
  unfold comfort.
  destruct (comfortNoiseEnabled_ s && (g <? decimal 1 10)).
  - destruct (comfort_loop kRNNoiseFrameSize ((decimal 1 10 - g) / decimal 1 10)
                (noiseState_ s) gated) as [out x'].
    exact Hloop.
  - exact Hx.
Qed.

Lemma invoke_alive (s : RNNoiseWrapper) (m : method) :
  (0 < noiseState_ s < 2 ^ 32 -> 0 < noiseState_ (invoke s m) < 2 ^ 32)%Z.
Proof.
  intros Hx.
  destruct m as [created | | frame | level | threshold | enabled];
    try exact Hx.
  - unfold invoke, init. destruct created; cbn [fst noiseState_]; lia.
  - unfold invoke, destroy. destruct (state_ s); exact Hx.
  - apply processFrame_alive. exact Hx.
Qed.

(** X13. The comfort-noise generator never stops: its three xor-shift
    updates send no nonzero 32-bit state to 0, so after every call of any
    sequence of calls on a new object [noiseState_] is a nonzero 32-bit
    value (state 0 would make every later noise sample 0). *)
Theorem noise_generator_never_stops (ms : list method) :
  (forall x, 0 < x < 2 ^ 32 -> 0 < xorshift32 x < 2 ^ 32)%Z /\
  xorshift32 0 = 0%Z /\
  Forall (fun s => (0 < noiseState_ s < 2 ^ 32)%Z)
    (states RNNoiseWrapper_new ms).
Proof.
  split; [exact xorshift32_alive |]. split; [reflexivity |].
  assert (Hgen : forall ms' s,
    (0 < noiseState_ s < 2 ^ 32)%Z ->
    Forall (fun s' => (0 < noiseState_ s' < 2 ^ 32)%Z) (states s ms')).
  { induction ms' as [| m ms' IH]; intros s Hs; simpl; [constructor |].
    pose proof (invoke_alive s m Hs) as Hs'.
    constructor; [exact Hs' | apply IH; exact Hs']. }
  apply Hgen. simpl. lia.
Qed.


(** ** The samples of the full path *)

Lemma for_each_nth (f : float -> float) (frame : list float) (n i : nat) :
  (i < n)%nat -> (i < length frame)%nat ->
  nth i (for_each n f frame) 0 = f (nth i frame 0).
Proof.
  revert n i. induction frame as [| x rest IH]; intros n i Hn Hi.
  - simpl in Hi. lia.
  - destruct n as [| n']; [lia |]. destruct i as [| i']; [reflexivity |].
    simpl in Hi. cbn [for_each nth]. apply IH; lia.
Qed.

Lemma store_nth (frame out : list float) (n i : nat) :
  (i < n)%nat -> (i < length frame)%nat ->
  nth i (store n out frame) 0 = nth i out 0.
Proof.
  revert out n i. induction frame as [| x rest IH]; intros out n i Hn Hi.
  - simpl in Hi. lia.
  - destruct n as [| n']; [lia |]. simpl in Hi.
    destruct i as [| i'].
    + destruct out; reflexivity.
    + cbn [store nth]. rewrite IH by lia. destruct out; [| reflexivity].
      destruct i'; reflexivity.
Qed.

Lemma blend_nth (level dry : float)
    (frame original : list float) (n i : nat) :
  (i < n)%nat -> (i < length frame)%nat -> (i < length original)%nat ->
  nth i (blend n level dry frame original) 0
  = nth i frame 0 * level + nth i original 0 * dry.
Proof.
  revert original n i.
  induction frame as [| x rest IH]; intros original n i Hn Hi Ho.
  - simpl in Hi. lia.
  - destruct original as [| o orest]; [simpl in Ho; lia |].
    destruct n as [| n']; [lia |]. destruct i as [| i']; [reflexivity |].
    simpl in Hi, Ho. cbn [blend nth]. apply IH; lia.
Qed.

(** X14. On the full path with comfort noise off and a frame of 480
    samples, output sample [i] is, with every operation rounded to
    [float]: when the level is below 1, the mix
    [(engine sample * (1/32767) * level + input sample * (1 - level))]
    times the new gate gain; otherwise the engine sample times
    [(1/32767)] times the new gate gain. *)
Theorem output_is_gated_mix (s : RNNoiseWrapper) (st : DenoiseState)
    (frame : list float) :
  state_ s = Some st ->
  0 < suppressionLevel_ s ->
  comfortNoiseEnabled_ s = false ->
  length frame = kRNNoiseFrameSize ->
  let level := suppressionLevel_ s in
  let wet :=
    snd (fst (rnnoise_process_frame st
                (for_each kRNNoiseFrameSize (fun x => x * of_Z 32767) frame))) in
  let out := snd (fst (processFrame s frame)) in
  let gain := smoothGain_ (fst (fst (processFrame s frame))) in
  forall i, (i < kRNNoiseFrameSize)%nat ->
    (level < 1 ->
     nth i out 0
     = (nth i wet 0 * (1 / of_Z 32767) * level
        + nth i frame 0 * (1 - level)) * gain) /\
    ((level <? 1) = false ->
     nth i out 0 = nth i wet 0 * (1 / of_Z 32767) * gain).
Proof.
  intros Hs Hpos Hoff Hlen level wet out gain i Hi.
  subst out gain wet.
  rewrite (processFrame_full s st frame Hs (flt_fle _ _ Hpos)).
  cbn [fst snd smoothGain_]. unfold comfort. rewrite Hoff.
  cbn [andb fst snd]. unfold gate. fold level.
  destruct (rnnoise_process_frame st _) as [[st' eng] vad].
  cbn [fst snd].
  set (g := smooth (smoothGain_ s) (targetGain vad (vadThreshold_ s))).
  change kInvScale with (1 / of_Z 32767).
  assert (Hscaled : forall j, (j < kRNNoiseFrameSize)%nat ->
    nth j (for_each kRNNoiseFrameSize (fun x => x * (1 / of_Z 32767))
             (store kRNNoiseFrameSize eng
                (for_each kRNNoiseFrameSize (fun x => x * of_Z 32767) frame))) 0
    = nth j eng 0 * (1 / of_Z 32767)).
  { intros j Hj.
    rewrite for_each_nth;
      [| exact Hj | rewrite store_length, for_each_length, Hlen; exact Hj].
    rewrite store_nth; [| exact Hj | rewrite for_each_length, Hlen; exact Hj].
    reflexivity. }
  split.
  - intros Hlt. rewrite Hlt.
    rewrite for_each_nth;
      [| exact Hi
       | rewrite blend_length, for_each_length, store_length,
           for_each_length, Hlen; exact Hi].
    rewrite blend_nth;
      [| exact Hi
       | rewrite for_each_length, store_length, for_each_length, Hlen;
         exact Hi
       | rewrite Hlen; exact Hi].
    rewrite Hscaled by exact Hi. reflexivity.
  - intros Hge. rewrite Hge.
    rewrite for_each_nth;
      [| exact Hi
       | rewrite for_each_length, store_length, for_each_length, Hlen;
         exact Hi].
    rewrite Hscaled by exact Hi. reflexivity.
Qed.

(** X16. On the full path with a frame of 480 samples the metrics describe
    the call: [inputRms] is the RMS of the frame given, [outputRms] the RMS
    of the frame returned (after gate and comfort noise), [vadProbability]
    the value returned, which is the engine's probability, [currentGain]
    the gate gain now stored, and [framesProcessed] is incremented by 1
    (as a [uint64_t]). *)
Theorem full_path_metrics (s : RNNoiseWrapper) (st : DenoiseState)
    (frame : list float) :
  state_ s = Some st -> 0 < suppressionLevel_ s ->
  length frame = kRNNoiseFrameSize ->
  let s' := fst (fst (processFrame s frame)) in
  let out := snd (fst (processFrame s frame)) in
  let vad := snd (processFrame s frame) in
  inputRms (metrics_ s') = rms frame /\
  outputRms (metrics_ s') = rms out /\
  vadProbability (metrics_ s') = vad /\
  vad = engine_vad st frame /\
  currentGain (metrics_ s') = smoothGain_ s' /\
  framesProcessed (metrics_ s') = wrap (framesProcessed (metrics_ s) + 1)%Z.
Proof.
  intros Hs Hlevel Hlen s' out vad. subst s' out vad.
  rewrite (processFrame_full s st frame Hs (flt_fle _ _ Hlevel)).
  cbn [fst snd metrics_ smoothGain_ inputRms outputRms vadProbability
       currentGain framesProcessed].
  split; [rewrite <- Hlen; apply computeRms_rms |].
  split.
  { rewrite <- Hlen at 1.
    rewrite <- (gate_length s st frame).
    rewrite <- (comfort_length (comfortNoiseEnabled_ s) (snd (gate s st frame))
                  (noiseState_ s) (snd (fst (fst (gate s st frame))))).
    apply computeRms_rms. }
  split; [reflexivity |]. split; [apply gate_vad |].
  split; reflexivity.
Qed.

(** ** The RMS is a number *)

Lemma sum_squares_signed (buf : list float) (len : nat) (sum : float) :
  Forall (fun x => is_nan x = false) buf -> signed false sum ->
  signed false (sum_squares len buf sum).
Proof.
  intros Hall. revert len sum.
  induction Hall as [| x rest Hx _ IH]; intros len sum Hsum.
  - destruct len; exact Hsum.
  - destruct len as [| len']; [exact Hsum |]. cbn [sum_squares].
    apply IH. apply fadd_signed; [exact Hsum |].
    apply fmul_square_signed. exact Hx.
Qed.

(** X17. [computeRms] over the first [len > 0] samples of a buffer that
    holds no NaN is a number, and it is not negative: the sum of squares
    may overflow to infinity, but the square root is never taken of a
    negative value. *)
Theorem rms_is_a_number (buf : list float) (len : nat) :
  Forall (fun x => is_nan x = false) buf ->
  (0 < len)%nat -> (Z.of_nat len < 2 ^ 64)%Z ->
  is_nan (computeRms buf len) = false /\ 0 <= computeRms buf len.
Proof.
  intros Hall Hlen Hfit.
  destruct (of_Z_pos (Z.of_nat len) ltac:(lia)) as (m & e & Hn).
  assert (Hs : signed false (computeRms buf len)).
  { unfold computeRms. apply fsqrt_signed.
    eapply fdiv_signed; [| exact Hn].
    apply sum_squares_signed; [exact Hall | reflexivity]. }
  split; [eapply signed_not_nan; exact Hs | apply signed_false_nonneg; exact Hs].
Qed.

(** ** Opening the gate *)

Lemma smooth_opening (g : float) :
  is_float g -> decimal 1 1000 <= g <= 1 ->
  let g' := smooth g 1 in
  g <= g' /\ decimal 1 1000 <= g' <= 1 /\ is_float g'.
Proof.
  intros Hg [Hlo Hhi] g'.
  destruct constants as (HG & _ & Hk & _ & H1 & _).
  destruct (between_pos_finite _ g _ _ _ _ _ HG H1 Hlo Hhi) as (mg & eg & Eg).
  subst g'. unfold smooth. change kMinGateGain with (decimal 1 1000).
  set (d := 1 - g).
  assert (Hd : signed false d).
  { subst d. eapply fsub_nonneg; [exact H1 | exact Eg | | exact Hg | exact Hhi].
    reflexivity. }
  set (p := kGainSmoothCoeff * d).
  assert (Hp : signed false p) by (subst p; eapply fmul_pos_nonneg; [exact Hk | exact Hd]).
  set (r := g + p).
  assert (Hr : g <= r) by (subst r; eapply fadd_nonneg_ge; eauto).
  assert (Hrf : is_float r) by (subst r; eapply fadd_valid_l; eauto).
  destruct (fle_not_nan _ _ Hr) as [Hgn Hrn].
  clearbody r. unfold std_clamp.
  rewrite (fle_flt _ _ (fle_trans _ _ _ Hlo Hr)).
  destruct (1 <? r) eqn:H2r.
  - split; [exact Hhi |]. split; [split; reflexivity | reflexivity].
  - split; [exact Hr |]. split; [| exact Hrf].
    split; [exact (fle_trans _ _ _ Hlo Hr) |].
    apply flt_false_fle; [reflexivity | exact Hrn | exact H2r].
Qed.

(** One voiced frame in the situation of the opening gate. *)
Lemma opening_step (s : RNNoiseWrapper) (frame : list float) :
  voiced (vadThreshold_ s) -> gate_opening s ->
  let s' := fst (fst (processFrame s frame)) in
  gate_opening s' /\
  smoothGain_ s' = smooth (smoothGain_ s) 1 /\
  smoothGain_ s <= smoothGain_ s'.
Proof.
  intros Hv (Hi & Hl & Hgf & Hg) s'.
  destruct (initialised_state s Hi) as [st Hs].
  destruct (processFrame_settings s frame) as (Hi' & Hl' & _ & _).
  fold s' in Hi', Hl'.
  assert (Hgain : smoothGain_ s' = smooth (smoothGain_ s) 1).
  { subst s'. rewrite processFrame_gain, Hs, (flt_fle _ _ Hl).
    unfold targetGain. rewrite (Hv st frame). reflexivity. }
  destruct (smooth_opening (smoothGain_ s) Hgf Hg) as (Hle & Hrange & Hf).
  rewrite <- Hgain in Hle, Hrange, Hf.
  split; [| split; [exact Hgain | exact Hle]].
  unfold gate_opening. rewrite Hi', Hl'.
  repeat split; try assumption; apply Hrange.
Qed.

Lemma opening_run (frames : list (list float)) (s : RNNoiseWrapper) :
  voiced (vadThreshold_ s) -> gate_opening s ->
  gate_opening (process_all s frames) /\
  smoothGain_ (process_all s frames)
  = fold_left (fun g _ => smooth g 1) frames (smoothGain_ s).
Proof.
  revert s. induction frames as [| frame frames IH]; intros s Hv Hc.
  - split; [exact Hc | reflexivity].
  - unfold process_all in *. cbn [fold_left].
    destruct (opening_step s frame Hv Hc) as (Hc' & Hg' & _).
    destruct (processFrame_settings s frame) as (_ & _ & Ht & _).
    assert (Hv' : voiced (vadThreshold_ (fst (fst (processFrame s frame))))).
    { rewrite Ht. exact Hv. }
    destruct (IH _ Hv' Hc') as [Hc'' Hg''].
    split; [exact Hc'' |]. rewrite Hg'', Hg'. reflexivity.
Qed.

(** X10. Opening the gate.  With the engine initialised, a suppression
    level above 0, a smoothed gain in [[0.001f, 1]] and an engine whose
    probability is at least the threshold for every frame, each
    [processFrame] smooths towards the target 1: the new gain is
    [gain + 0.08f * (1 - gain)] kept within [[0.001f, 1]], it is greater
    than or equal to the gain before the call, and it is never above 1. *)
Theorem gate_opens (s : RNNoiseWrapper) :
  isInitialized s = true ->
  0 < suppressionLevel_ s ->
  is_float (smoothGain_ s) -> decimal 1 1000 <= smoothGain_ s <= 1 ->
  voiced (vadThreshold_ s) ->
  forall frames frame,
    let before := process_all s frames in
    let after := fst (fst (processFrame before frame)) in
    let raw := smoothGain_ before + decimal 8 100 * (1 - smoothGain_ before) in
    smoothGain_ after
      = (if raw <? decimal 1 1000 then decimal 1 1000
         else if 1 <? raw then 1 else raw) /\
    smoothGain_ before <= smoothGain_ after /\
    smoothGain_ after <= 1.
Proof.
  intros Hi Hl Hgf Hg Hv frames frame before after raw.
  assert (Hc : gate_opening s) by (repeat split; try assumption; apply Hg).
  destruct (opening_run frames s Hv Hc) as [Hc' _]. fold before in Hc'.
  destruct (process_all_settings frames s) as (_ & _ & Ht & _).
  fold before in Ht.
  assert (Hv' : voiced (vadThreshold_ before)) by (rewrite Ht; exact Hv).
  destruct (opening_step before frame Hv' Hc') as (Hc'' & Hgain & Hle).
  fold after in Hc'', Hgain, Hle.
  split; [exact Hgain |]. split; [exact Hle |].
  destruct Hc'' as (_ & _ & _ & _ & Hhi). exact Hhi.
Qed.

End FrameProcessor.

(** * Instances

    The statements above at concrete objects. *)

Section RingInstances.
Local Open Scope Q_scope.

Example ring_of_four :
  let rb := RingBuffer_new 3 in
  let '(rb1, n1) := write rb [1; 2; 3; 4] 4 in
  let '(rb2, out2, n2) := read rb1 2 in
  let '(rb3, n3) := write rb2 [5; 6; 7] 3 in
  let '(rb4, out4, n4) := read rb3 4 in
  (capacity rb, n1, out2, n2, n3, out4, n4, available_read rb4)
  = (4%Z, 3%Z, [1; 2], 2%Z, 2%Z, [3; 5; 6], 3%Z, 0%Z).
Proof. vm_compute. reflexivity. Qed.

Lemma ring_indices_invariant_witness :
  let cs := [Write [1; 2; 3; 4; 5] 5; Read 2; Write [6; 7] 2; Read 10;
             Write [8; 9; 10; 11] 4] in
  (0 <= 4 <= 2 ^ 63)%Z /\
  Forall call_fits cs /\
  (samples_written (run (RingBuffer_new 4) cs) < size_modulus)%Z /\
  Forall event_ok (run (RingBuffer_new 4) cs) /\
  map ev_ret (run (RingBuffer_new 4) cs) = [3; 2; 2; 3; 3]%Z.
Proof.
  intros cs.
  assert (Hn : (0 <= 4 <= 2 ^ 63)%Z) by lia.
  assert (Hfit : Forall call_fits cs).
  { repeat constructor; vm_compute; congruence. }
  assert (Hsum : (samples_written (run (RingBuffer_new 4) cs) < size_modulus)%Z).
  { vm_compute. reflexivity. }
  split; [exact Hn |]. split; [exact Hfit |]. split; [exact Hsum |].
  split; [| vm_compute; reflexivity].
  exact (ring_indices_invariant 4 cs Hn Hfit Hsum).
Defined.

Lemma write_then_read_roundtrip_witness :
  let rb := RingBuffer_new 8 in
  let chunks := [[1; 2]; [3]; [4; 5; 6]] in
  well_formed rb /\
  read_idx_ rb = write_idx_ rb /\
  (Z.of_nat (length (concat chunks)) <= capacity rb - 1)%Z /\
  snd (write_all rb chunks) = [2; 1; 3]%Z /\
  snd (fst (read (fst (write_all rb chunks)) 6)) = [1; 2; 3; 4; 5; 6] /\
  snd (read (fst (write_all rb chunks)) 6) = 6%Z.
Proof.
  intros rb chunks.
  assert (Hwf : well_formed rb).
  { apply RingBuffer_new_well_formed. lia. }
  assert (He : read_idx_ rb = write_idx_ rb) by reflexivity.
  assert (Hfit : (Z.of_nat (length (concat chunks)) <= capacity rb - 1)%Z).
  { vm_compute. congruence. }
  split; [exact Hwf |]. split; [exact He |]. split; [exact Hfit |].
  exact (write_then_read_roundtrip rb chunks Hwf He Hfit).
Defined.

Lemma capacity_100_scenario_witness :
  let src := (fun i => inject_Z i) <$> seqZ 1 130 in
  length src = 130%nat /\
  snd (write (RingBuffer_new 100) src 130) = 127%Z /\
  snd (fst (read (fst (write (RingBuffer_new 100) src 130)) 127)) = take 127 src.
Proof.
  intros src.
  assert (Hlen : length src = 130%nat) by (vm_compute; reflexivity).
  split; [exact Hlen |].
  destruct (capacity_100_scenario src Hlen) as (_ & _ & Hn & _ & Hdata & _).
  split; [exact Hn | exact Hdata].
Defined.

Lemma constructor_capacity_witness :
  (0 <= 100 <= 2 ^ 63)%Z /\
  capacity (RingBuffer_new 100) = nextPowerOf2 100 /\
  exists k, (0 <= k < 64)%Z /\ nextPowerOf2 100 = (2 ^ k)%Z /\
            (100 <= 2 ^ k)%Z /\ ((1 < 100)%Z -> (2 ^ k < 2 * 100)%Z).
Proof.
  assert (Hn : (0 <= 100 <= 2 ^ 63)%Z) by lia.
  split; [exact Hn |].
  exact (constructor_capacity 100 Hn).
Defined.

Lemma nextPowerOf2_overflow_witness :
  (2 ^ 63 < 2 ^ 63 + 1 < size_modulus)%Z /\
  nextPowerOf2 (2 ^ 63 + 1) = 0%Z /\
  capacity (RingBuffer_new (2 ^ 63 + 1)) = 0%Z /\
  mask_ (RingBuffer_new (2 ^ 63 + 1)) = (size_modulus - 1)%Z.
Proof.
  assert (Hn : (2 ^ 63 < 2 ^ 63 + 1 < size_modulus)%Z).
  { split; vm_compute; reflexivity. }
  split; [exact Hn |].
  exact (nextPowerOf2_overflow (2 ^ 63 + 1) Hn).
Defined.

Lemma ring_is_fifo_queue_witness :
  let cs := [Write [1; 2; 3; 4; 5] 5; Read 2; Write [6; 7] 2; Read 10;
             Write [8; 9; 10; 11] 4] in
  (0 <= 4 <= 2 ^ 63)%Z /\
  Forall call_sound cs /\
  (samples_written (run (RingBuffer_new 4) cs) < size_modulus)%Z /\
  observations (RingBuffer_new 4) cs
  = queue_observations (capacity (RingBuffer_new 4)) [] cs.
Proof.
  intros cs.
  assert (Hn : (0 <= 4 <= 2 ^ 63)%Z) by lia.
  assert (Hsound : Forall call_sound cs).
  { repeat constructor; vm_compute; congruence. }
  assert (Hsum : (samples_written (run (RingBuffer_new 4) cs) < size_modulus)%Z).
  { vm_compute. reflexivity. }
  split; [exact Hn |]. split; [exact Hsound |]. split; [exact Hsum |].
  exact (ring_is_fifo_queue 4 cs Hn Hsound Hsum).
Defined.

Lemma empty_and_full_are_noops_witness :
  let rb := RingBuffer_new 4 in
  let full := fst (write rb [1; 2; 3] 3) in
  (well_formed rb /\ indices_ok rb /\ is_size_t 2 /\
   available_read rb = 0%Z /\
   read rb 2 = (rb, [], 0%Z)) /\
  (well_formed full /\ indices_ok full /\
   available_read full = (capacity full - 1)%Z /\
   write full [4; 5] 2 = (full, 0%Z)).
Proof.
  intros rb full.
  assert (Hwf : well_formed rb) by (apply RingBuffer_new_well_formed; lia).
  assert (Hok : indices_ok rb) by (split; vm_compute; congruence).
  assert (Hc : is_size_t 2) by (split; vm_compute; congruence).
  assert (He : available_read rb = 0%Z) by reflexivity.
  assert (Hwf' : well_formed full).
  { exists 2%Z. split; [lia |]. split; [reflexivity |]. split; [reflexivity |].
    split; [reflexivity |]. split; split; vm_compute; congruence. }
  assert (Hok' : indices_ok full) by (split; vm_compute; congruence).
  assert (Hf : available_read full = (capacity full - 1)%Z) by reflexivity.
  split.
  - split; [exact Hwf |]. split; [exact Hok |]. split; [exact Hc |].
    split; [exact He |].
    exact (proj1 (empty_and_full_are_noops rb [] 2 Hwf Hok Hc) He).
  - split; [exact Hwf' |]. split; [exact Hok' |]. split; [exact Hf |].
    exact (proj2 (empty_and_full_are_noops full [4; 5] 2 Hwf' Hok' Hc) Hf).
Defined.

Lemma wrapped_index_misreports_witness :
  let rb := mkRingBuffer 4 3 [0; 0; 0; 0] (size_modulus - 1) 1 in
  well_formed rb /\
  (write_idx_ rb < read_idx_ rb)%Z /\
  (write_idx_ rb + size_modulus - read_idx_ rb <= capacity rb - 1)%Z /\
  available_read rb = (capacity rb + 2)%Z /\
  available_write rb = (size_modulus - 2 - 1)%Z.
Proof.
  intros rb.
  assert (Hwf : well_formed rb).
  { exists 2%Z. split; [lia |]. split; [reflexivity |]. split; [reflexivity |].
    split; [reflexivity |]. split; split; vm_compute; congruence. }
  assert (Hlt : (write_idx_ rb < read_idx_ rb)%Z) by (vm_compute; reflexivity).
  assert (Hc : (write_idx_ rb + size_modulus - read_idx_ rb <= capacity rb - 1)%Z).
  { vm_compute. congruence. }
  split; [exact Hwf |]. split; [exact Hlt |]. split; [exact Hc |].
  exact (wrapped_index_misreports rb Hwf Hlt Hc).
Defined.

Lemma accepted_samples_are_delivered_in_order_witness :
  let cs := [Write [1; 2; 3; 4; 5] 5; Read 2; Write [6; 7] 2; Read 10;
             Write [8; 9; 10; 11] 4] in
  (0 <= 4 <= 2 ^ 63)%Z /\
  Forall call_sound cs /\
  (samples_written (run (RingBuffer_new 4) cs) < size_modulus)%Z /\
  exists pending,
    accepted cs (observations (RingBuffer_new 4) cs)
    = delivered (observations (RingBuffer_new 4) cs) ++ pending /\
    (Z.of_nat (length pending) <= capacity (RingBuffer_new 4) - 1)%Z.
Proof.
  intros cs.
  assert (Hn : (0 <= 4 <= 2 ^ 63)%Z) by lia.
  assert (Hsound : Forall call_sound cs).
  { repeat constructor; vm_compute; congruence. }
  assert (Hsum : (samples_written (run (RingBuffer_new 4) cs) < size_modulus)%Z).
  { vm_compute. reflexivity. }
  split; [exact Hn |]. split; [exact Hsound |]. split; [exact Hsum |].
  exact (accepted_samples_are_delivered_in_order 4 cs Hn Hsound Hsum).
Defined.

End RingInstances.

(** ** The ring buffer past the range of its indices *)

Section RingIndexWrap.
Local Open Scope Z_scope.

(** One lap on the buffer of capacity 4 whose cells hold 0. *)
Lemma lap_step (i : Z) :
  0 <= i -> i + 1 < size_modulus ->
  step (mkRingBuffer 4 3 [0%Q; 0%Q; 0%Q; 0%Q] i i) (Write [0%Q] 1)
  = (mkRingBuffer 4 3 [0%Q; 0%Q; 0%Q; 0%Q] i (i + 1), 1) /\
  step (mkRingBuffer 4 3 [0%Q; 0%Q; 0%Q; 0%Q] i (i + 1)) (Read 1)
  = (mkRingBuffer 4 3 [0%Q; 0%Q; 0%Q; 0%Q] (i + 1) (i + 1), 1).
Proof.
  intros H0 H1. unfold size_modulus in H1.
  assert (Hw : wrap (i + 1) = i + 1) by (apply wrap_small; unfold size_modulus; lia).
  split.
  - unfold step, write, used_between.
    cbn [capacity_ mask_ buffer_ read_idx_ write_idx_].
    rewrite Z.leb_refl, Z.sub_diag.
    change (wrap 0) with 0. change (wrap (wrap (4 - 0) - 1)) with 3.
    change (3 <? 1) with false. cbv iota. change (1 =? 0) with false. cbv iota.
    rewrite Hw. f_equal. f_equal.
    unfold write_loop. change (seqZ 0 1) with [0]. cbn [fold_left].
    rewrite Z.add_0_r.
    assert (Hr : 0 <= Z.land (wrap i) 3 < 4).
    { change 3 with (Z.ones 2). rewrite Z.land_ones by lia.
      apply Z.mod_pos_bound. lia. }
    change (nth (Z.to_nat 0) [0%Q] 0%Q) with 0%Q.
    assert (Hcases : Z.land (wrap i) 3 = 0 \/ Z.land (wrap i) 3 = 1 \/
                     Z.land (wrap i) 3 = 2 \/ Z.land (wrap i) 3 = 3) by lia.
    destruct Hcases as [-> | [-> | [-> | ->]]]; reflexivity.
  - unfold step, read, used_between.
    cbn [capacity_ mask_ buffer_ read_idx_ write_idx_].
    assert (Hle : (i <=? i + 1) = true) by (apply Z.leb_le; lia).
    rewrite Hle. replace (i + 1 - i) with 1 by lia.
    change (wrap 1) with 1. change (1 <? 1) with false. cbv iota.
    change (1 =? 0) with false. cbv iota.
    rewrite Hw. reflexivity.
Qed.

Lemma laps_then (k : nat) : forall (i : Z) (cs : list call),
  0 <= i -> i + Z.of_nat k < size_modulus ->
  Forall event_ok (run (mkRingBuffer 4 3 [0%Q; 0%Q; 0%Q; 0%Q] i i) (laps k ++ cs)) ->
  Forall event_ok
    (run (mkRingBuffer 4 3 [0%Q; 0%Q; 0%Q; 0%Q]
            (i + Z.of_nat k) (i + Z.of_nat k)) cs).
Proof.
  induction k as [| k IH]; intros i cs H0 Hk Hall.
  - rewrite Z.add_0_r. exact Hall.
  - destruct (lap_step i H0 ltac:(lia)) as [Hw Hr].
    unfold laps in Hall. cbn [replicate concat app] in Hall.
    fold (laps k) in Hall.
    cbn [run] in Hall. rewrite Hw in Hall. cbn [run] in Hall.
    rewrite Hr in Hall.
    apply Forall_cons_1 in Hall. destruct Hall as [_ Hall].
    apply Forall_cons_1 in Hall. destruct Hall as [_ Hall].
    replace (i + Z.of_nat (S k)) with (i + 1 + Z.of_nat k) by lia.
    apply IH; [lia | lia | exact Hall].
Qed.

Lemma laps_fit (k : nat) : Forall call_fits (laps k).
Proof.
  induction k as [| k IH]; [constructor |].
  unfold laps. cbn [replicate concat app]. fold (laps k).
  constructor; [split; vm_compute; congruence |].
  constructor; [split; vm_compute; congruence | exact IH].
Qed.

(** C4 fails outside the domain of the index arithmetic.  A new buffer of
    capacity 4 on which one sample is written and read back [2 ^ 64 - 2]
    times has both indices at [2 ^ 64 - 2]; the next [write] of 3 samples
    returns 3 and wraps the write index to 1, below the read index, and
    [available_read] then answers 7, more than [capacity - 1 = 3].  A
    buffer requested with more than [2 ^ 63] samples has capacity 0, and
    no index can lie between the read index and the read index minus
    one. *)
Lemma indices_invariant_needs_unwrapped_indices :
  (let cs := laps (Z.to_nat (2 ^ 64 - 2)) ++ [Write [1%Q; 2%Q; 3%Q] 3] in
   Forall call_fits cs /\
   ~ Forall event_ok (run (RingBuffer_new 4) cs)) /\
  (let rb := mkRingBuffer 4 3 [0%Q; 0%Q; 0%Q; 0%Q] (2 ^ 64 - 2) (2 ^ 64 - 2) in
   available_read rb = 0 /\
   snd (write rb [1%Q; 2%Q; 3%Q] 3) = 3 /\
   read_idx_ (fst (write rb [1%Q; 2%Q; 3%Q] 3)) = 2 ^ 64 - 2 /\
   write_idx_ (fst (write rb [1%Q; 2%Q; 3%Q] 3)) = 1 /\
   available_read (fst (write rb [1%Q; 2%Q; 3%Q] 3)) = 7 /\
   capacity (fst (write rb [1%Q; 2%Q; 3%Q] 3)) - 1 = 3) /\
  (capacity (RingBuffer_new (2 ^ 63 + 1)) = 0 /\
   ~ Forall event_ok (run (RingBuffer_new (2 ^ 63 + 1)) [Read 1])).
Proof.
  split; [| split].
  - cbv zeta.
    remember (Z.to_nat (2 ^ 64 - 2)) as K eqn:HK.
    assert (HKz : Z.of_nat K = 2 ^ 64 - 2).
    { subst K. apply Z2Nat.id. lia. }
    clear HK. split.
    + apply Forall_app. split; [apply laps_fit |].
      constructor; [split; vm_compute; congruence | constructor].
    + intros Hall.
      change (RingBuffer_new 4)
        with (mkRingBuffer 4 3 [0%Q; 0%Q; 0%Q; 0%Q] 0 0) in Hall.
      apply laps_then in Hall; [| lia | rewrite HKz; unfold size_modulus; lia].
      rewrite HKz in Hall. 
      apply Forall_cons_1 in Hall. destruct Hall as [(Hok & _) _].
      vm_compute in Hok. destruct Hok as [Hok _]. apply Hok. reflexivity.
  - cbv zeta. repeat split; vm_compute; reflexivity.
  - split; [vm_compute; reflexivity |].
    intros Hall. apply Forall_cons_1 in Hall. destruct Hall as [(Hok & _) _].
    vm_compute in Hok. destruct Hok as [_ Hok]. apply Hok. reflexivity.
Qed.

End RingIndexWrap.

(** ** The frame processor at concrete objects *)

Section WrapperInstances.
Local Open Scope float_scope.

(** The bit patterns of the constants: [0.001f] is [0x3a83126f]. *)
Example kMinGateGain_bits : kMinGateGain = S754_finite false 8589935 (-33).
Proof. vm_compute. reflexivity. Qed.

Example xorshift32_seed : xorshift32 0x12345678%Z = 2274908837%Z.
Proof. vm_compute. reflexivity. Qed.

Example comfortNoiseSample_seed :
  comfortNoiseSample 0x12345678%Z
  = (of_Z (-2020058459) / of_Z 2147483648 * decimal 1 1000, 2274908837%Z).
Proof. vm_compute. reflexivity. Qed.

Example targetGain_open : targetGain (decimal 7 10) (decimal 5 10) = 1.
Proof. vm_compute. reflexivity. Qed.

Example targetGain_band :
  targetGain (decimal 45 100) (decimal 5 10) = S754_finite false 8396994 (-24).
Proof. vm_compute. reflexivity. Qed.

Example targetGain_below :
  targetGain (decimal 2 10) (decimal 5 10) = S754_finite false 8396997 (-24).
Proof. vm_compute. reflexivity. Qed.

Example targetGain_silent : targetGain 0 (decimal 5 10) = decimal 1 1000.
Proof. vm_compute. reflexivity. Qed.

(** The branch is chosen by the rounded difference [T - 0.1f]: with
    [T = 0.75f] the difference is [0x1.4cccccp-1], and a probability of
    that value is inside the band, where the target is [0.001f]. *)
Example targetGain_rounded_edge :
  decimal 3 4 - decimal 1 10 = S754_finite false 10905190 (-24) /\
  targetGain (S754_finite false 10905190 (-24)) (decimal 3 4) = decimal 1 1000.
Proof. split; vm_compute; reflexivity. Qed.

Example smooth_first_silent_frame :
  smooth 1 (targetGain 0 (decimal 5 10)) = S754_finite false 15436381 (-24).
Proof. vm_compute. reflexivity. Qed.

(** From the gain 1 that [init] sets, silent frames lower the gain on
    each of the first 251 frames; it is then [0x1.0624eap-10], six units
    in the last place above [0.001f], and stays there. *)
Example closing_from_one :
  let gain n := Nat.iter n (fun g => smooth g (decimal 1 1000)) 1 in
  forallb (fun n => gain (S n) <? gain n) (seq 0 251) = true /\
  gain 251%nat = S754_finite false 8589941 (-33) /\
  smooth (gain 251%nat) (decimal 1 1000) = gain 251%nat.
Proof. split; [| split]; vm_compute; reflexivity. Qed.

(** From the minimal gain, voiced frames raise the gain on each of the
    first 176 frames; it is then [0x1.fffff4p-1], six units in the last
    place below 1, and stays there. *)
Example opening_from_min :
  let gain n := Nat.iter n (fun g => smooth g 1) (decimal 1 1000) in
  forallb (fun n => gain n <? gain (S n)) (seq 0 176) = true /\
  gain 176%nat = S754_finite false 16777210 (-24) /\
  smooth (gain 176%nat) 1 = gain 176%nat.
Proof. split; [| split]; vm_compute; reflexivity. Qed.

(** The mean of 480 squares of [0.1f] rounds up: the RMS of the frame is
    above [0.1f]. *)
Example rms_of_constant_frame :
  rms (replicate 480 (decimal 1 10)) = S754_finite false 13421794 (-27) /\
  decimal 1 10 < rms (replicate 480 (decimal 1 10)).
Proof. split; vm_compute; reflexivity. Qed.

Lemma target_gain_cases_witness :
  let vad := S754_finite false 10905190 (-24) in
  let s := @setVadThreshold (fixed_vad vad) (decimal 3 4) (started vad) in
  state_ s = Some tt /\
  0 < suppressionLevel_ s /\
  is_float (vadThreshold_ s) /\
  vadThreshold_ s - decimal 1 10 <= @engine_vad (fixed_vad vad) tt half_scale /\
  @engine_vad (fixed_vad vad) tt half_scale < vadThreshold_ s /\
  snd (processFrame s half_scale) = @engine_vad (fixed_vad vad) tt half_scale /\
  targetGain (@engine_vad (fixed_vad vad) tt half_scale) (vadThreshold_ s)
  = decimal 1 1000
    + (@engine_vad (fixed_vad vad) tt half_scale
       - (vadThreshold_ s - decimal 1 10)) / decimal 1 10
      * (1 - decimal 1 1000).
Proof.
  intros vad s.
  assert (Hs : state_ s = Some tt) by reflexivity.
  assert (Hl : 0 < suppressionLevel_ s) by reflexivity.
  assert (Ht : is_float (vadThreshold_ s)) by reflexivity.
  assert (Hlo : vadThreshold_ s - decimal 1 10
                <= @engine_vad (fixed_vad vad) tt half_scale).
  { vm_compute. reflexivity. }
  assert (Hhi : @engine_vad (fixed_vad vad) tt half_scale < vadThreshold_ s).
  { vm_compute. reflexivity. }
  split; [exact Hs |]. split; [exact Hl |]. split; [exact Ht |].
  split; [exact Hlo |]. split; [exact Hhi |].
  destruct (target_gain_cases s tt half_scale Hs Hl Ht)
    as (Hret & _ & _ & _ & Hband).
  split; [exact Hret |].
  exact (Hband Hlo Hhi).
Defined.

Lemma smooth_gain_invariant_witness :
  let ms := [@Init (fixed_vad 0) (Some tt); SetVadThreshold (decimal 3 4);
             ProcessFrame silence; SetSuppressionLevel (decimal 1 2);
             ProcessFrame half_scale; Destroy] in
  @vad_is_number (fixed_vad 0) /\
  Forall (@numeric_threshold (fixed_vad 0)) ms /\
  Forall (fun s => decimal 1 1000 <= smoothGain_ s <= 1)
    (@states (fixed_vad 0) RNNoiseWrapper_new ms).
Proof.
  intros ms.
  assert (Hv : @vad_is_number (fixed_vad 0)) by (intros st frame; reflexivity).
  assert (Hms : Forall (@numeric_threshold (fixed_vad 0)) ms).
  { repeat constructor. }
  split; [exact Hv |]. split; [exact Hms |].
  exact (proj1 (smooth_gain_invariant ms Hv Hms)).
Defined.

Lemma passthrough_when_off_witness :
  let s := setSuppressionLevel 0 (started 1) in
  state_ s = Some tt /\
  suppressionLevel_ s <= 0 /\
  length half_scale = 480%nat /\
  snd (fst (processFrame s half_scale)) = half_scale /\
  snd (processFrame s half_scale) = 0 /\
  inputRms (metrics_ (fst (fst (processFrame s half_scale)))) = rms half_scale /\
  framesProcessed (metrics_ (fst (fst (processFrame s half_scale)))) = 1%Z.
Proof.
  intros s.
  assert (Hs : state_ s = Some tt) by reflexivity.
  assert (Hl : suppressionLevel_ s <= 0) by reflexivity.
  assert (Hn : length half_scale = 480%nat) by (vm_compute; reflexivity).
  split; [exact Hs |]. split; [exact Hl |]. split; [exact Hn |].
  destruct (passthrough_when_off s tt half_scale Hs Hl Hn)
    as (Hframe & Hret & Hin & _ & _ & _ & Hcount).
  split; [exact Hframe |]. split; [exact Hret |]. split; [exact Hin |].
  exact Hcount.
Defined.

(** The object after 27 silent frames: ready for comfort noise. *)
Lemma attenuated_ready :
  state_ attenuated = Some tt /\
  0 < suppressionLevel_ attenuated /\
  comfortNoiseEnabled_ attenuated = true /\
  (0 <= noiseState_ attenuated < 2 ^ 32)%Z /\
  smoothGain_ (fst (fst (processFrame attenuated silence))) < decimal 1 10.
Proof.
  split; [vm_compute; reflexivity |]. split; [vm_compute; reflexivity |].
  split; [vm_compute; reflexivity |].
  split; [split; vm_compute; congruence |].
  vm_compute. reflexivity.
Qed.

Lemma comfort_noise_injection_witness :
  state_ attenuated = Some tt /\
  0 < suppressionLevel_ attenuated /\
  length silence = kRNNoiseFrameSize /\
  (0 <= noiseState_ attenuated < 2 ^ 32)%Z /\
  comfortNoiseEnabled_ attenuated = true /\
  smoothGain_ (fst (fst (processFrame attenuated silence))) < decimal 1 10 /\
  noiseState_ (fst (fst (processFrame attenuated silence)))
    = Nat.iter kRNNoiseFrameSize xorshift32 (noiseState_ attenuated) /\
  exists v,
    as_int32 (Nat.iter 1 xorshift32 (noiseState_ attenuated)) v /\
    nth 0 (snd (fst (processFrame attenuated silence))) 0 =
      nth 0 (snd (fst (fst (gate attenuated tt silence)))) 0 +
      of_Z v / of_Z (2 ^ 31) * decimal 1 1000
        * ((decimal 1 10
            - smoothGain_ (fst (fst (processFrame attenuated silence))))
           / decimal 1 10).
Proof.
  destruct attenuated_ready as (Hs & Hl & Hon & Hns & Hlow).
  assert (Hn : length silence = kRNNoiseFrameSize) by (vm_compute; reflexivity).
  split; [exact Hs |]. split; [exact Hl |]. split; [exact Hn |].
  split; [exact Hns |]. split; [exact Hon |]. split; [exact Hlow |].
  destruct (comfort_noise_injection attenuated tt silence Hs Hl Hn Hns)
    as (_ & Hinj & _).
  destruct (Hinj Hon Hlow) as (_ & Hval & Hst).
  split; [exact Hst |].
  exact (Hval 0%nat (Nat.lt_0_succ 479)).
Defined.

Lemma fast_path_keeps_gate_state_witness :
  let s := setSuppressionLevel 0 (fst (fst (processFrame (started 0) silence))) in
  let s1 := process_all s [half_scale; silence] in
  state_ s = Some tt /\
  suppressionLevel_ s <= 0 /\
  [half_scale; silence] <> [] /\
  smoothGain_ s <> 1 /\
  smoothGain_ s1 = smoothGain_ s /\
  currentGain (metrics_ s1) = 1 /\
  smoothGain_ s1 <> currentGain (metrics_ s1).
Proof.
  intros s s1.
  assert (Hs : state_ s = Some tt) by (vm_compute; reflexivity).
  assert (Hl : suppressionLevel_ s <= 0) by (vm_compute; reflexivity).
  assert (Hne : [half_scale; silence] <> []) by discriminate.
  assert (Hg : smoothGain_ s <> 1) by (vm_compute; discriminate).
  split; [exact Hs |]. split; [exact Hl |]. split; [exact Hne |].
  split; [exact Hg |].
  destruct (fast_path_keeps_gate_state s tt [half_scale; silence] Hs Hl Hne)
    as (Hkeep & _ & Hone & _ & Hdiff).
  split; [exact Hkeep |]. split; [exact Hone |].
  exact (Hdiff Hg).
Defined.


(** ** Where the claims about the gain fail *)




(** C2 fails as stated.  [setVadThreshold] stores a NaN it is given, and
    the engine may report a NaN: the target gain is then NaN, the smoothed
    value is NaN, and [std::clamp], whose comparisons with NaN are false,
    returns it as the new gain. *)
Lemma nan_gain_is_not_clamped :
  (let s := setVadThreshold NaN (started 0) in
   is_nan (vadThreshold_ s) = true /\
   smoothGain_ (fst (fst (processFrame s silence))) = NaN /\
   ~ (decimal 1 1000 <= smoothGain_ (fst (fst (processFrame s silence))) <= 1)) /\
  (let s := started NaN in
   smoothGain_ (fst (fst (processFrame s silence))) = NaN /\
   ~ (decimal 1 1000 <= smoothGain_ (fst (fst (processFrame s silence))) <= 1)).
Proof.
  split; cbv zeta.
  - split; [reflexivity |].
    assert (Hg : smoothGain_
                   (fst (fst (processFrame (setVadThreshold NaN (started 0))
                                silence))) = NaN).
    { vm_compute. reflexivity. }
    split; [exact Hg |]. rewrite Hg. intros [Hlo _]. discriminate Hlo.
  - assert (Hg : smoothGain_ (fst (fst (processFrame (started NaN) silence)))
                 = NaN).
    { vm_compute. reflexivity. }
    split; [exact Hg |]. rewrite Hg. intros [Hlo _]. discriminate Hlo.
Qed.


(** ** Instances of the further properties *)

Lemma settings_stay_in_range_witness :
  let ms := [@Init (fixed_vad 0) (Some tt); SetSuppressionLevel (of_Z 3);
             SetVadThreshold (decimal 3 4); ProcessFrame silence;
             SetSuppressionLevel (of_Z (-1))] in
  Forall (@numeric (fixed_vad 0)) ms /\
  Forall
    (fun s => 0 <= getSuppressionLevel s <= 1 /\ 0 <= getVadThreshold s <= 1)
    (@states (fixed_vad 0) RNNoiseWrapper_new ms).
Proof.
  intros ms.
  assert (Hms : Forall (@numeric (fixed_vad 0)) ms).
  { repeat constructor. }
  split; [exact Hms |].
  exact (proj1 (settings_stay_in_range ms Hms)).
Defined.

Lemma frames_are_counted_witness :
  isInitialized (started 0) = true /\
  (0 <= framesProcessed (metrics_ (started 0)) < size_modulus)%Z /\
  framesProcessed (metrics_ (process_all (started 0) [silence; half_scale]))
  = wrap (framesProcessed (metrics_ (started 0)) + 2).
Proof.
  assert (Hi : isInitialized (started 0) = true) by reflexivity.
  assert (Hc : (0 <= framesProcessed (metrics_ (started 0)) < size_modulus)%Z).
  { split; vm_compute; congruence. }
  split; [exact Hi |]. split; [exact Hc |].
  exact (frames_are_counted (started 0) [silence; half_scale] Hi Hc).
Defined.

Lemma gate_opens_witness :
  let s := started (decimal 7 10) in
  isInitialized s = true /\
  0 < suppressionLevel_ s /\
  is_float (smoothGain_ s) /\
  decimal 1 1000 <= smoothGain_ s <= 1 /\
  @voiced (fixed_vad (decimal 7 10)) (vadThreshold_ s) /\
  smoothGain_ (process_all s [silence])
    <= smoothGain_ (fst (fst (processFrame (process_all s [silence]) half_scale))) /\
  smoothGain_ (fst (fst (processFrame (process_all s [silence]) half_scale)))
    <= 1.
Proof.
  intros s.
  assert (Hi : isInitialized s = true) by reflexivity.
  assert (Hl : 0 < suppressionLevel_ s) by reflexivity.
  assert (Hgf : is_float (smoothGain_ s)) by reflexivity.
  assert (Hg : decimal 1 1000 <= smoothGain_ s <= 1) by (split; reflexivity).
  assert (Hv : @voiced (fixed_vad (decimal 7 10)) (vadThreshold_ s)).
  { intros st frame. reflexivity. }
  split; [exact Hi |]. split; [exact Hl |]. split; [exact Hgf |].
  split; [exact Hg |]. split; [exact Hv |].
  destruct (gate_opens s Hi Hl Hgf Hg Hv [silence] half_scale)
    as (_ & Hle & Hhi).
  split; [exact Hle | exact Hhi].
Defined.

Lemma output_is_gated_mix_witness :
  let s := setComfortNoise false
             (setSuppressionLevel (decimal 1 2) (started (decimal 7 10))) in
  state_ s = Some tt /\
  0 < suppressionLevel_ s /\
  comfortNoiseEnabled_ s = false /\
  length half_scale = kRNNoiseFrameSize /\
  suppressionLevel_ s < 1 /\
  nth 0 (snd (fst (processFrame s half_scale))) 0
  = (nth 0
       (snd (fst (@rnnoise_process_frame (fixed_vad (decimal 7 10)) tt
                    (for_each kRNNoiseFrameSize
                       (fun x => x * of_Z 32767) half_scale)))) 0
     * (1 / of_Z 32767) * suppressionLevel_ s
     + nth 0 half_scale 0 * (1 - suppressionLevel_ s))
    * smoothGain_ (fst (fst (processFrame s half_scale))).
Proof.
  intros s.
  assert (Hs : state_ s = Some tt) by reflexivity.
  assert (Hl : 0 < suppressionLevel_ s) by reflexivity.
  assert (Hoff : comfortNoiseEnabled_ s = false) by reflexivity.
  assert (Hn : length half_scale = kRNNoiseFrameSize) by (vm_compute; reflexivity).
  assert (Hlt : suppressionLevel_ s < 1) by reflexivity.
  split; [exact Hs |]. split; [exact Hl |]. split; [exact Hoff |].
  split; [exact Hn |]. split; [exact Hlt |].
  exact (proj1 (output_is_gated_mix s tt half_scale Hs Hl Hoff Hn
                  0%nat (Nat.lt_0_succ 479)) Hlt).
Defined.

Lemma full_path_metrics_witness :
  let s := started (decimal 7 10) in
  state_ s = Some tt /\
  0 < suppressionLevel_ s /\
  length half_scale = kRNNoiseFrameSize /\
  inputRms (metrics_ (fst (fst (processFrame s half_scale)))) = rms half_scale /\
  vadProbability (metrics_ (fst (fst (processFrame s half_scale))))
    = snd (processFrame s half_scale).
Proof.
  intros s.
  assert (Hs : state_ s = Some tt) by reflexivity.
  assert (Hl : 0 < suppressionLevel_ s) by reflexivity.
  assert (Hn : length half_scale = kRNNoiseFrameSize) by (vm_compute; reflexivity).
  split; [exact Hs |]. split; [exact Hl |]. split; [exact Hn |].
  destruct (full_path_metrics s tt half_scale Hs Hl Hn)
    as (Hin & _ & Hvad & _).
  split; [exact Hin | exact Hvad].
Defined.

Lemma rms_is_a_number_witness :
  Forall (fun x => is_nan x = false) half_scale /\
  (0 < 480)%nat /\
  (Z.of_nat 480 < 2 ^ 64)%Z /\
  is_nan (computeRms half_scale 480) = false /\
  0 <= computeRms half_scale 480.
Proof.
  assert (Hall : Forall (fun x => is_nan x = false) half_scale).
  { apply Forall_replicate. reflexivity. }
  assert (Hlen : (0 < 480)%nat) by lia.
  assert (Hfit : (Z.of_nat 480 < 2 ^ 64)%Z) by (vm_compute; reflexivity).
  split; [exact Hall |]. split; [exact Hlen |]. split; [exact Hfit |].
  exact (rms_is_a_number half_scale 480 Hall Hlen Hfit).
Defined.

End WrapperInstances.
